(** * Pointfile: the parsing and record-synthesis engine of pointfiletool.js

    A shallow embedding of [safeParseJson], [parseRawDetails],
    [enhanceWithAI] and the line builder of [generatePointFile], with the
    JavaScript built-ins they call (regular expressions, [split],
    [replace], [trim], [toUpperCase], [parseInt], string conversion and
    truthiness) written out after ECMAScript.  [JSON.parse] is a
    parameter of the development.

    Strings are lists of code units.  The input alphabet of the model is
    ASCII: the built-ins that look at a code unit ([toUpperCase], [\s],
    [trim]) are given on the ASCII range, and a code unit from 128 on is
    an inert symbol (no white space, no letter, no digit).

    The file has the model first, then the definitions the properties
    are stated with, the facts about the matcher, the parser, the merge
    and the engine, the properties of the specification, C1 to C10, and
    last further properties of the code, X1 to X22. *)

From Stdlib Require Import Ascii String DecimalString.
From Stdlib Require Import ZArith Lia Bool Arith List.
Import ListNotations.
Open Scope list_scope.

(** ** Strings *)

Definition str := list ascii.

(** A string literal of the source. *)
Definition lit (s : string) : str := list_ascii_of_string s.
Arguments lit : simpl never.

(** The double quote, code unit 34. *)
Definition dq : ascii := ascii_of_nat 34.

Definition str_eqb (a b : str) : bool :=
  if list_eq_dec ascii_dec a b then true else false.

Definition nonempty (s : str) : bool :=
  match s with [] => false | _ :: _ => true end.

(** [Array.prototype.join] on an array of strings. *)
Fixpoint join (sep : str) (l : list str) : str :=
  match l with
  | [] => []
  | [x] => x
  | x :: l' => x ++ sep ++ join sep l'
  end.

(** *** Character classes *)

Definition in_range (lo hi : nat) (c : ascii) : bool :=
  (lo <=? nat_of_ascii c) && (nat_of_ascii c <=? hi).

(** [\d] *)
Definition is_digit (c : ascii) : bool := in_range 48 57 c.

(** [\s], and the code units [trim] strips: TAB, LF, VT, FF, CR, space. *)
Definition is_space (c : ascii) : bool :=
  in_range 9 13 c || (nat_of_ascii c =? 32).

Definition is_upper (c : ascii) : bool := in_range 65 90 c.
Definition is_lower (c : ascii) : bool := in_range 97 122 c.

(** [A-Z0-9] *)
Definition is_AZ09 (c : ascii) : bool := is_upper c || is_digit c.

Definition upper_char (c : ascii) : ascii :=
  if is_lower c then ascii_of_nat (nat_of_ascii c - 32) else c.

(** [String.prototype.toUpperCase] *)
Definition toUpperCase (s : str) : str := map upper_char s.

Fixpoint dropWhile (p : ascii -> bool) (s : str) : str :=
  match s with
  | [] => []
  | a :: s' => if p a then dropWhile p s' else s
  end.

(** [String.prototype.trim] *)
Definition trim (s : str) : str :=
  rev (dropWhile is_space (rev (dropWhile is_space s))).

(** Decimal rendering of an array index. *)
Definition dec (n : nat) : str :=
  lit (NilEmpty.string_of_uint (Nat.to_uint n)).

(** ** Regular expressions

    The backtracking matcher of ECMAScript, in continuation-passing style:
    [rmatch r s c k] matches [r] at the head of [s] with the captures [c]
    so far and hands what is left of the input to [k]; when [k] fails the
    matcher tries its next alternative. *)

Inductive regex : Type :=
| Eps
| Chr (p : ascii -> bool)              (* one code unit of a class *)
| Seq (r1 r2 : regex)
| Alt (r1 r2 : regex)                  (* r1|r2 *)
| Star (greedy : bool) (r : regex)     (* r* and r*? *)
| Group (n : nat) (r : regex)          (* the n-th capturing group *)
| Look (r : regex)                     (* (?=r) *)
| Eol (multiline : bool).              (* $ *)

(** Captures, the latest first. *)
Definition caps := list (nat * str).

Fixpoint cap (c : caps) (n : nat) : option str :=
  match c with
  | [] => None
  | (m, x) :: c' => if m =? n then Some x else cap c' n
  end.

Definition mres := option (str * caps).

Definition ret (s : str) (c : caps) : mres := Some (s, c).

Definition is_line_terminator (c : ascii) : bool :=
  (nat_of_ascii c =? 10) || (nat_of_ascii c =? 13).

(** The loop of a quantifier [body*]: an iteration that consumes nothing
    is refused, so the length [n] of the input bounds the number of
    iterations.  Greedy tries one more iteration before the rest of the
    pattern, lazy the rest of the pattern first. *)
Fixpoint repeat_loop (g : bool)
    (body : str -> caps -> (str -> caps -> mres) -> mres)
    (k : str -> caps -> mres) (n : nat) (s : str) (c : caps) {struct n} : mres :=
  match n with
  | O => k s c
  | S n' =>
      if g then
        match body s c (fun s1 c1 =>
                if length s1 <? length s then repeat_loop g body k n' s1 c1
                else None) with
        | Some x => Some x
        | None => k s c
        end
      else
        match k s c with
        | Some x => Some x
        | None => body s c (fun s1 c1 =>
                if length s1 <? length s then repeat_loop g body k n' s1 c1
                else None)
        end
  end.

Fixpoint rmatch (r : regex) (s : str) (c : caps) (k : str -> caps -> mres)
  {struct r} : mres :=
  match r with
  | Eps => k s c
  | Chr p =>
      match s with
      | a :: s' => if p a then k s' c else None
      | [] => None
      end
  | Seq r1 r2 => rmatch r1 s c (fun s1 c1 => rmatch r2 s1 c1 k)
  | Alt r1 r2 =>
      match rmatch r1 s c k with
      | Some x => Some x
      | None => rmatch r2 s c k
      end
  | Star g r1 => repeat_loop g (rmatch r1) k (length s) s c
  | Group n r1 =>
      rmatch r1 s c (fun s1 c1 =>
        k s1 ((n, firstn (length s - length s1) s) :: c1))
  | Look r1 =>
      match rmatch r1 s c ret with
      | Some (_, c1) => k s c1
      | None => None
      end
  | Eol ml =>
      match s with
      | [] => k s c
      | a :: _ => if ml && is_line_terminator a then k s c else None
      end
  end.

(** [r+], [r?] and a literal word. *)
Definition rplus (r : regex) : regex := Seq r (Star true r).
Definition ropt (r : regex) : regex := Alt r Eps.
Definition chr (a : ascii) : regex := Chr (fun c => Ascii.eqb c a).
(** A letter under the [i] flag. *)
Definition chr_i (a : ascii) : regex :=
  Chr (fun c => Ascii.eqb (upper_char c) (upper_char a)).
Definition not_chr (a : ascii) : regex := Chr (fun c => negb (Ascii.eqb c a)).
Definition any : regex := Chr (fun _ => true).
Definition digit : regex := Chr is_digit.
Definition space : regex := Chr is_space.

Fixpoint word (mk : ascii -> regex) (w : str) : regex :=
  match w with
  | [] => Eps
  | [a] => mk a
  | a :: w' => Seq (mk a) (word mk w')
  end.

(** The leftmost match of [r] in [s]: its index, the matched text and the
    captures.  [i] is the index of the head of [s] in the whole string. *)
Fixpoint search (r : regex) (s : str) (i : nat) : option (nat * str * caps) :=
  match rmatch r s [] ret with
  | Some (rest, c) => Some (i, firstn (length s - length rest) s, c)
  | None =>
      match s with
      | [] => None
      | _ :: s' => search r s' (S i)
      end
  end.

(** [RegExp.prototype.test] *)
Definition test (r : regex) (s : str) : bool :=
  match search r s 0 with Some _ => true | None => false end.

(** [String.prototype.split] with a regular expression without capturing
    groups.  [skip] counts the code units of the separator still to be
    passed over, [piece] is the current piece, reversed.  A separator
    that matches the empty string splits between code units. *)
Fixpoint split_go (r : regex) (s : str) (skip : nat) (piece : str) : list str :=
  match s with
  | [] => [rev piece]
  | a :: s' =>
      match skip with
      | S n => split_go r s' n piece
      | O =>
          match rmatch r s [] ret with
          | Some (rest, _) =>
              match length s - length rest with
              | S n => rev piece :: split_go r s' n []
              | O =>
                  match piece with
                  | [] => split_go r s' 0 [a]
                  | _ :: _ => rev piece :: split_go r s' 0 [a]
                  end
              end
          | None => split_go r s' 0 (a :: piece)
          end
      end
  end.

Definition splitRe (r : regex) (s : str) : list str :=
  match s with
  | [] => match rmatch r [] [] ret with Some _ => [] | None => [[]] end
  | _ :: _ => split_go r s 0 []
  end.

(** [String.prototype.replace] with a global regular expression; [rep]
    builds the replacement from the captures of a match. *)
Fixpoint replace_go (r : regex) (rep : caps -> str) (s : str) (skip : nat) : str :=
  match s with
  | [] =>
      match skip with
      | S _ => []
      | O => match rmatch r [] [] ret with Some (_, c) => rep c | None => [] end
      end
  | a :: s' =>
      match skip with
      | S n => replace_go r rep s' n
      | O =>
          match rmatch r s [] ret with
          | Some (rest, c) =>
              match length s - length rest with
              | S n => rep c ++ replace_go r rep s' n
              | O => rep c ++ a :: replace_go r rep s' 0
              end
          | None => a :: replace_go r rep s' 0
          end
      end
  end.

Definition replaceAll (r : regex) (rep : caps -> str) (s : str) : str :=
  replace_go r rep s 0.

(** ** JavaScript values

    The values a record field or a decoded JSON document can hold.  A
    number is carried as its rendering by [Number::toString] (the only
    thing the program does with a decoded number is to print it and to
    test it for zero). *)

#[local] Set Warnings "-register-all".

Inductive jsval : Type :=
| JUndefined
| JNull
| JBool (b : bool)
| JNum (repr : str)
| JStr (s : str)
| JArr (xs : list jsval)
| JObj (fields : list (str * jsval)).

(** The outcome of code that can raise: [Throw] is a TypeError. *)
Inductive result (A : Type) : Type :=
| Ok (a : A)
| Throw.
Arguments Ok {A} a.
Arguments Throw {A}.

Definition bind {A B : Type} (m : result A) (f : A -> result B) : result B :=
  match m with
  | Ok a => f a
  | Throw => Throw
  end.

Notation "x <- m ;; f" := (bind m (fun x => f))
  (at level 61, m at next level, right associativity).

Fixpoint mapM {A B : Type} (f : A -> result B) (l : list A) : result (list B) :=
  match l with
  | [] => Ok []
  | x :: l' => y <- f x ;; ys <- mapM f l' ;; Ok (y :: ys)
  end.

(** ToBoolean *)
Definition truthy (v : jsval) : bool :=
  match v with
  | JUndefined | JNull => false
  | JBool b => b
  | JNum r => negb (str_eqb r (lit "0")) && negb (str_eqb r (lit "NaN"))
  | JStr s => nonempty s
  | JArr _ | JObj _ => true
  end.

Fixpoint lookup (name : str) (fields : list (str * jsval)) : option jsval :=
  match fields with
  | [] => None
  | (k, v) :: fields' => if str_eqb k name then Some v else lookup name fields'
  end.

(** Reading a property of a decoded value.  The names the program reads
    ([parameters], [offset], [name], [bits], [values], [label], [value])
    are own properties of an object or absent; reading from [null] or
    [undefined] raises. *)
Definition getProp (v : jsval) (name : str) : result jsval :=
  match v with
  | JUndefined | JNull => Throw
  | JObj fields =>
      match lookup name fields with
      | Some x => Ok x
      | None => Ok JUndefined
      end
  | _ => Ok JUndefined
  end.

(** ToString, as a template literal applies it.  An array prints its
    elements joined by commas, [null] and [undefined] among them as the
    empty string; an object prints as [[object Object]] unless a decoded
    [toString] field hides the inherited method, and then the conversion
    raises. *)
Fixpoint ToString (v : jsval) : result str :=
  match v with
  | JUndefined => Ok (lit "undefined")
  | JNull => Ok (lit "null")
  | JBool true => Ok (lit "true")
  | JBool false => Ok (lit "false")
  | JNum r => Ok r
  | JStr s => Ok s
  | JArr xs =>
      (fix elements (l : list jsval) : result str :=
         match l with
         | [] => Ok []
         | x :: l' =>
             sx <- match x with
                   | JUndefined | JNull => Ok []
                   | _ => ToString x
                   end ;;
             match l' with
             | [] => Ok sx
             | _ :: _ => sl <- elements l' ;; Ok (sx ++ lit "," ++ sl)
             end
         end) xs
  | JObj fields =>
      match lookup (lit "toString") fields with
      | Some _ => Throw
      | None => Ok (lit "[object Object]")
      end
  end.

(** *** parseInt *)

(** A Number that [parseInt] returns. *)
Inductive number : Type :=
| NaN
| Fin (z : Z)
| Inf (negative : bool).

(** The double nearest to a positive integer, ties to even. *)
Definition roundDouble (a : Z) : Z :=
  let e := Z.log2 a in
  if (e <=? 52)%Z then a
  else
    let sh := (e - 52)%Z in
    let q := Z.shiftr a sh in
    let r := (a - Z.shiftl q sh)%Z in
    let half := Z.shiftl 1 (sh - 1) in
    let q' := if (half <? r)%Z || ((r =? half)%Z && Z.odd q) then (q + 1)%Z else q in
    Z.shiftl q' sh.

Definition toNumber (negative : bool) (a : Z) : number :=
  if (a =? 0)%Z then Fin 0
  else
    let d := roundDouble a in
    if (Z.shiftl 1 1024 <=? d)%Z then Inf negative
    else Fin (if negative then (- d)%Z else d).

Definition digit_value (radix : nat) (c : ascii) : option Z :=
  let n := nat_of_ascii c in
  let v := if is_digit c then Some (n - 48)
           else if in_range 97 122 c then Some (n - 87)
           else if in_range 65 90 c then Some (n - 55)
           else None in
  match v with
  | Some d => if d <? radix then Some (Z.of_nat d) else None
  | None => None
  end.

(** The value of the longest prefix of radix digits; [None] when there
    is no digit. *)
Fixpoint digits_value (radix : nat) (s : str) (acc : option Z) : option Z :=
  match s with
  | [] => acc
  | c :: s' =>
      match digit_value radix c with
      | Some d =>
          digits_value radix s'
            (Some (match acc with Some a => a * Z.of_nat radix + d | None => d end)%Z)
      | None => acc
      end
  end.

(** [parseInt(string)] with no radix. *)
Definition parseInt (input : str) : number :=
  let s := dropWhile is_space input in
  let negative := match s with "-"%char :: _ => true | _ => false end in
  let s1 := match s with
            | "-"%char :: t => t
            | "+"%char :: t => t
            | _ => s
            end in
  let '(radix, s2) :=
    match s1 with
    | "0"%char :: "x"%char :: t => (16, t)
    | "0"%char :: "X"%char :: t => (16, t)
    | _ => (10, s1)
    end in
  match digits_value radix s2 None with
  | None => NaN
  | Some a => toNumber negative a
  end.

(** [===] on two results of [parseInt]. *)
Definition strictEq (a b : number) : bool :=
  match a, b with
  | Fin x, Fin y => (x =? y)%Z
  | Inf s, Inf t => Bool.eqb s t
  | _, _ => false
  end.

(** ** Records *)

Record entry : Type := mkEntry {
  offset : str;
  type : jsval;     (* a string, or undefined when the line has one token *)
  id : str;
  tag : str;
  label : jsval;    (* a string until the merge puts a decoded value there *)
  group : str;
  bits : jsval;     (* likewise *)
  bnd : str;
  evt : str
}.

(** ** parseRawDetails *)

Definition CR : ascii := ascii_of_nat 13.
Definition LF : ascii := ascii_of_nat 10.

(** [/\r?\n/] *)
Definition lineBreak : regex := Seq (ropt (chr CR)) (chr LF).

(** [/bits(\d+)/gi] *)
Definition typoRe : regex := Seq (word chr_i (lit "bits")) (Group 1 (rplus digit)).

(** [/\s+/] *)
Definition spaces : regex := rplus space.

(** [Bits?], with the letters built by [mk] ([chr], or [chr_i] under
    the [i] flag). *)
Definition bitWord (mk : ascii -> regex) : regex :=
  Seq (word mk (lit "Bit")) (ropt (mk "s"%char)).

(** [/Bits?\s+\d/] *)
Definition bitDetect : regex := Seq (bitWord chr) (Seq (rplus space) digit).

(** [/;|,(?=\s*Bits?\s+\d+)/] *)
Definition segSep : regex :=
  Alt (chr ";"%char)
      (Seq (chr ","%char)
           (Look (Seq (Star true space)
                 (Seq (bitWord chr) (Seq (rplus space) (rplus digit)))))).

(** [/Bits?\s*(\d+)(?:-(\d+))?:\s*([^;]+)/i] *)
Definition segRe : regex :=
  Seq (bitWord chr_i)
 (Seq (Star true space)
 (Seq (Group 1 (rplus digit))
 (Seq (ropt (Seq (chr "-"%char) (Group 2 (rplus digit))))
 (Seq (chr ":"%char)
 (Seq (Star true space)
      (Group 3 (rplus (not_chr ";"%char)))))))).

(** [/(\d+):\s*([^:]+)(?=\s+\d+:|$)/g] *)
Definition mapRegex : regex :=
  Seq (Group 1 (rplus digit))
 (Seq (chr ":"%char)
 (Seq (Star true space)
 (Seq (Group 2 (rplus (not_chr ":"%char)))
      (Look (Alt (Seq (rplus space) (Seq (rplus digit) (chr ":"%char)))
                 (Eol false)))))).

(** [/\d+:/] *)
Definition numColon : regex := Seq (rplus digit) (chr ":"%char).

(** [/[^A-Z0-9]+/g] *)
Definition nonTag : regex := rplus (Chr (fun c => negb (is_AZ09 c))).

(** A capturing group that took part in the match. *)
Definition capd (c : caps) (n : nat) : str :=
  match cap c n with Some x => x | None => [] end.

(** The tag of a label: [label.toUpperCase().replace(/[^A-Z0-9]+/g, '_')]. *)
Definition synthTag (label : str) : str :=
  replaceAll nonTag (fun _ => lit "_") (toUpperCase label).

(** [segment.match(segRe)]: the start number, the end number when the
    optional group took part, and the description. *)
Definition segMatch (segment : str) : option (str * option str * str) :=
  match search segRe segment 0 with
  | Some (_, _, c) => Some (capd c 1, cap c 2, capd c 3)
  | None => None
  end.

Definition bitsRange (start : str) (end_ : option str) : str :=
  match end_ with
  | Some e => if nonempty e then start ++ lit "-" ++ e else start
  | None => start
  end.

(** The record pushed for a matched segment at index [i]. *)
Definition bitEntry (offset_ : str) (type_ : jsval) (groupName : str)
    (i : nat) (m : str * option str * str) : entry :=
  let '(start, end_, desc) := m in
  {| offset := offset_;
     type := type_;
     id := offset_;
     tag := synthTag desc ++ lit "_" ++ dec (i + 1);
     label := JStr (trim desc);
     group := groupName;
     bits := JStr (bitsRange start end_);
     bnd := [];
     evt := [] |}.

(** [segments.forEach((segment, i) => ...)], from index [i] on. *)
Fixpoint bitEntries (offset_ : str) (type_ : jsval) (groupName : str)
    (segments : list str) (i : nat) : list entry :=
  match segments with
  | [] => []
  | segment :: rest =>
      match segMatch segment with
      | Some m =>
          bitEntry offset_ type_ groupName i m
            :: bitEntries offset_ type_ groupName rest (S i)
      | None => bitEntries offset_ type_ groupName rest (S i)
      end
  end.

(** [restText.split(/;|,(?=\s*Bits?\s+\d+)/).map(s => s.trim()).filter(Boolean)] *)
Definition segmentsOf (restText : str) : list str :=
  filter nonempty (map trim (splitRe segSep restText)).

(** The matches of the loop [while ((m = r.exec(s)) !== null)] for a
    global [r], in order; [skip] counts the code units of the last match
    still to be passed over.  A match of the empty string would leave
    [lastIndex] where it is and the loop would not end: the scan stops
    there ([mapRegex] matches at least two code units, see
    [mapRegex_consumes]). *)
Fixpoint execAll (r : regex) (s : str) (skip : nat) : list caps :=
  match s with
  | [] => []
  | _ :: s' =>
      match skip with
      | S n => execAll r s' n
      | O =>
          match rmatch r s [] ret with
          | Some (rest, c) =>
              match length s - length rest with
              | S n => c :: execAll r s' n
              | O => []
              end
          | None => execAll r s' 0
          end
      end
  end.

(** The [{ value, label }] pairs of [restText]. *)
Definition mappingsOf (restText : str) : list (str * str) :=
  map (fun c => (capd c 1, trim (capd c 2))) (execAll mapRegex restText 0).

(** [`"${mp.label}"==${mp.value},0`] *)
Definition clause (label_ value : str) : str :=
  dq :: label_ ++ dq :: lit "==" ++ value ++ lit ",0".

Definition paramNameOf (restText : str) : str :=
  match mappingsOf restText with
  | _ :: _ => trim (hd [] (splitRe numColon restText))
  | [] => trim restText
  end.

Definition evtOf (restText : str) : str :=
  join (lit ":") (map (fun mp => clause (snd mp) (fst mp)) (mappingsOf restText)).

(** The three parts of a detail line after the typo rewrite:
    [const [offsetToken, typeToken, ...rest] = line.split(/\s+/)]. *)
Definition normalize (line : str) : str :=
  replaceAll typoRe (fun c => lit "Bits " ++ capd c 1) line.

Definition tokensOf (line : str) : list str := splitRe spaces (normalize line).

Definition offsetOf (line : str) : str := hd [] (tokensOf line).

Definition typeOf (line : str) : jsval :=
  match nth_error (tokensOf line) 1 with
  | Some typeToken =>
      if str_eqb typeToken (lit "Integer") then JStr (lit "DI") else JStr typeToken
  | None => JUndefined
  end.

Definition restTextOf (line : str) : str := join (lit " ") (skipn 2 (tokensOf line)).

(** The line goes to the bit-field branch. *)
Definition isBitField (line : str) : bool := test bitDetect (restTextOf line).

(** The body of [detailLines.forEach]: the records one line pushes. *)
Definition parseLine (groupName line : str) : list entry :=
  let offset_ := offsetOf line in
  let type_ := typeOf line in
  let restText := restTextOf line in
  if test bitDetect restText then
    bitEntries offset_ type_ groupName (segmentsOf restText) 0
  else
    let paramName := paramNameOf restText in
    [ {| offset := offset_;
         type := type_;
         id := offset_;
         tag := synthTag paramName;
         label := JStr paramName;
         group := groupName;
         bits := JStr [];
         bnd := [];
         evt := evtOf restText |} ].

(** [raw.trim().split(/\r?\n/).map(l => l.trim()).filter(l => l)] *)
Definition linesOf (raw : str) : list str :=
  filter nonempty (map trim (splitRe lineBreak (trim raw))).

Definition parseRawDetails (raw : str) : list entry :=
  let lines := linesOf raw in
  if length lines <? 2 then []
  else
    let groupName := hd [] lines in
    let detailLines := skipn 1 lines in
    flat_map (parseLine groupName) detailLines.

(** ** safeParseJson and enhanceWithAI *)

(** [/{[\s\S]*?}$/m] *)
Definition jsonObjRe : regex :=
  Seq (chr "{"%char) (Seq (Star false any) (Seq (chr "}"%char) (Eol true))).

(** The records live in a store; an array of records is a list of
    addresses.  The merge allocates, and writes nowhere else. *)
Definition heap := list entry.

(** [a || b] *)
Definition orElse (a b : jsval) : jsval := if truthy a then a else b.

(** [v => `"${v.label}"==${v.value},0`] *)
Definition valueClause (v : jsval) : result str :=
  l <- getProp v (lit "label") ;;
  ls <- ToString l ;;
  x <- getProp v (lit "value") ;;
  xs <- ToString x ;;
  Ok (clause ls xs).

(** [parameters.find(p => parseInt(p.offset) === parseInt(entry.offset))] *)
Fixpoint findParam (parameters : list jsval) (offset_ : str) : result (option jsval) :=
  match parameters with
  | [] => Ok None
  | p :: rest =>
      o <- getProp p (lit "offset") ;;
      so <- ToString o ;;
      if strictEq (parseInt so) (parseInt offset_) then Ok (Some p)
      else findParam rest offset_
  end.

(** The object literal of a matched record. *)
Definition merged (e : entry) (name bits_ : jsval) (evt_ : str) : entry :=
  {| offset := offset e;
     type := type e;
     id := id e;
     tag := tag e;
     label := orElse name (label e);
     group := group e;
     bits := orElse bits_ (bits e);
     bnd := bnd e;
     evt := evt_ |}.

(** The callback of [entries.map]: the address of the record it returns
    and the store after it.  [parameters] is [aiJson.parameters]; calling
    [find] on a value that is no array raises. *)
Definition enhanceEntry (parameters : jsval) (h : heap) (r : nat)
  : result (nat * heap) :=
  match nth_error h r with
  | None => Throw
  | Some e =>
      found <- match parameters with
               | JArr ps => findParam ps (offset e)
               | _ => Throw
               end ;;
      match found with
      | None => Ok (r, h)
      | Some aiParam =>
          if negb (truthy aiParam) then Ok (r, h)
          else
            values <- getProp aiParam (lit "values") ;;
            evt_ <- (if truthy values then
                       match values with
                       | JArr vs =>
                           cs <- mapM valueClause vs ;; Ok (join (lit ":") cs)
                       | _ => Throw
                       end
                     else Ok (evt e)) ;;
            name <- getProp aiParam (lit "name") ;;
            bits_ <- getProp aiParam (lit "bits") ;;
            Ok (length h, h ++ [merged e name bits_ evt_])
      end
  end.

Fixpoint enhanceEntries (parameters : jsval) (h : heap) (entries : list nat)
  : result (list nat * heap) :=
  match entries with
  | [] => Ok ([], h)
  | r :: rest =>
      p <- enhanceEntry parameters h r ;;
      q <- enhanceEntries parameters (snd p) rest ;;
      Ok (fst p :: fst q, snd q)
  end.

Section Enrichment.

(** [JSON.parse]; [None] when it raises a SyntaxError. *)
Variable JSON_parse : str -> option jsval.

Definition safeParseJson (s : str) : jsval :=
  match search jsonObjRe s 0 with
  | None => JNull
  | Some (_, text, _) =>
      match JSON_parse text with
      | Some v => v
      | None => JNull
      end
  end.

Definition enhanceWithAI (h : heap) (entries : list nat) (aiData : str)
  : result (list nat * heap) :=
  let aiJson := safeParseJson aiData in
  if negb (truthy aiJson) then Ok (entries, h)
  else
    parameters <- getProp aiJson (lit "parameters") ;;
    if negb (truthy parameters) then Ok (entries, h)
    else enhanceEntries parameters h entries.

End Enrichment.

(** ** The line builder of generatePointFile *)

(** The callback of [entries.map] at the end of [generatePointFile]. *)
Definition pointLine (e : entry) : result str :=
  ty <- ToString (type e) ;;
  lb <- ToString (label e) ;;
  bs <- (if truthy (bits e) then
           b <- ToString (bits e) ;; Ok (lit " [Bits " ++ b ++ lit "]")
         else Ok []) ;;
  let line := lit ":SAFRAN_X:PNT: " ++ ty ++ lit ":" ++ id e ++ lit ":" ++ tag e
              ++ lit ":" ++ dq :: lb ++ bs ++ dq :: lit ":grp " ++ dq :: group e
              ++ [dq] in
  let line := if nonempty (bnd e) then line ++ lit ":bnd " ++ bnd e else line in
  let line := if nonempty (evt e) then line ++ lit ":evt " ++ evt e else line in
  Ok (line ++ lit ":").

(** [entries.map(...)] followed by [lines.join('\n')]. *)
Definition buildOutput (entries : list entry) : result str :=
  lines <- mapM pointLine entries ;;
  Ok (join [LF] lines).

Definition deref (h : heap) (r : nat) : result entry :=
  match nth_error h r with
  | Some e => Ok e
  | None => Throw
  end.

Section Engine.

Variable JSON_parse : str -> option jsval.

(** The records [generatePointFile] hands to the line builder: the
    parse, merged with the response [aiResp] of the enrichment service
    when [useAI && apiKey] holds. *)
Definition engineRecords (rawDetails : str) (useAI : bool) (apiKey aiResp : str)
  : result (list entry) :=
  let parsed := parseRawDetails rawDetails in
  let entries := seq 0 (length parsed) in
  if useAI && nonempty apiKey then
    p <- enhanceWithAI JSON_parse parsed entries aiResp ;;
    mapM (deref (snd p)) (fst p)
  else Ok parsed.

(** The [try] block of [generatePointFile]; [Throw] is its [catch]. *)
Definition generatePointFile (rawDetails : str) (useAI : bool) (apiKey aiResp : str)
  : result str :=
  entries <- engineRecords rawDetails useAI apiKey aiResp ;;
  buildOutput entries.

End Engine.

(** * Definitions used to state the properties *)

(** ** Matches of a pattern *)

(** The matches of a pattern, without the order in which the matcher
    tries them: [Matches r s c s' c'] when [r] can match at the head of
    [s], leaving [s'], and turn the captures [c] into [c']. *)
Inductive Matches : regex -> str -> caps -> str -> caps -> Prop :=
| M_Eps s c : Matches Eps s c s c
| M_Chr p a s c : p a = true -> Matches (Chr p) (a :: s) c s c
| M_Seq r1 r2 s c s1 c1 s2 c2 :
    Matches r1 s c s1 c1 -> Matches r2 s1 c1 s2 c2 ->
    Matches (Seq r1 r2) s c s2 c2
| M_AltL r1 r2 s c s1 c1 : Matches r1 s c s1 c1 -> Matches (Alt r1 r2) s c s1 c1
| M_AltR r1 r2 s c s1 c1 : Matches r2 s c s1 c1 -> Matches (Alt r1 r2) s c s1 c1
| M_StarDone g r s c : Matches (Star g r) s c s c
| M_StarMore g r s c s1 c1 s2 c2 :
    Matches r s c s1 c1 -> length s1 < length s ->
    Matches (Star g r) s1 c1 s2 c2 ->
    Matches (Star g r) s c s2 c2
| M_Group n r s c s1 c1 :
    Matches r s c s1 c1 ->
    Matches (Group n r) s c s1 ((n, firstn (length s - length s1) s) :: c1)
| M_Look r s c s1 c1 : Matches r s c s1 c1 -> Matches (Look r) s c s c1
| M_EolEnd ml c : Matches (Eol ml) [] c [] c
| M_EolLine a s c :
    is_line_terminator a = true -> Matches (Eol true) (a :: s) c (a :: s) c.

(** Every match of [r] takes at least one code unit. *)
Fixpoint consuming (r : regex) : bool :=
  match r with
  | Chr _ => true
  | Seq r1 r2 => consuming r1 || consuming r2
  | Alt r1 r2 => consuming r1 && consuming r2
  | Group _ r1 => consuming r1
  | Eps | Star _ _ | Look _ | Eol _ => false
  end.

(** The pattern has no capturing group. *)
Fixpoint capfree (r : regex) : bool :=
  match r with
  | Eps | Chr _ | Eol _ => true
  | Seq r1 r2 | Alt r1 r2 => capfree r1 && capfree r2
  | Star _ r1 | Look r1 => capfree r1
  | Group _ _ => false
  end.

(** What a greedy [class*] does on [s]: one more code unit of the class
    first, the rest of the pattern [k] when that fails. *)
Fixpoint greedy_run (p : ascii -> bool) (k : str -> caps -> mres)
    (s : str) (c : caps) : mres :=
  match s with
  | a :: s' =>
      if p a then
        match greedy_run p k s' c with
        | Some x => Some x
        | None => k s c
        end
      else k s c
  | [] => k s c
  end.

(** [s] does not begin with a code unit of the class [p]. *)
Definition stops (p : ascii -> bool) (s : str) : Prop :=
  match s with
  | [] => True
  | a :: _ => p a = false
  end.

(** What a lazy [[\s\S]*?] does on [s]: the rest of the pattern [k]
    first, one more code unit when that fails. *)
Fixpoint lazy_run (k : str -> caps -> mres) (s : str) (c : caps) : mres :=
  match k s c with
  | Some x => Some x
  | None =>
      match s with
      | _ :: s' => lazy_run k s' c
      | [] => None
      end
  end.

(** ** The parser *)

(** The detail lines of an input: [lines.slice(1)]. *)
Definition detailLinesOf (raw : str) : list str := skipn 1 (linesOf raw).

(** Tag synthesis in the words of the specification, on a label already
    in upper case: every maximal run of code units outside [A-Z0-9]
    becomes one underscore.  [inRun] says that the code unit before was
    outside [A-Z0-9]. *)
Fixpoint collapseRuns (s : str) (inRun : bool) : str :=
  match s with
  | [] => []
  | a :: s' =>
      if is_AZ09 a then a :: collapseRuns s' false
      else if inRun then collapseRuns s' true
      else "_"%char :: collapseRuns s' true
  end.

(** A code unit of [[A-Z0-9_]]. *)
Definition tagChar (c : ascii) : Prop := is_AZ09 c = true \/ c = "_"%char.

(** [s] begins with the letters b, i, t, each in either case. *)
Definition startsBit (s : str) : bool :=
  match s with
  | b :: i :: t :: _ =>
      Ascii.eqb (upper_char b) "B" && Ascii.eqb (upper_char i) "I"
      && Ascii.eqb (upper_char t) "T"
  | _ => false
  end.

(** The letters b, i, t occur somewhere in [s]. *)
Fixpoint hasBit (s : str) : bool :=
  startsBit s || match s with [] => false | _ :: s' => hasBit s' end.



Definition digits (s : str) : Prop := s <> [] /\ Forall (fun a => is_digit a = true) s.

(** A line as the parser sees it: not empty, no white space at either
    end, no line feed. *)
Definition cleanLine (l : str) : Prop :=
  l <> [] /\ stops is_space l /\ stops is_space (rev l) /\ ~ In LF l.

(** The shape of the [bits] field the parser writes: empty, a bit
    number, or a range [start-end]. *)
Definition bitsText (b : str) : Prop :=
  b = [] \/ digits b \/
  exists start end_, digits start /\ digits end_ /\ b = start ++ lit "-" ++ end_.

(** [s] begins with the letters b, i, t, s, each in either case, and a
    digit: the typo pattern matches at the head of [s]. *)
Definition typoAt (s : str) : bool :=
  match s with
  | b :: i :: t :: x :: d :: _ =>
      Ascii.eqb (upper_char b) "B" && Ascii.eqb (upper_char i) "I"
      && Ascii.eqb (upper_char t) "T" && Ascii.eqb (upper_char x) "S"
      && is_digit d
  | _ => false
  end.

(** A code unit that is no letter b. *)
Definition notB (a : ascii) : Prop := Ascii.eqb (upper_char a) "B" = false.

(** The typo pattern matches nowhere in [t]. *)
Definition noTypo (t : str) : Prop := forall k, typoAt (skipn k t) = false.

(** ** The decoded text *)

(** [s] is at the end of a line: [$] under the [m] flag. *)
Definition lineEnd (s : str) : bool :=
  match s with
  | [] => true
  | a :: _ => is_line_terminator a
  end.

(** The index of the first closing brace of [s] that ends a line. *)
Fixpoint firstClose (s : str) : option nat :=
  match s with
  | [] => None
  | a :: s' =>
      if Ascii.eqb a "}" && lineEnd s' then Some 0
      else option_map S (firstClose s')
  end.

(** ** The merge *)

(** The offset of the enrichment entry [p], read as an integer, equals
    the record offset [offset_] read as an integer. *)
Definition offsetMatches (p : jsval) (offset_ : str) : Prop :=
  exists o so,
    getProp p (lit "offset") = Ok o /\ ToString o = Ok so /\
    strictEq (parseInt so) (parseInt offset_) = true.

(** [evt_] is the [evt] of a merged record: rebuilt from the [values] of
    the enrichment entry, or the old one. *)
Definition evtMerged (values : jsval) (old evt_ : str) : Prop :=
  if truthy values then
    exists vs cs, values = JArr vs /\ mapM valueClause vs = Ok cs /\
                  evt_ = join (lit ":") cs
  else evt_ = old.

(** What the merge does with the record at [r] of the store [h0], given
    the enrichment entries [ps]: [r'] is the address it returns and [h']
    the store at the end. *)
Definition mergeRel (ps : list jsval) (h0 h' : heap) (r r' : nat) : Prop :=
  forall e, nth_error h0 r = Some e ->
    match findParam ps (offset e) with
    | Ok None => r' = r
    | Ok (Some aiParam) =>
        length h0 <= r' /\
        exists name bits_ values evt_,
          getProp aiParam (lit "name") = Ok name /\
          getProp aiParam (lit "bits") = Ok bits_ /\
          getProp aiParam (lit "values") = Ok values /\
          evtMerged values (evt e) evt_ /\
          nth_error h' r' = Some (merged e name bits_ evt_)
    | Throw => False
    end.

(** The callback of [entries.map] in [enhanceWithAI], on the contents
    of a record: the record it returns, the same or a new one. *)
Definition enhanceRecord (ps : list jsval) (e : entry) : result entry :=
  found <- findParam ps (offset e) ;;
  match found with
  | None => Ok e
  | Some aiParam =>
      if negb (truthy aiParam) then Ok e
      else
        values <- getProp aiParam (lit "values") ;;
        evt_ <- (if truthy values then
                   match values with
                   | JArr vs =>
                       cs <- mapM valueClause vs ;; Ok (join (lit ":") cs)
                   | _ => Throw
                   end
                 else Ok (evt e)) ;;
        name <- getProp aiParam (lit "name") ;;
        bits_ <- getProp aiParam (lit "bits") ;;
        Ok (merged e name bits_ evt_)
  end.

(** The records at the addresses [entries] of the store [h]. *)
Definition recordsAt (h : heap) (entries : list nat) (es : list entry) : Prop :=
  Forall2 (fun r e => nth_error h r = Some e) entries es.

(** The fields the merge never writes are the same in [e] and [e']. *)
Definition sameIdentity (e e' : entry) : Prop :=
  offset e' = offset e /\ type e' = type e /\ id e' = id e /\
  tag e' = tag e /\ group e' = group e /\ bnd e' = bnd e.

(** ** The wire format *)

(** The wire format of the specification,
    [:SAFRAN_X:PNT: {type}:{id}:{tag}:"{label}[ [Bits {bits}]]":grp "{group}"[:bnd {bnd}][:evt {evt}]:],
    a bracketed part being there when its flag is set. *)
Definition wireLine (type_ id_ tag_ label_ : str) (hasBits : bool) (bits_ : str)
    (group_ : str) (hasBnd : bool) (bnd_ : str) (hasEvt : bool) (evt_ : str) : str :=
  lit ":SAFRAN_X:PNT: " ++ type_ ++ lit ":" ++ id_ ++ lit ":" ++ tag_ ++ lit ":"
  ++ [dq] ++ label_ ++ (if hasBits then lit " [Bits " ++ bits_ ++ lit "]" else [])
  ++ [dq] ++ lit ":grp " ++ [dq] ++ group_ ++ [dq]
  ++ (if hasBnd then lit ":bnd " ++ bnd_ else [])
  ++ (if hasEvt then lit ":evt " ++ evt_ else [])
  ++ lit ":".

(** [line] is the wire line of the record [e]: its fields printed, the
    optional parts there when the field is set (for a string: when it
    is not empty). *)
Definition wireLineOf (e : entry) (line : str) : Prop :=
  exists ty lb bs,
    ToString (type e) = Ok ty /\ ToString (label e) = Ok lb /\
    (if truthy (bits e) then ToString (bits e) = Ok bs else bs = []) /\
    line = wireLine ty (id e) (tag e) lb (truthy (bits e)) bs (group e)
             (nonempty (bnd e)) (bnd e) (nonempty (evt e)) (evt e).

(** ** Sample data of the examples *)

Definition quoted (s : str) : str := dq :: s ++ [dq].

(** [JSON.parse] on the one text an example hands to it. *)
Definition decodes (text : str) (v : jsval) : str -> option jsval :=
  fun t => if str_eqb t text then Some v else None.

(** [{"parameters":[{"offset":200,"name":""}]}] *)
Definition payloadEmptyName : str :=
  lit "{" ++ quoted (lit "parameters") ++ lit ":[{" ++ quoted (lit "offset")
  ++ lit ":200," ++ quoted (lit "name") ++ lit ":" ++ quoted [] ++ lit "}]}".

Definition entryEmptyName : jsval :=
  JObj [(lit "offset", JNum (lit "200")); (lit "name", JStr [])].

Definition jsonEmptyName : jsval :=
  JObj [(lit "parameters", JArr [entryEmptyName])].

(** [{"parameters":[{"offset":200,"bits":"0-3"}]}] *)
Definition payloadBits : str :=
  lit "{" ++ quoted (lit "parameters") ++ lit ":[{" ++ quoted (lit "offset")
  ++ lit ":200," ++ quoted (lit "bits") ++ lit ":" ++ quoted (lit "0-3")
  ++ lit "}]}".

Definition entryBits : jsval :=
  JObj [(lit "offset", JNum (lit "200")); (lit "bits", JStr (lit "0-3"))].

Definition jsonBits : jsval := JObj [(lit "parameters", JArr [entryBits])].

(** [{"group":"Config"}] *)
Definition payloadNoParameters : str :=
  lit "{" ++ quoted (lit "group") ++ lit ":" ++ quoted (lit "Config") ++ lit "}".

Definition jsonNoParameters : jsval := JObj [(lit "group", JStr (lit "Config"))].

(** The detail line of scenario 1. *)
Definition lineStatus : str := lit "100 Integer Bits 0: Ready; Bits 1-2: Mode".

(** The table of scenario 2, its detail line and its record. *)
Definition lineSpeed : str := lit "200 Word Speed 0: Slow 1: Fast".

Definition rawConfig : str := lit "Config" ++ [LF] ++ lineSpeed.

Definition speedEntry : entry :=
  {| offset := lit "200";
     type := JStr (lit "Word");
     id := lit "200";
     tag := lit "SPEED";
     label := JStr (lit "Speed");
     group := lit "Config";
     bits := JStr [];
     bnd := [];
     evt := quoted (lit "Slow") ++ lit "==0,0:" ++ quoted (lit "Fast") ++ lit "==1,0" |}.

(** A record with a non-numeric offset. *)
Definition otherEntry : entry :=
  {| offset := lit "abc";
     type := JStr (lit "Word");
     id := lit "abc";
     tag := lit "OTHER";
     label := JStr (lit "Other");
     group := lit "Config";
     bits := JStr [];
     bnd := [];
     evt := [] |}.

(** [{"parameters":"none"}] *)
Definition payloadTextParameters : str :=
  lit "{" ++ quoted (lit "parameters") ++ lit ":" ++ quoted (lit "none") ++ lit "}".

Definition jsonTextParameters : jsval :=
  JObj [(lit "parameters", JStr (lit "none"))].

(** A response on two lines, after its opening brace:
    ["a":{"b":1}], a line feed, [}]. *)
Definition nestedTail : str :=
  quoted (lit "a") ++ lit ":{" ++ quoted (lit "b") ++ lit ":1}" ++ [LF] ++ lit "}".

(** * Tactics *)

(** Case analysis on the outcome [m] of a step of a computation [H]
    that returned: the step returned too, [x] with the equation [E]. *)
Tactic Notation "on_ok" constr(m) "as" ident(x) ident(E) "in" hyp(H) :=
  destruct m as [x|] eqn:E; cbn [bind fst snd] in H; [|discriminate H].

(** The same for a step that returns a pair. *)
Tactic Notation "on_ok2" constr(m) "as" ident(x) ident(y) ident(E) "in" hyp(H) :=
  destruct m as [[x y]|] eqn:E; cbn [bind fst snd] in H; [|discriminate H].

(** Closes a goal whose hypothesis [H] puts a line feed into a string
    literal of the program. *)
Ltac no_LF_literal H :=
  vm_compute in H; repeat (destruct H as [H | H]; [discriminate H|]);
  first [exact H | discriminate H].

(** * Properties of the matcher *)

Lemma app_length_le (a b : str) : length b <= length (a ++ b).
Proof. rewrite length_app. lia. Qed.

Lemma firstn_app_exact (a b : str) :
  firstn (length (a ++ b) - length b) (a ++ b) = a.
Proof.
  rewrite length_app.
  replace (length a + length b - length b) with (length a) by lia.
  rewrite firstn_app, firstn_all, Nat.sub_diag. simpl. apply app_nil_r.
Qed.

(** The loop of a quantifier over one class is [greedy_run], as soon as
    the fuel covers the input. *)
Lemma repeat_loop_greedy p k : forall n s c,
  length s <= n ->
  repeat_loop true (rmatch (Chr p)) k n s c = greedy_run p k s c.
Proof.
  induction n as [|n IH]; intros s c Hn.
  - destruct s; [reflexivity | simpl in Hn; lia].
  - destruct s as [|a s']; [reflexivity|].
    simpl. destruct (p a); [|reflexivity].
    rewrite IH by (simpl in Hn; lia).
    assert (Hlt : (length s' <? S (length s')) = true) by (apply Nat.ltb_lt; lia).
    rewrite Hlt. reflexivity.
Qed.

Lemma rmatch_star_greedy p k s c :
  rmatch (Star true (Chr p)) s c k = greedy_run p k s c.
Proof. simpl. apply repeat_loop_greedy. lia. Qed.

Lemma rmatch_plus p k s c :
  rmatch (rplus (Chr p)) s c k =
  match s with
  | a :: s' => if p a then greedy_run p k s' c else None
  | [] => None
  end.
Proof.
  unfold rplus. change (rmatch (Seq ?a ?b) s c k) with (rmatch a s c (fun s1 c1 => rmatch b s1 c1 k)).
  destruct s as [|a s']; [reflexivity|].
  cbn [rmatch]. destruct (p a); [|reflexivity].
  apply repeat_loop_greedy. lia.
Qed.

Lemma greedy_run_max p k run rest c x :
  Forall (fun a => p a = true) run -> stops p rest -> k rest c = Some x ->
  greedy_run p k (run ++ rest) c = Some x.
Proof.
  intros Hrun Hstop Hk. induction Hrun as [|a run Ha _ IH]; simpl.
  - destruct rest as [|b rest']; [exact Hk|].
    simpl in Hstop. simpl. rewrite Hstop. exact Hk.
  - rewrite Ha, IH. reflexivity.
Qed.

Lemma greedy_run_ret p s c : greedy_run p ret s c = Some (dropWhile p s, c).
Proof.
  induction s as [|a s IH]; simpl; [reflexivity|].
  destruct (p a); [rewrite IH|]; reflexivity.
Qed.

(** *** The matcher finds only matches *)

Lemma repeat_loop_sound g r1 k
  (IH : forall s c k x, rmatch r1 s c k = Some x ->
        exists s' c', Matches r1 s c s' c' /\ k s' c' = Some x) :
  forall n s c x,
    repeat_loop g (rmatch r1) k n s c = Some x ->
    exists s' c', Matches (Star g r1) s c s' c' /\ k s' c' = Some x.
Proof.
  induction n as [|n IHn]; intros s c x H; simpl in H.
  - exists s, c. split; [constructor | exact H].
  - assert (Hmore : forall y,
      rmatch r1 s c (fun s1 c1 =>
        if length s1 <? length s then repeat_loop g (rmatch r1) k n s1 c1 else None)
      = Some y ->
      exists s' c', Matches (Star g r1) s c s' c' /\ k s' c' = Some y).
    { intros y Hy. apply IH in Hy. destruct Hy as (s1 & c1 & Hm & Hy).
      destruct (length s1 <? length s) eqn:Hlt; [|discriminate].
      apply Nat.ltb_lt in Hlt. apply IHn in Hy.
      destruct Hy as (s2 & c2 & Hm2 & Hk).
      exists s2, c2. split; [|exact Hk].
      eapply M_StarMore; eassumption. }
    destruct g.
    + destruct (rmatch r1 s c _) as [y|] eqn:E.
      * inversion H; subst. apply Hmore. reflexivity.
      * exists s, c. split; [constructor | exact H].
    + destruct (k s c) as [y|] eqn:E.
      * inversion H; subst. exists s, c. split; [constructor | exact E].
      * apply Hmore. exact H.
Qed.

Lemma rmatch_sound : forall r s c k x,
  rmatch r s c k = Some x ->
  exists s' c', Matches r s c s' c' /\ k s' c' = Some x.
Proof.
  induction r as [|p|r1 IH1 r2 IH2|r1 IH1 r2 IH2|g r1 IH1|n r1 IH1|r1 IH1|ml];
    intros s c k x H; simpl in H.
  - exists s, c. split; [constructor | exact H].
  - destruct s as [|a s']; [discriminate|].
    destruct (p a) eqn:Hp; [|discriminate].
    exists s', c. split; [constructor; exact Hp | exact H].
  - apply IH1 in H. destruct H as (s1 & c1 & Hm1 & H).
    apply IH2 in H. destruct H as (s2 & c2 & Hm2 & H).
    exists s2, c2. split; [econstructor; eassumption | exact H].
  - destruct (rmatch r1 s c k) as [y|] eqn:E.
    + inversion H; subst. apply IH1 in E. destruct E as (s1 & c1 & Hm & Hk).
      exists s1, c1. split; [apply M_AltL; exact Hm | exact Hk].
    + apply IH2 in H. destruct H as (s1 & c1 & Hm & Hk).
      exists s1, c1. split; [apply M_AltR; exact Hm | exact Hk].
  - eapply repeat_loop_sound; eassumption.
  - apply IH1 in H. destruct H as (s1 & c1 & Hm & Hk).
    eexists _, _. split; [apply M_Group; exact Hm | exact Hk].
  - destruct (rmatch r1 s c ret) as [[s1 c1]|] eqn:E; [|discriminate].
    apply IH1 in E. destruct E as (s2 & c2 & Hm & Hk).
    unfold ret in Hk. inversion Hk; subst.
    exists s, c1. split; [apply M_Look with (s1 := s1); exact Hm | exact H].
  - destruct s as [|a s'].
    + exists [], c. split; [constructor | exact H].
    + destruct ml; simpl in H; [|discriminate].
      destruct (is_line_terminator a) eqn:Hl; [|discriminate].
      exists (a :: s'), c. split; [constructor; exact Hl | exact H].
Qed.

(** What a match leaves is a suffix of the input. *)
Lemma Matches_suffix r s c s' c' :
  Matches r s c s' c' -> exists m, s = m ++ s'.
Proof.
  induction 1;
    try (exists []; reflexivity);
    try assumption.
  - exists [a]. reflexivity.
  - destruct IHMatches1 as [m1 ->]. destruct IHMatches2 as [m2 ->].
    exists (m1 ++ m2). apply app_assoc.
  - destruct IHMatches1 as [m1 ->]. destruct IHMatches2 as [m2 ->].
    exists (m1 ++ m2). apply app_assoc.
Qed.

Lemma Matches_length r s c s' c' :
  Matches r s c s' c' -> length s' <= length s.
Proof.
  intros H. apply Matches_suffix in H. destruct H as [m ->]. apply app_length_le.
Qed.

Lemma Matches_consuming r s c s' c' :
  Matches r s c s' c' -> consuming r = true -> length s' < length s.
Proof.
  induction 1; simpl; intros Hc; try discriminate.
  - lia.
  - apply Matches_length in H. apply Matches_length in H0.
    apply orb_true_iff in Hc. destruct Hc as [Hc|Hc].
    + specialize (IHMatches1 Hc). lia.
    + specialize (IHMatches2 Hc). lia.
  - apply andb_true_iff in Hc. apply IHMatches. apply Hc.
  - apply andb_true_iff in Hc. apply IHMatches. apply Hc.
  - apply IHMatches. exact Hc.
Qed.

(** A match of a consuming pattern takes [S n] code units. *)
Lemma rmatch_consuming r s rest c :
  consuming r = true -> rmatch r s [] ret = Some (rest, c) ->
  exists n, length s - length rest = S n /\ rest = skipn (S n) s.
Proof.
  intros Hc H. apply rmatch_sound in H. destruct H as (s' & c' & Hm & Hk).
  unfold ret in Hk. inversion Hk; subst.
  pose proof (Matches_consuming _ _ _ _ _ Hm Hc) as Hlt.
  apply Matches_suffix in Hm. destruct Hm as [m ->].
  rewrite length_app in *.
  exists (length m - 1). split; [lia|].
  replace (S (length m - 1)) with (length m) by lia.
  rewrite skipn_app, skipn_all, Nat.sub_diag. reflexivity.
Qed.

(** *** Reading a match *)

Lemma Matches_Seq_inv r1 r2 s c s2 c2 :
  Matches (Seq r1 r2) s c s2 c2 ->
  exists s1 c1, Matches r1 s c s1 c1 /\ Matches r2 s1 c1 s2 c2.
Proof. intros H. inversion H; subst. eauto. Qed.

Lemma Matches_Alt_inv r1 r2 s c s1 c1 :
  Matches (Alt r1 r2) s c s1 c1 -> Matches r1 s c s1 c1 \/ Matches r2 s c s1 c1.
Proof. intros H. inversion H; subst; auto. Qed.

Lemma Matches_Group_inv n r s c s1 c' :
  Matches (Group n r) s c s1 c' ->
  exists c1, Matches r s c s1 c1 /\ c' = (n, firstn (length s - length s1) s) :: c1.
Proof. intros H. inversion H; subst. eauto. Qed.

Lemma Matches_Eps_inv s c s1 c1 : Matches Eps s c s1 c1 -> s1 = s /\ c1 = c.
Proof. intros H. inversion H; subst. auto. Qed.

Lemma Matches_Chr_inv p s c s1 c1 :
  Matches (Chr p) s c s1 c1 -> exists a, s = a :: s1 /\ p a = true /\ c1 = c.
Proof. intros H. inversion H; subst. eauto. Qed.

Lemma Matches_capfree r s c s' c' :
  Matches r s c s' c' -> capfree r = true -> c' = c.
Proof.
  induction 1; simpl; intros Hc; try reflexivity; try discriminate;
    try (apply andb_true_iff in Hc; destruct Hc as [Hc1 Hc2]).
  - rewrite (IHMatches2 Hc2). apply IHMatches1. exact Hc1.
  - apply IHMatches. exact Hc1.
  - apply IHMatches. exact Hc2.
  - rewrite (IHMatches2 Hc). apply IHMatches1. exact Hc.
  - apply IHMatches. exact Hc.
Qed.

(** A quantified class matches a run of the class. *)
Lemma Matches_star_class g p s c s' c' :
  Matches (Star g (Chr p)) s c s' c' ->
  c' = c /\ exists m, Forall (fun a => p a = true) m /\ s = m ++ s'.
Proof.
  intros H. remember (Star g (Chr p)) as r eqn:Hr.
  induction H; try discriminate Hr.
  - split; [reflexivity|]. exists []. split; [constructor | reflexivity].
  - inversion Hr; subst. clear IHMatches1.
    destruct (IHMatches2 eq_refl) as [-> (m & Hm & ->)].
    apply Matches_Chr_inv in H. destruct H as (a & -> & Ha & ->).
    split; [reflexivity|]. exists (a :: m). split; [constructor; assumption | reflexivity].
Qed.

Lemma Matches_plus_class p s c s' c' :
  Matches (rplus (Chr p)) s c s' c' ->
  c' = c /\ exists m, m <> [] /\ Forall (fun a => p a = true) m /\ s = m ++ s'.
Proof.
  intros H. apply Matches_Seq_inv in H. destruct H as (s1 & c1 & H1 & H2).
  apply Matches_Chr_inv in H1. destruct H1 as (a & -> & Ha & ->).
  apply Matches_star_class in H2. destruct H2 as [-> (m & Hm & ->)].
  split; [reflexivity|]. exists (a :: m).
  split; [discriminate|]. split; [constructor; assumption | reflexivity].
Qed.

(** The capture of a group around [class+] is the run it matched. *)
Lemma Matches_group_plus n p s c s' c' :
  Matches (Group n (rplus (Chr p))) s c s' c' ->
  exists m, m <> [] /\ Forall (fun a => p a = true) m /\ s = m ++ s' /\
            c' = (n, m) :: c.
Proof.
  intros H. apply Matches_Group_inv in H. destruct H as (c1 & H & ->).
  apply Matches_plus_class in H. destruct H as [-> (m & Hne & Hm & ->)].
  exists m. rewrite firstn_app_exact. auto.
Qed.

(** *** The leftmost match *)

Lemma search_inv r : forall s i j m c,
  search r s i = Some (j, m, c) ->
  exists pre s1 rest,
    s = pre ++ s1 /\ j = i + length pre /\
    rmatch r s1 [] ret = Some (rest, c) /\
    m = firstn (length s1 - length rest) s1 /\
    forall k, k < length pre -> rmatch r (skipn k s) [] ret = None.
Proof.
  induction s as [|a s IH]; intros i j m c H; cbn [search] in H.
  - destruct (rmatch r [] [] ret) as [[rest c0]|] eqn:E; [|discriminate H].
    inversion H; subst. exists [], [], rest.
    repeat split; auto. simpl. intros k Hk. lia.
  - destruct (rmatch r (a :: s) [] ret) as [[rest c0]|] eqn:E.
    + inversion H; subst. exists [], (a :: s), rest.
      repeat split; auto. simpl. intros k Hk. lia.
    + apply IH in H. destruct H as (pre & s1 & rest & -> & -> & Hm & -> & Hnone).
      exists (a :: pre), s1, rest.
      split; [reflexivity|]. split; [simpl; lia|].
      split; [exact Hm|]. split; [reflexivity|].
      intros k Hk. destruct k as [|k]; [exact E|].
      simpl. apply Hnone. simpl in Hk. lia.
Qed.

Lemma search_None r : forall s i,
  search r s i = None -> forall k, rmatch r (skipn k s) [] ret = None.
Proof.
  induction s as [|a s IH]; intros i H k; cbn [search] in H.
  - destruct (rmatch r [] [] ret) as [[rest c0]|] eqn:E; [discriminate H|].
    destruct k; exact E.
  - destruct (rmatch r (a :: s) [] ret) as [[rest c0]|] eqn:E; [discriminate H|].
    destruct k as [|k]; [exact E|]. simpl. eapply IH. exact H.
Qed.

(** There is a match as soon as the pattern matches at some index. *)
Lemma search_Some r : forall s i k,
  rmatch r (skipn k s) [] ret <> None -> search r s i <> None.
Proof.
  intros s i k H Hn. apply H. eapply search_None. exact Hn.
Qed.

(** * The patterns of the program never match the empty string *)

Lemma patterns_consume :
  consuming lineBreak = true /\ consuming typoRe = true /\
  consuming spaces = true /\ consuming segSep = true /\
  consuming segRe = true /\ consuming mapRegex = true /\
  consuming numColon = true /\ consuming nonTag = true.
Proof. repeat split; reflexivity. Qed.

Lemma split_go_nonempty r : forall s n piece, split_go r s n piece <> [].
Proof.
  induction s as [|a s IH]; intros n piece; cbn [split_go]; [discriminate|].
  destruct n as [|n]; [|apply IH].
  destruct (rmatch r (a :: s) [] ret) as [[rest c]|]; [|apply IH].
  destruct (length (a :: s) - length rest); [|discriminate].
  destruct piece; [apply IH | discriminate].
Qed.

(** A line always has a first token: [offsetToken] is never
    [undefined]. *)
Lemma tokensOf_nonempty line : tokensOf line <> [].
Proof.
  unfold tokensOf, splitRe. destruct (normalize line) as [|a s].
  - cbn. discriminate.
  - apply split_go_nonempty.
Qed.

(** The two groups of a value mapping always take part in a match. *)
Lemma mapRegex_captures s rest c :
  rmatch mapRegex s [] ret = Some (rest, c) ->
  exists value text, cap c 1 = Some value /\ cap c 2 = Some text /\
                     digits value /\ text <> [].
Proof.
  intros H. apply rmatch_sound in H. destruct H as (s' & c' & H & Hk).
  unfold ret in Hk. inversion Hk; subst s' c'; clear Hk.
  unfold mapRegex in H.
  apply Matches_Seq_inv in H. destruct H as (s1 & c1 & Hg1 & H).
  apply Matches_group_plus in Hg1. destruct Hg1 as (value & Hv0 & Hvd & _ & ->).
  apply Matches_Seq_inv in H. destruct H as (s2 & c2 & Hcolon & H).
  apply Matches_capfree in Hcolon; [subst c2 | reflexivity].
  apply Matches_Seq_inv in H. destruct H as (s3 & c3 & Hsp & H).
  apply Matches_capfree in Hsp; [subst c3 | reflexivity].
  apply Matches_Seq_inv in H. destruct H as (s4 & c4 & Hg2 & Hlook).
  apply Matches_group_plus in Hg2. destruct Hg2 as (text & Ht0 & _ & _ & ->).
  apply Matches_capfree in Hlook; [subst c | reflexivity].
  exists value, text. repeat split; auto.
Qed.

(** * Global replacement and tag synthesis *)

Lemma replace_go_skip r rep : forall s n,
  n <= length s -> replace_go r rep s n = replace_go r rep (skipn n s) 0.
Proof.
  induction s as [|a s IH]; intros n Hn.
  - destruct n; [reflexivity | simpl in Hn; lia].
  - destruct n as [|n]; [reflexivity|].
    simpl. apply IH. simpl in Hn. lia.
Qed.

(** At a match of a consuming pattern the replacement is written and
    the scan goes on behind the match. *)
Lemma replace_go_match r rep s rest c :
  consuming r = true -> rmatch r s [] ret = Some (rest, c) ->
  replace_go r rep s 0 = rep c ++ replace_go r rep rest 0.
Proof.
  intros Hc Hm. destruct (rmatch_consuming _ _ _ _ Hc Hm) as (n & Hn & Hrest).
  destruct s as [|a s]; [simpl in Hn; lia|].
  assert (Hle : n <= length s) by (cbn [length] in Hn; lia).
  cbn [replace_go]. rewrite Hm, Hn. subst rest. simpl skipn.
  rewrite replace_go_skip by exact Hle. reflexivity.
Qed.

Lemma replace_go_nomatch r rep a s :
  rmatch r (a :: s) [] ret = None ->
  replace_go r rep (a :: s) 0 = a :: replace_go r rep s 0.
Proof. intros Hm. cbn [replace_go]. rewrite Hm. reflexivity. Qed.

Lemma dropWhile_length p s : length (dropWhile p s) <= length s.
Proof.
  induction s as [|a s IH]; simpl; [lia|]. destruct (p a); simpl; lia.
Qed.

Lemma dropWhile_stops p s : stops p (dropWhile p s).
Proof.
  induction s as [|a s IH]; simpl; [exact I|].
  destruct (p a) eqn:Hp; [exact IH | exact Hp].
Qed.

Lemma dropWhile_id p s : stops p s -> dropWhile p s = s.
Proof. destruct s as [|a s]; simpl; [reflexivity|]. intros ->. reflexivity. Qed.

Lemma nonTag_match s :
  rmatch nonTag s [] ret =
  match s with
  | a :: s' =>
      if is_AZ09 a then None
      else Some (dropWhile (fun c => negb (is_AZ09 c)) s', [])
  | [] => None
  end.
Proof.
  unfold nonTag. rewrite rmatch_plus. destruct s as [|a s']; [reflexivity|].
  destruct (is_AZ09 a); [reflexivity|]. cbn [negb]. apply greedy_run_ret.
Qed.

Lemma collapseRuns_skip s :
  collapseRuns s true = collapseRuns (dropWhile (fun c => negb (is_AZ09 c)) s) false.
Proof.
  induction s as [|a s IH]; [reflexivity|].
  simpl. destruct (is_AZ09 a) eqn:Ha; simpl.
  - rewrite Ha. reflexivity.
  - exact IH.
Qed.

(** The replacement of the source is the collapse of the
    specification. *)
Lemma replaceAll_nonTag s :
  replaceAll nonTag (fun _ => lit "_") s = collapseRuns s false.
Proof.
  unfold replaceAll.
  remember (length s) as n eqn:Hn. revert s Hn.
  induction n as [n IH] using lt_wf_ind. intros s Hn.
  destruct s as [|a s'].
  - reflexivity.
  - destruct (is_AZ09 a) eqn:Ha.
    + rewrite replace_go_nomatch by (rewrite nonTag_match, Ha; reflexivity).
      simpl. rewrite Ha. f_equal.
      apply (IH (length s')); [subst n; simpl; lia | reflexivity].
    + rewrite (@replace_go_match nonTag (fun _ => lit "_") (a :: s')
                 (dropWhile (fun c => negb (is_AZ09 c)) s') [])
        by (try reflexivity; rewrite nonTag_match, Ha; reflexivity).
      simpl. rewrite Ha. change (lit "_") with ["_"%char]. simpl. f_equal.
      rewrite collapseRuns_skip.
      apply (IH (length (dropWhile (fun c => negb (is_AZ09 c)) s')));
        [|reflexivity].
      subst n. simpl. pose proof (dropWhile_length (fun c => negb (is_AZ09 c)) s'). lia.
Qed.

Lemma synthTag_collapse label :
  synthTag label = collapseRuns (toUpperCase label) false.
Proof. unfold synthTag. apply replaceAll_nonTag. Qed.

Lemma collapseRuns_tagChar : forall s b, Forall tagChar (collapseRuns s b).
Proof.
  induction s as [|a s IH]; intros b; simpl; [constructor|].
  destruct (is_AZ09 a) eqn:Ha.
  - constructor; [left; exact Ha | apply IH].
  - destruct b; [apply IH|]. constructor; [right; reflexivity | apply IH].
Qed.


Lemma in_range_spec lo hi c :
  in_range lo hi c = true <-> lo <= nat_of_ascii c <= hi.
Proof.
  unfold in_range. rewrite andb_true_iff, !Nat.leb_le. tauto.
Qed.



(** * The segment pattern *)


Lemma rmatch_group_plus_max n p run rest c k x :
  run <> [] -> Forall (fun a => p a = true) run -> stops p rest ->
  k rest ((n, run) :: c) = Some x ->
  rmatch (Group n (rplus (Chr p))) (run ++ rest) c k = Some x.
Proof.
  intros Hne Hrun Hstop Hk. cbn [rmatch]. 
  change (rmatch (Chr p) ?s ?c0 (fun s1 c1 => rmatch (Star true (Chr p)) s1 c1 ?k0))
    with (rmatch (rplus (Chr p)) s c0 k0).
  rewrite rmatch_plus.
  destruct run as [|a run']; [contradiction|].
  inversion Hrun as [|a0 l Ha Hrun']; subst.
  cbn [app]. rewrite Ha.
  apply greedy_run_max; [exact Hrun' | exact Hstop |].
  change (a :: run' ++ rest) with ((a :: run') ++ rest).
  rewrite firstn_app_exact. exact Hk.
Qed.





Lemma digit_not_space a : is_digit a = true -> is_space a = false.
Proof.
  intros H. apply in_range_spec in H. unfold is_space.
  apply orb_false_iff. split.
  - apply not_true_is_false. intros H1. apply in_range_spec in H1. lia.
  - apply Nat.eqb_neq. lia.
Qed.

Lemma upper_char_nat a :
  nat_of_ascii a < 97 -> upper_char a = a.
Proof.
  intros H. unfold upper_char. destruct (is_lower a) eqn:Hl; [|reflexivity].
  apply in_range_spec in Hl. lia.
Qed.



Lemma rmatch_Seq_eq r1 r2 s c k :
  rmatch (Seq r1 r2) s c k = rmatch r1 s c (fun s1 c1 => rmatch r2 s1 c1 k).
Proof. reflexivity. Qed.

Lemma rmatch_chr_cons a x s c k :
  rmatch (chr a) (x :: s) c k = if Ascii.eqb x a then k s c else None.
Proof. reflexivity. Qed.

Lemma rmatch_ropt r s c k :
  rmatch (ropt r) s c k =
  match rmatch r s c k with Some x => Some x | None => k s c end.
Proof. reflexivity. Qed.


(** * Splitting and the scan for value mappings *)

(** The first piece of a split ends where the separator first
    matches. *)
Lemma split_go_hd r rest c s1 : forall pre piece,
  consuming r = true ->
  (forall k, k < length pre -> rmatch r (skipn k (pre ++ s1)) [] ret = None) ->
  rmatch r s1 [] ret = Some (rest, c) ->
  hd [] (split_go r (pre ++ s1) 0 piece) = rev piece ++ pre.
Proof.
  induction pre as [|a pre IH]; intros piece Hc Hnone Hm.
  - destruct (rmatch_consuming _ _ _ _ Hc Hm) as (n & Hn & _).
    destruct s1 as [|a s1]; [simpl in Hn; lia|].
    cbn [app split_go]. rewrite Hm, Hn. cbn [hd]. symmetry. apply app_nil_r.
  - cbn [app split_go].
    pose proof (Hnone 0 ltac:(simpl; lia)) as H0. cbn [skipn app] in H0.
    rewrite H0.
    rewrite (IH (a :: piece) Hc); [simpl; rewrite <- app_assoc; reflexivity | | exact Hm].
    intros k Hk. apply (Hnone (S k)). simpl. lia.
Qed.

Lemma splitRe_cons r s : s <> [] -> splitRe r s = split_go r s 0 [].
Proof. destruct s; [contradiction | reflexivity]. Qed.

Lemma splitRe_hd r s i m c :
  consuming r = true -> search r s 0 = Some (i, m, c) ->
  hd [] (splitRe r s) = firstn i s.
Proof.
  intros Hc H. apply search_inv in H.
  destruct H as (pre & s1 & rest & -> & -> & Hm & _ & Hnone).
  simpl. rewrite firstn_app, firstn_all, Nat.sub_diag. simpl. rewrite app_nil_r.
  destruct (rmatch_consuming _ _ _ _ Hc Hm) as (n & Hn & _).
  rewrite splitRe_cons.
  - apply (split_go_hd _ _ _ _ pre [] Hc Hnone Hm).
  - intros E. apply app_eq_nil in E. destruct E as [_ ->]. simpl in Hn. lia.
Qed.

(** A match found by the scan is a match of the pattern somewhere. *)
Lemma execAll_nonempty r : forall s n,
  execAll r s n <> [] -> exists k, rmatch r (skipn k s) [] ret <> None.
Proof.
  induction s as [|a s IH]; intros n H; cbn [execAll] in H.
  - contradiction.
  - destruct n as [|n].
    + destruct (rmatch r (a :: s) [] ret) as [[rest c]|] eqn:E.
      * exists 0. simpl. congruence.
      * apply IH in H. destruct H as [k Hk]. exists (S k). exact Hk.
    + apply IH in H. destruct H as [k Hk]. exists (S k). exact Hk.
Qed.

(** Where a value mapping matches, a number and a colon stand. *)
Lemma mapRegex_numColon s :
  rmatch mapRegex s [] ret <> None -> rmatch numColon s [] ret <> None.
Proof.
  intros H. destruct (rmatch mapRegex s [] ret) as [[rest c]|] eqn:E; [|congruence].
  clear H. apply rmatch_sound in E. destruct E as (s' & c' & H & _).
  unfold mapRegex in H.
  apply Matches_Seq_inv in H. destruct H as (s1 & c1 & Hg & H).
  apply Matches_group_plus in Hg. destruct Hg as (m & Hm0 & Hmd & -> & ->).
  apply Matches_Seq_inv in H. destruct H as (s2 & c2 & Hcolon & _).
  apply Matches_Chr_inv in Hcolon. destruct Hcolon as (a & -> & Ha & _).
  apply Ascii.eqb_eq in Ha. subst a.
  unfold numColon, digit. rewrite rmatch_Seq_eq, rmatch_plus.
  destruct m as [|d m']; [contradiction|].
  inversion Hmd as [|d0 l Hd Hm']; subst.
  cbn [app]. rewrite Hd.
  rewrite (greedy_run_max is_digit _ m' (":"%char :: s2) [] (s2, []));
    [discriminate | exact Hm' | reflexivity | reflexivity].
Qed.

Lemma mappingsOf_numColon restText :
  mappingsOf restText <> [] -> search numColon restText 0 <> None.
Proof.
  unfold mappingsOf. intros H.
  assert (He : execAll mapRegex restText 0 <> []).
  { intros E. rewrite E in H. apply H. reflexivity. }
  apply execAll_nonempty in He. destruct He as [k Hk].
  apply (search_Some numColon restText 0 k). apply mapRegex_numColon. exact Hk.
Qed.

(** The scan for value mappings never meets an empty match. *)
Lemma mapRegex_consumes s rest c :
  rmatch mapRegex s [] ret = Some (rest, c) ->
  exists n, length s - length rest = S n.
Proof.
  intros H. destruct (@rmatch_consuming mapRegex s rest c eq_refl H) as (n & Hn & _).
  exists n. exact Hn.
Qed.

(** * Properties of the merge *)

Lemma strictEq_NaN_r a : strictEq a NaN = false.
Proof. destruct a; reflexivity. Qed.

Lemma findParam_found ps offset_ p :
  findParam ps offset_ = Ok (Some p) -> In p ps /\ offsetMatches p offset_.
Proof.
  induction ps as [|q ps IH]; simpl; intros H; [discriminate H|].
  on_ok (getProp q (lit "offset")) as o Ho in H.
  on_ok (ToString o) as so Hso in H.
  destruct (strictEq (parseInt so) (parseInt offset_)) eqn:Heq.
  - inversion H; subst. split; [left; reflexivity|].
    exists o, so. auto.
  - apply IH in H. destruct H as [Hin Hm]. split; [right|]; assumption.
Qed.

Lemma parseInt_undefined : parseInt (lit "undefined") = NaN.
Proof. vm_compute. reflexivity. Qed.

(** Only an object has an offset that reads as an integer. *)
Lemma offsetMatches_object p offset_ :
  offsetMatches p offset_ -> exists fields, p = JObj fields.
Proof.
  intros (o & so & Ho & Hso & Heq).
  destruct p; simpl in Ho; try discriminate Ho;
    try (inversion Ho; subst o; simpl in Hso; inversion Hso; subst so;
         rewrite parseInt_undefined in Heq; simpl in Heq; discriminate Heq).
  eexists. reflexivity.
Qed.

Lemma findParam_truthy ps offset_ p :
  findParam ps offset_ = Ok (Some p) -> truthy p = true.
Proof.
  intros H. apply findParam_found in H. destruct H as [_ H].
  apply offsetMatches_object in H. destruct H as [fields ->]. reflexivity.
Qed.

Lemma findParam_NaN ps offset_ :
  parseInt offset_ = NaN -> findParam ps offset_ <> Throw ->
  findParam ps offset_ = Ok None.
Proof.
  intros Hnan. induction ps as [|q ps IH]; simpl; [reflexivity|].
  destruct (getProp q (lit "offset")) as [o|]; cbn [bind]; [|congruence].
  destruct (ToString o) as [so|]; cbn [bind]; [|congruence].
  rewrite Hnan, strictEq_NaN_r. exact IH.
Qed.

Lemma enhanceEntry_inv parameters h r r' h' :
  enhanceEntry parameters h r = Ok (r', h') ->
  exists e ps found,
    nth_error h r = Some e /\ parameters = JArr ps /\
    findParam ps (offset e) = Ok found /\
    match found with
    | None => r' = r /\ h' = h
    | Some aiParam =>
        exists name bits_ values evt_,
          getProp aiParam (lit "name") = Ok name /\
          getProp aiParam (lit "bits") = Ok bits_ /\
          getProp aiParam (lit "values") = Ok values /\
          evtMerged values (evt e) evt_ /\
          r' = length h /\ h' = h ++ [merged e name bits_ evt_]
    end.
Proof.
  unfold enhanceEntry. intros H.
  destruct (nth_error h r) as [e|] eqn:He; [|discriminate H].
  destruct parameters as [| | | | |ps|]; try discriminate H.
  on_ok (findParam ps (offset e)) as found Hf in H.
  exists e, ps, found.
  split; [reflexivity|]. split; [reflexivity|]. split; [exact Hf|].
  destruct found as [aiParam|].
  - rewrite (findParam_truthy _ _ _ Hf) in H. cbn [negb] in H.
    on_ok (getProp aiParam (lit "values")) as values Hv in H.
    destruct (truthy values) eqn:Ht.
    + destruct values as [| | | | |vs|]; try discriminate H.
      on_ok (mapM valueClause vs) as cs Hcs in H.
      on_ok (getProp aiParam (lit "name")) as name Hn in H.
      on_ok (getProp aiParam (lit "bits")) as bits_ Hb in H.
      inversion H; subst r' h'; clear H.
      exists name, bits_, (JArr vs), (join (lit ":") cs).
      split; [reflexivity|]. split; [reflexivity|]. split; [reflexivity|].
      split; [|split; reflexivity].
      unfold evtMerged. rewrite Ht. exists vs, cs. auto.
    + cbn [bind] in H.
      on_ok (getProp aiParam (lit "name")) as name Hn in H.
      on_ok (getProp aiParam (lit "bits")) as bits_ Hb in H.
      inversion H; subst r' h'; clear H.
      exists name, bits_, values, (evt e).
      split; [reflexivity|]. split; [reflexivity|]. split; [reflexivity|].
      split; [|split; reflexivity].
      unfold evtMerged. rewrite Ht. reflexivity.
  - inversion H; subst. split; reflexivity.
Qed.

Lemma nth_error_prefix (h m : heap) r e :
  nth_error h r = Some e -> nth_error (h ++ m) r = Some e.
Proof.
  intros H. rewrite nth_error_app1; [exact H|].
  apply nth_error_Some. congruence.
Qed.

Lemma enhanceEntry_grows parameters h r r' h' :
  enhanceEntry parameters h r = Ok (r', h') -> exists t, h' = h ++ t.
Proof.
  intros H. apply enhanceEntry_inv in H.
  destruct H as (e & ps & found & _ & _ & _ & Hcase).
  destruct found as [aiParam|].
  - destruct Hcase as (name & bits_ & values & evt_ & _ & _ & _ & _ & _ & ->).
    eexists. reflexivity.
  - destruct Hcase as [_ ->]. exists []. symmetry. apply app_nil_r.
Qed.

Lemma enhanceEntries_grows parameters : forall entries h entries' h',
  enhanceEntries parameters h entries = Ok (entries', h') ->
  exists t, h' = h ++ t.
Proof.
  induction entries as [|r rest IH]; intros h entries' h' H; simpl in H.
  - inversion H; subst. exists []. symmetry. apply app_nil_r.
  - on_ok2 (enhanceEntry parameters h r) as r1 h1 E1 in H.
    destruct (enhanceEntries parameters h1 rest) as [[rest' h2]|] eqn:E2;
      cbn [bind snd fst] in H; [|discriminate H].
    inversion H; subst; clear H.
    apply enhanceEntry_grows in E1. destruct E1 as [t1 ->].
    apply IH in E2. destruct E2 as [t2 ->].
    exists (t1 ++ t2). symmetry. apply app_assoc.
Qed.

(** The merge of a list of records, read against the store [h0] it
    started from: every record meets [mergeRel], and the store has only
    grown. *)
Lemma enhanceEntries_spec ps h0 : forall entries m entries' h',
  enhanceEntries (JArr ps) (h0 ++ m) entries = Ok (entries', h') ->
  Forall2 (mergeRel ps h0 h') entries entries'.
Proof.
  induction entries as [|r rest IH]; intros m entries' h' H; simpl in H.
  - inversion H; subst. constructor.
  - on_ok2 (enhanceEntry (JArr ps) (h0 ++ m) r) as r1 h1 E1 in H.
    destruct (enhanceEntries (JArr ps) h1 rest) as [[rest' h2]|] eqn:E2;
      cbn [bind snd fst] in H; [|discriminate H].
    inversion H; subst; clear H.
    destruct (enhanceEntry_grows _ _ _ _ _ E1) as [t1 Ht1].
    destruct (enhanceEntries_grows _ _ _ _ _ E2) as [t2 Ht2].
    constructor.
    + intros e He.
      apply enhanceEntry_inv in E1.
      destruct E1 as (e1 & ps1 & found & He1 & Hps & Hf & Hcase).
      inversion Hps; subst ps1; clear Hps.
      rewrite (nth_error_prefix _ m _ _ He) in He1.
      inversion He1; subst e1; clear He1. rewrite Hf.
      destruct found as [aiParam|].
      * destruct Hcase as (name & bits_ & values & evt_ & Hn & Hb & Hv & Hevt & -> & ->).
        split; [rewrite length_app; lia|].
        exists name, bits_, values, evt_. repeat split; try assumption.
        rewrite Ht2, <- app_assoc. simpl.
        rewrite nth_error_app2 by lia. rewrite Nat.sub_diag. reflexivity.
      * destruct Hcase as [-> _]. reflexivity.
    + subst h1. rewrite <- app_assoc in E2. eapply IH. exact E2.
Qed.


(** [find] is called on [parameters] for the first record: when that is
    no array, a merge that returns had no record to look at. *)
Lemma enhanceEntries_not_array parameters h entries entries' h' :
  (forall ps, parameters <> JArr ps) ->
  enhanceEntries parameters h entries = Ok (entries', h') ->
  entries = [] /\ entries' = [].
Proof.
  intros Hna H. destruct entries as [|r rest]; simpl in H.
  - inversion H; subst. split; reflexivity.
  - apply False_ind.
    on_ok2 (enhanceEntry parameters h r) as r1 h1 E1 in H.
    apply enhanceEntry_inv in E1.
    destruct E1 as (e & ps & found & _ & Hps & _). exact (Hna ps Hps).
Qed.

Lemma Forall2_same {A : Type} (R : A -> A -> Prop) (l : list A) :
  (forall x, R x x) -> Forall2 R l l.
Proof. intros HR. induction l; constructor; auto. Qed.

(** A payload without an opening brace holds no match of the pattern. *)
Lemma search_jsonObjRe_no_brace (s : str) (i : nat) :
  ~ In "{"%char s -> search jsonObjRe s i = None.
Proof.
  revert i. induction s as [|a s IH]; intros i Hno.
  - reflexivity.
  - cbn [search]. 
    assert (Ha : Ascii.eqb a "{" = false).
    { apply Ascii.eqb_neq. intros ->. apply Hno. left. reflexivity. }
    unfold jsonObjRe at 1. cbn [rmatch chr]. rewrite Ha.
    apply IH. intros Hin. apply Hno. right. exact Hin.
Qed.

(** * Properties of the parser *)

(** What a match of the segment pattern captures: the start number, the
    end number when there is one, and the description. *)
Lemma segRe_captures s rest c :
  rmatch segRe s [] ret = Some (rest, c) ->
  exists start (end_ : option str) desc,
    c = (3, desc) :: match end_ with Some e => [(2, e)] | None => [] end
          ++ [(1, start)] /\
    start <> [] /\ Forall (fun a => is_digit a = true) start /\
    desc <> [] /\
    forall e, end_ = Some e -> e <> [] /\ Forall (fun a => is_digit a = true) e.
Proof.
  intros H. apply rmatch_sound in H. destruct H as (s' & c' & H & Hk).
  unfold ret in Hk. inversion Hk; subst s' c'; clear Hk.
  unfold segRe in H.
  apply Matches_Seq_inv in H. destruct H as (s1 & c1 & Hw & H).
  apply Matches_capfree in Hw; [subst c1 | reflexivity].
  apply Matches_Seq_inv in H. destruct H as (s2 & c2 & Hsp & H).
  apply Matches_capfree in Hsp; [subst c2 | reflexivity].
  apply Matches_Seq_inv in H. destruct H as (s3 & c3 & Hg1 & H).
  apply Matches_group_plus in Hg1. destruct Hg1 as (start & Hs0 & Hsd & _ & ->).
  apply Matches_Seq_inv in H. destruct H as (s4 & c4 & Hopt & H).
  apply Matches_Seq_inv in H. destruct H as (s5 & c5 & Hcolon & H).
  apply Matches_capfree in Hcolon; [subst c5 | reflexivity].
  apply Matches_Seq_inv in H. destruct H as (s6 & c6 & Hsp2 & H).
  apply Matches_capfree in Hsp2; [subst c6 | reflexivity].
  apply Matches_group_plus in H. destruct H as (desc & Hd0 & _ & _ & ->).
  apply Matches_Alt_inv in Hopt. destruct Hopt as [Hopt | Hopt].
  - apply Matches_Seq_inv in Hopt. destruct Hopt as (s7 & c7 & Hdash & Hg2).
    apply Matches_capfree in Hdash; [subst c7 | reflexivity].
    apply Matches_group_plus in Hg2. destruct Hg2 as (e & He0 & Hed & _ & ->).
    exists start, (Some e), desc. repeat split; auto.
    + intros ->. apply He0. inversion H; subst. reflexivity.
    + inversion H; subst. exact Hed.
  - apply Matches_Eps_inv in Hopt. destruct Hopt as [_ ->].
    exists start, None, desc. repeat split; auto; discriminate.
Qed.

Lemma segMatch_inv seg start end_ desc :
  segMatch seg = Some (start, end_, desc) ->
  start <> [] /\ Forall (fun a => is_digit a = true) start /\ desc <> [] /\
  forall e, end_ = Some e -> e <> [] /\ Forall (fun a => is_digit a = true) e.
Proof.
  unfold segMatch. intros H.
  destruct (search segRe seg 0) as [[[j m] c]|] eqn:E; [|discriminate H].
  apply search_inv in E. destruct E as (pre & s1 & rest & _ & _ & Hm & _ & _).
  apply segRe_captures in Hm.
  destruct Hm as (start' & end' & desc' & -> & Hs & Hsd & Hd & He).
  destruct end' as [e|]; cbn in H; inversion H; subst; auto.
Qed.

Lemma bitsRange_spec start end_ :
  (forall e, end_ = Some e -> e <> []) ->
  bitsRange start end_ =
  match end_ with Some e => start ++ lit "-" ++ e | None => start end.
Proof.
  intros H. destruct end_ as [e|]; [|reflexivity].
  unfold bitsRange. destruct e as [|a e]; [|reflexivity].
  exfalso. exact (H [] eq_refl eq_refl).
Qed.


Lemma bitEntries_In offset_ type_ groupName e : forall segments i,
  In e (bitEntries offset_ type_ groupName segments i) ->
  exists seg k m, In seg segments /\ segMatch seg = Some m /\
                  e = bitEntry offset_ type_ groupName k m.
Proof.
  induction segments as [|seg0 rest IH]; intros i Hin; cbn [bitEntries] in Hin.
  - destruct Hin.
  - destruct (segMatch seg0) as [m0|] eqn:E0.
    + destruct Hin as [<- | Hin].
      * exists seg0, i, m0. split; [left; reflexivity | auto].
      * apply IH in Hin. destruct Hin as (seg & k & m & Hs & Hm & ->).
        exists seg, k, m. split; [right; exact Hs | auto].
    + apply IH in Hin. destruct Hin as (seg & k & m & Hs & Hm & ->).
      exists seg, k, m. split; [right; exact Hs | auto].
Qed.

(** * The line builder *)

Lemma mapM_Forall2 {A B : Type} (f : A -> result B) : forall l ys,
  mapM f l = Ok ys <-> Forall2 (fun x y => f x = Ok y) l ys.
Proof.
  induction l as [|x l IH]; intros ys; simpl.
  - split; intros H.
    + inversion H; subst. constructor.
    + inversion H; subst. reflexivity.
  - split; intros H.
    + on_ok (f x) as y Hy in H.
      destruct (mapM f l) as [ys'|] eqn:Hys; cbn [bind] in H; [|discriminate H].
      inversion H; subst. constructor; [exact Hy|]. apply IH. reflexivity.
    + inversion H as [|x0 y l0 ys' Hy Hrest]; subst.
      rewrite Hy. cbn [bind]. apply IH in Hrest. rewrite Hrest. reflexivity.
Qed.

Lemma pointLine_wire e line : pointLine e = Ok line <-> wireLineOf e line.
Proof.
  unfold pointLine, wireLineOf, wireLine. split.
  - intros H.
    on_ok (ToString (type e)) as ty Hty in H.
    on_ok (ToString (label e)) as lb Hlb in H.
    destruct (truthy (bits e)) eqn:Htb.
    + on_ok (ToString (bits e)) as bs Hbs in H.
      exists ty, lb, bs. repeat split; try reflexivity.
      inversion H; subst; clear H.
      destruct (nonempty (bnd e)), (nonempty (evt e));
        repeat (rewrite <- ?app_assoc; cbn [app]); reflexivity.
    + cbn [bind] in H. exists ty, lb, []. repeat split; try reflexivity.
      inversion H; subst; clear H.
      destruct (nonempty (bnd e)), (nonempty (evt e));
        repeat (rewrite <- ?app_assoc; cbn [app]); reflexivity.
  - intros (ty & lb & bs & Hty & Hlb & Hbs & ->).
    rewrite Hty, Hlb. cbn [bind].
    destruct (truthy (bits e)).
    + rewrite Hbs. cbn [bind].
      destruct (nonempty (bnd e)), (nonempty (evt e));
        repeat (rewrite <- ?app_assoc; cbn [app]); reflexivity.
    + subst bs. cbn [bind].
      destruct (nonempty (bnd e)), (nonempty (evt e));
        repeat (rewrite <- ?app_assoc; cbn [app]); reflexivity.
Qed.

(** * The records of a line *)

Lemma parseLine_value groupName line :
  isBitField line = false ->
  parseLine groupName line =
  [ {| offset := offsetOf line;
       type := typeOf line;
       id := offsetOf line;
       tag := synthTag (paramNameOf (restTextOf line));
       label := JStr (paramNameOf (restTextOf line));
       group := groupName;
       bits := JStr [];
       bnd := [];
       evt := evtOf (restTextOf line) |} ].
Proof. unfold isBitField, parseLine. intros ->. reflexivity. Qed.

Lemma parseRawDetails_lines raw :
  parseRawDetails raw =
  flat_map (parseLine (hd [] (linesOf raw))) (detailLinesOf raw).
Proof.
  unfold parseRawDetails, detailLinesOf.
  destruct (linesOf raw) as [|g [|l ls]]; reflexivity.
Qed.

(** *** The sample inputs, evaluated *)



Lemma parse_rawConfig : parseRawDetails rawConfig = [speedEntry].
Proof. vm_compute. reflexivity. Qed.

(** * Lines and tokens *)

Lemma dropWhile_incl p a : forall s, In a (dropWhile p s) -> In a s.
Proof.
  induction s as [|b s IH]; simpl; [tauto|].
  destruct (p b); [|tauto]. intros H. right. apply IH. exact H.
Qed.

Lemma trim_incl a s : In a (trim s) -> In a s.
Proof.
  unfold trim. intros H. apply in_rev in H. apply dropWhile_incl in H.
  apply in_rev in H. apply dropWhile_incl in H. exact H.
Qed.

Lemma dropWhile_app_last p x : forall l,
  p x = false -> dropWhile p (l ++ [x]) = dropWhile p l ++ [x].
Proof.
  intros l Hx. induction l as [|b l IH]; simpl.
  - rewrite Hx. reflexivity.
  - destruct (p b); [exact IH | reflexivity].
Qed.

(** [trim] leaves no white space at either end. *)
Lemma trim_stops_r s : stops is_space (rev (trim s)).
Proof. unfold trim. rewrite rev_involutive. apply dropWhile_stops. Qed.

Lemma trim_stops_l s : stops is_space (trim s).
Proof.
  unfold trim. pose proof (dropWhile_stops is_space s) as Hd.
  destruct (dropWhile is_space s) as [|x t]; [exact I|].
  simpl in Hd. cbn [rev]. rewrite (dropWhile_app_last _ _ _ Hd).
  rewrite rev_app_distr. simpl. exact Hd.
Qed.

(** A string with no white space at its ends is its own [trim]. *)
Lemma trim_id s : stops is_space s -> stops is_space (rev s) -> trim s = s.
Proof.
  intros Hl Hr. unfold trim. rewrite (dropWhile_id _ _ Hl), (dropWhile_id _ _ Hr).
  apply rev_involutive.
Qed.

Lemma trim_idem s : trim (trim s) = trim s.
Proof. apply trim_id; [apply trim_stops_l | apply trim_stops_r]. Qed.

(** Where the separator matches nowhere, the split is the whole
    string. *)
Lemma split_go_no_match r : forall s piece,
  (forall k, rmatch r (skipn k s) [] ret = None) ->
  split_go r s 0 piece = [rev piece ++ s].
Proof.
  induction s as [|a s IH]; intros piece H.
  - simpl. rewrite app_nil_r. reflexivity.
  - cbn [split_go]. pose proof (H 0) as H0. cbn [skipn] in H0. rewrite H0, IH.
    + simpl. rewrite <- app_assoc. reflexivity.
    + intros k. apply (H (S k)).
Qed.

(** The code units of the pieces of a split are code units of the
    string at which the separator does not match. *)
Lemma split_go_pieces r (P : ascii -> Prop) :
  consuming r = true ->
  (forall a s, rmatch r (a :: s) [] ret = None -> P a) ->
  forall s n piece,
    Forall P piece -> Forall (Forall P) (split_go r s n piece).
Proof.
  intros Hc HP. induction s as [|a s IH]; intros n piece Hp.
  - simpl. constructor; [|constructor]. apply Forall_rev. exact Hp.
  - cbn [split_go]. destruct n as [|n]; [|apply IH; exact Hp].
    destruct (rmatch r (a :: s) [] ret) as [[rest c]|] eqn:E.
    + destruct (rmatch_consuming _ _ _ _ Hc E) as (m & -> & _).
      constructor; [apply Forall_rev; exact Hp | apply IH; constructor].
    + apply IH. constructor; [apply (HP _ _ E) | exact Hp].
Qed.

Lemma split_go_incl r a : forall s n piece p,
  In p (split_go r s n piece) -> In a p -> In a piece \/ In a s.
Proof.
  induction s as [|b s IH]; intros n piece p Hp Ha.
  - simpl in Hp. destruct Hp as [<- | []]. left. apply in_rev. exact Ha.
  - cbn [split_go] in Hp. destruct n as [|n].
    + destruct (rmatch r (b :: s) [] ret) as [[rest c]|].
      * destruct (length (b :: s) - length rest).
        -- destruct piece as [|x piece].
           ++ destruct (IH _ _ _ Hp Ha) as [[<- | []] | H]; right; simpl; auto.
           ++ destruct Hp as [<- | Hp]; [left; apply in_rev; exact Ha|].
              destruct (IH _ _ _ Hp Ha) as [[<- | []] | H]; right; simpl; auto.
        -- destruct Hp as [<- | Hp]; [left; apply in_rev; exact Ha|].
           destruct (IH _ _ _ Hp Ha) as [[] | H]. right. simpl. auto.
      * destruct (IH _ _ _ Hp Ha) as [[<- | H] | H]; simpl; auto.
    + destruct (IH _ _ _ Hp Ha) as [H | H]; simpl; auto.
Qed.

Lemma splitRe_incl r a s p : In p (splitRe r s) -> In a p -> In a s.
Proof.
  unfold splitRe. destruct s as [|b s].
  - destruct (rmatch r [] [] ret); simpl; [tauto|].
    intros [<- | []] H. exact H.
  - intros Hp Ha. destruct (split_go_incl _ _ _ _ _ _ Hp Ha) as [[] | H]. exact H.
Qed.

Lemma splitRe_pieces r (P : ascii -> Prop) s :
  consuming r = true ->
  (forall a s, rmatch r (a :: s) [] ret = None -> P a) ->
  Forall (Forall P) (splitRe r s).
Proof.
  intros Hc HP. unfold splitRe. destruct s as [|b s].
  - destruct (rmatch r [] [] ret); repeat constructor.
  - apply split_go_pieces; auto.
Qed.

(** The first piece of a split begins with the current piece. *)
Lemma split_go_hd_piece r : forall s piece,
  piece <> [] -> exists rest, hd [] (split_go r s 0 piece) = rev piece ++ rest.
Proof.
  induction s as [|a s IH]; intros piece Hp.
  - exists []. simpl. rewrite app_nil_r. reflexivity.
  - cbn [split_go]. destruct (rmatch r (a :: s) [] ret) as [[rest c]|].
    + destruct (length (a :: s) - length rest).
      * destruct piece; [contradiction|]. exists []. simpl. rewrite app_nil_r. reflexivity.
      * exists []. simpl. rewrite app_nil_r. reflexivity.
    + destruct (IH (a :: piece)) as (rest & ->); [discriminate|].
      exists (a :: rest). simpl. rewrite <- app_assoc. reflexivity.
Qed.

(** The line separator matches at a line feed, and only where the
    input holds one. *)
Lemma lineBreak_needs_LF s c k : ~ In LF s -> rmatch lineBreak s c k = None.
Proof.
  intros H. unfold lineBreak. rewrite rmatch_Seq_eq, rmatch_ropt.
  assert (Hh : forall t, ~ In LF t -> rmatch (chr LF) t c k = None).
  { intros [|x t] Ht; [reflexivity|]. rewrite rmatch_chr_cons.
    destruct (Ascii.eqb_spec x LF) as [-> | _]; [|reflexivity].
    exfalso. apply Ht. left. reflexivity. }
  rewrite (Hh s H). destruct s as [|a s]; [reflexivity|].
  rewrite rmatch_chr_cons. destruct (Ascii.eqb a CR); [|reflexivity].
  rewrite Hh; [reflexivity|]. intros Hin. apply H. right. exact Hin.
Qed.

Lemma lineBreak_at_LF a s : rmatch lineBreak (a :: s) [] ret = None -> a <> LF.
Proof.
  intros H ->. unfold lineBreak in H. rewrite rmatch_Seq_eq, rmatch_ropt in H.
  rewrite rmatch_chr_cons in H. change (Ascii.eqb LF CR) with false in H.
  cbv beta iota in H. rewrite rmatch_chr_cons in H.
  rewrite Ascii.eqb_refl in H. discriminate H.
Qed.

Lemma spaces_at_space a s : rmatch spaces (a :: s) [] ret = None -> is_space a = false.
Proof.
  unfold spaces, space. rewrite rmatch_plus. destruct (is_space a); [|reflexivity].
  rewrite greedy_run_ret. discriminate.
Qed.

Lemma skipn_incl {A : Type} (a : A) : forall k l, In a (skipn k l) -> In a l.
Proof.
  induction k as [|k IH]; intros [|b l]; simpl; auto.
Qed.

(** An input without a line feed has one line at most. *)
Lemma linesOf_single raw : ~ In LF raw -> length (linesOf raw) <= 1.
Proof.
  intros H. unfold linesOf.
  assert (Ht : ~ In LF (trim raw)) by (intros Hin; apply H, (trim_incl _ _ Hin)).
  assert (Hs : forall t, ~ In LF t -> splitRe lineBreak t = [t]).
  { intros [|b t] Hno; [reflexivity|].
    change (splitRe lineBreak (b :: t)) with (split_go lineBreak (b :: t) 0 []).
    rewrite split_go_no_match; [reflexivity|].
    intros k. apply lineBreak_needs_LF. intros Hin. apply Hno.
    apply (skipn_incl _ _ _ Hin). }
  rewrite (Hs _ Ht). cbn [map filter]. destruct (nonempty (trim (trim raw))); simpl; lia.
Qed.

(** * The records of the parser *)

Lemma linesOf_In raw l :
  In l (linesOf raw) ->
  l <> [] /\ stops is_space l /\ stops is_space (rev l) /\ ~ In LF l.
Proof.
  unfold linesOf. intros H. apply filter_In in H. destruct H as (H & Hne).
  apply in_map_iff in H. destruct H as (p & <- & Hp).
  split; [destruct (trim p); [discriminate Hne | discriminate]|].
  split; [apply trim_stops_l|]. split; [apply trim_stops_r|].
  intros Hin. apply trim_incl in Hin.
  pose proof (splitRe_pieces lineBreak (fun a => a <> LF) (trim raw)
                eq_refl lineBreak_at_LF) as Hall.
  rewrite Forall_forall in Hall. specialize (Hall p Hp).
  rewrite Forall_forall in Hall. apply (Hall LF Hin). reflexivity.
Qed.

Lemma parseRawDetails_In raw e :
  In e (parseRawDetails raw) ->
  2 <= length (linesOf raw) /\
  exists line, In line (detailLinesOf raw) /\
               In e (parseLine (hd [] (linesOf raw)) line).
Proof.
  unfold parseRawDetails, detailLinesOf.
  destruct (length (linesOf raw) <? 2) eqn:E; [intros []|].
  apply Nat.ltb_ge in E. intros H. split; [exact E|].
  apply in_flat_map in H. exact H.
Qed.

Lemma detailLinesOf_In raw line : In line (detailLinesOf raw) -> In line (linesOf raw).
Proof. unfold detailLinesOf. apply skipn_incl. Qed.

(** What the two branches of a line write into a record. *)
Lemma parseLine_In g line e :
  In e (parseLine g line) ->
  offset e = offsetOf line /\ id e = offsetOf line /\ type e = typeOf line /\
  group e = g /\ bnd e = [] /\
  ((exists seg k start end_ desc,
      In seg (segmentsOf (restTextOf line)) /\
      segMatch seg = Some (start, end_, desc) /\
      tag e = synthTag desc ++ lit "_" ++ dec (k + 1) /\
      label e = JStr (trim desc) /\
      bits e = JStr (bitsRange start end_) /\ evt e = []) \/
   (tag e = synthTag (paramNameOf (restTextOf line)) /\
    label e = JStr (paramNameOf (restTextOf line)) /\
    bits e = JStr [] /\ evt e = evtOf (restTextOf line))).
Proof.
  unfold parseLine. destruct (test bitDetect (restTextOf line)).
  - intros H. apply bitEntries_In in H.
    destruct H as (seg & k & [[start end_] desc] & Hseg & Hm & ->).
    cbn. repeat (split; [reflexivity|]). left.
    exists seg, k, start, end_, desc. repeat split; auto.
  - intros [<- | []]. cbn. repeat (split; [reflexivity|]). right.
    repeat split.
Qed.

Lemma paramNameOf_trimmed restText : trim (paramNameOf restText) = paramNameOf restText.
Proof. unfold paramNameOf. destruct (mappingsOf restText); apply trim_idem. Qed.

Lemma typeOf_shape line :
  typeOf line = JUndefined \/
  exists t, typeOf line = JStr t /\ t <> lit "Integer".
Proof.
  unfold typeOf. destruct (nth_error (tokensOf line) 1) as [t|]; [|left; reflexivity].
  right. unfold str_eqb. destruct (list_eq_dec ascii_dec t (lit "Integer")) as [_ | Hn].
  - exists (lit "DI"). split; [reflexivity | discriminate].
  - exists t. split; [reflexivity | exact Hn].
Qed.

(** The typo rewrite keeps a line from beginning with white space. *)
Lemma normalize_head x t :
  is_space x = false ->
  exists y t', normalize (x :: t) = y :: t' /\ is_space y = false.
Proof.
  intros Hx. unfold normalize, replaceAll.
  destruct (rmatch typoRe (x :: t) [] ret) as [[rest c]|] eqn:E.
  - rewrite (replace_go_match typoRe _ _ _ _ eq_refl E).
    exists "B"%char. eexists. split; [reflexivity | reflexivity].
  - rewrite (replace_go_nomatch _ _ _ _ E). exists x. eexists. split; [reflexivity | exact Hx].
Qed.

(** The first token of a line that does not begin with white space. *)
Lemma offsetOf_token line :
  line <> [] -> stops is_space line ->
  offsetOf line <> [] /\ Forall (fun a => is_space a = false) (offsetOf line).
Proof.
  intros Hne Hs. unfold offsetOf, tokensOf. split.
  - destruct line as [|x t]; [contradiction|]. simpl in Hs.
    destruct (normalize_head x t Hs) as (y & t' & -> & Hy).
    unfold splitRe. cbn [split_go].
    assert (E : rmatch spaces (y :: t') [] ret = None).
    { unfold spaces, space. rewrite rmatch_plus, Hy. reflexivity. }
    rewrite E. destruct (split_go_hd_piece spaces t' [y]) as (rest & ->); discriminate.
  - pose proof (splitRe_pieces spaces (fun a => is_space a = false) (normalize line)
                  eq_refl spaces_at_space) as Hall.
    pose proof (tokensOf_nonempty line) as Hn. unfold tokensOf in Hn.
    destruct (splitRe spaces (normalize line)) as [|p ps]; [contradiction|].
    inversion Hall. assumption.
Qed.

Lemma dec_digits n : Forall (fun a => is_digit a = true) (dec n).
Proof.
  unfold dec. generalize (Nat.to_uint n). intros u.
  induction u; cbn; try constructor; try reflexivity; exact IHu.
Qed.

Lemma digit_tagChar a : is_digit a = true -> tagChar a.
Proof. intros H. left. unfold is_AZ09. rewrite H. apply orb_true_r. Qed.

Lemma synthTag_tagChar label_ : Forall tagChar (synthTag label_).
Proof. rewrite synthTag_collapse. apply collapseRuns_tagChar. Qed.

(** * Value mappings and segments *)

Lemma execAll_In r c : forall s n,
  In c (execAll r s n) -> exists s1 rest, rmatch r s1 [] ret = Some (rest, c).
Proof.
  induction s as [|a s IH]; intros n H; cbn [execAll] in H.
  - contradiction.
  - destruct n as [|n]; [|apply (IH _ H)].
    destruct (rmatch r (a :: s) [] ret) as [[rest c0]|] eqn:E; [|apply (IH _ H)].
    destruct (length (a :: s) - length rest); [contradiction|].
    destruct H as [<- | H]; [|apply (IH _ H)].
    exists (a :: s), rest. exact E.
Qed.

(** The label of a value mapping is matched by [[^:]+]. *)
Lemma mapRegex_label s rest c :
  rmatch mapRegex s [] ret = Some (rest, c) ->
  exists value text, cap c 1 = Some value /\ cap c 2 = Some text /\
                     digits value /\ ~ In ":"%char text.
Proof.
  intros H. apply rmatch_sound in H. destruct H as (s' & c' & H & Hk).
  unfold ret in Hk. inversion Hk; subst s' c'; clear Hk.
  unfold mapRegex in H.
  apply Matches_Seq_inv in H. destruct H as (s1 & c1 & Hg1 & H).
  apply Matches_group_plus in Hg1. destruct Hg1 as (value & Hv0 & Hvd & _ & ->).
  apply Matches_Seq_inv in H. destruct H as (s2 & c2 & Hcolon & H).
  apply Matches_capfree in Hcolon; [subst c2 | reflexivity].
  apply Matches_Seq_inv in H. destruct H as (s3 & c3 & Hsp & H).
  apply Matches_capfree in Hsp; [subst c3 | reflexivity].
  apply Matches_Seq_inv in H. destruct H as (s4 & c4 & Hg2 & Hlook).
  apply Matches_group_plus in Hg2. destruct Hg2 as (text & Ht0 & Htd & _ & ->).
  apply Matches_capfree in Hlook; [subst c | reflexivity].
  exists value, text. repeat split; auto.
  intros Hin. rewrite Forall_forall in Htd. apply Htd in Hin. discriminate Hin.
Qed.

(** A match of the segment pattern holds a colon. *)
Lemma segRe_colon s rest c : rmatch segRe s [] ret = Some (rest, c) -> In ":"%char s.
Proof.
  intros H. apply rmatch_sound in H. destruct H as (s' & c' & H & _).
  unfold segRe in H.
  apply Matches_Seq_inv in H. destruct H as (s1 & c1 & Hw & H).
  apply Matches_suffix in Hw. destruct Hw as (m1 & ->).
  apply Matches_Seq_inv in H. destruct H as (s2 & c2 & Hsp & H).
  apply Matches_suffix in Hsp. destruct Hsp as (m2 & ->).
  apply Matches_Seq_inv in H. destruct H as (s3 & c3 & Hg1 & H).
  apply Matches_suffix in Hg1. destruct Hg1 as (m3 & ->).
  apply Matches_Seq_inv in H. destruct H as (s4 & c4 & Hopt & H).
  apply Matches_suffix in Hopt. destruct Hopt as (m4 & ->).
  apply Matches_Seq_inv in H. destruct H as (s5 & c5 & Hcolon & _).
  apply Matches_Chr_inv in Hcolon. destruct Hcolon as (a & -> & Ha & _).
  apply Ascii.eqb_eq in Ha. subst a.
  repeat (apply in_or_app; right). left. reflexivity.
Qed.

Lemma segMatch_colon seg : segMatch seg <> None -> In ":"%char seg.
Proof.
  unfold segMatch. intros H.
  destruct (search segRe seg 0) as [[[j m] c]|] eqn:E; [|contradiction].
  apply search_inv in E. destruct E as (pre & s1 & rest & -> & _ & Hm & _ & _).
  apply in_or_app. right. apply (segRe_colon _ _ _ Hm).
Qed.

Lemma segmentsOf_incl a restText seg :
  In seg (segmentsOf restText) -> In a seg -> In a restText.
Proof.
  unfold segmentsOf. intros H Ha. apply filter_In in H. destruct H as (H & _).
  apply in_map_iff in H. destruct H as (p & <- & Hp).
  apply trim_incl in Ha. apply (splitRe_incl _ _ _ _ Hp Ha).
Qed.

Lemma bitEntries_none offset_ type_ groupName : forall segments i,
  Forall (fun seg => segMatch seg = None) segments ->
  bitEntries offset_ type_ groupName segments i = [].
Proof.
  induction segments as [|seg rest IH]; intros i H; [reflexivity|].
  inversion H as [|? ? Hs Hr]; subst. cbn [bitEntries]. rewrite Hs. apply IH. exact Hr.
Qed.

(** * The typo rewrite *)

Lemma rmatch_typoRe_none s c k : startsBit s = false -> rmatch typoRe s c k = None.
Proof.
  intros H. unfold typoRe. rewrite rmatch_Seq_eq.
  change (word chr_i (lit "bits"))
    with (Seq (chr_i "b") (Seq (chr_i "i") (Seq (chr_i "t") (chr_i "s")))).
  unfold chr_i. cbn [rmatch].
  change (upper_char "b") with "B"%char.
  change (upper_char "i") with "I"%char.
  change (upper_char "t") with "T"%char.
  destruct s as [|b [|i [|t s]]]; try reflexivity;
    unfold startsBit in H;
    destruct (Ascii.eqb (upper_char b) "B"); try reflexivity;
    destruct (Ascii.eqb (upper_char i) "I"); try reflexivity;
    destruct (Ascii.eqb (upper_char t) "T"); try reflexivity.
  discriminate H.
Qed.

Lemma replace_go_none r rep : forall s,
  (forall k, rmatch r (skipn k s) [] ret = None) -> replace_go r rep s 0 = s.
Proof.
  induction s as [|a s IH]; intros H.
  - cbn [replace_go]. pose proof (H 0) as H0. cbn [skipn] in H0. rewrite H0. reflexivity.
  - pose proof (H 0) as H0. cbn [skipn] in H0.
    rewrite (replace_go_nomatch _ _ _ _ H0). f_equal. apply IH.
    intros k. apply (H (S k)).
Qed.

Lemma hasBit_skipn : forall k s, hasBit s = false -> startsBit (skipn k s) = false.
Proof.
  induction k as [|k IH]; intros s H.
  - destruct s; simpl in *; [reflexivity|]. apply orb_false_iff in H. apply H.
  - destruct s as [|a s]; [reflexivity|]. cbn [skipn]. apply IH.
    cbn [hasBit] in H. apply orb_false_iff in H. apply H.
Qed.

(** * The engine *)

(** Reading every address of a store gives the store. *)
Lemma mapM_deref_seq : forall (h pre : heap),
  mapM (deref (pre ++ h)) (seq (length pre) (length h)) = Ok h.
Proof.
  induction h as [|e h IH]; intros pre; [reflexivity|].
  cbn [length seq mapM]. unfold deref at 1.
  rewrite nth_error_app2 by lia. rewrite Nat.sub_diag. cbn [nth_error bind].
  replace (pre ++ e :: h) with ((pre ++ [e]) ++ h) by (rewrite <- app_assoc; reflexivity).
  replace (S (length pre)) with (length (pre ++ [e])) by (rewrite length_app; simpl; lia).
  rewrite IH. reflexivity.
Qed.

Lemma mapM_deref_all (h : heap) : mapM (deref h) (seq 0 (length h)) = Ok h.
Proof. apply (mapM_deref_seq h []). Qed.

(** The fields the line builder prints are strings in a record of the
    parser, but for the type of a line of one token. *)
Lemma parser_strings raw e :
  In e (parseRawDetails raw) ->
  (type e = JUndefined \/ exists t, type e = JStr t) /\
  (exists l, label e = JStr l) /\ exists b, bits e = JStr b.
Proof.
  intros He. destruct (parseRawDetails_In raw e He) as (_ & line & _ & Hin).
  destruct (parseLine_In _ _ _ Hin) as (_ & _ & Ht & _ & _ & Hbr).
  split.
  - rewrite Ht. destruct (typeOf_shape line) as [H | (t & H & _)]; [left; exact H|].
    right. exists t. exact H.
  - destruct Hbr as [(seg & k & start & end_ & desc & _ & _ & _ & Hl & Hb & _)
                    | (_ & Hl & Hb & _)]; split; eexists; eassumption.
Qed.

Lemma pointLine_strings e :
  (type e = JUndefined \/ exists t, type e = JStr t) ->
  (exists l, label e = JStr l) -> (exists b, bits e = JStr b) ->
  exists line, pointLine e = Ok line.
Proof.
  intros Ht (l & Hl) (b & Hb). unfold pointLine. rewrite Hl, Hb.
  destruct Ht as [-> | (t & ->)]; cbn [ToString bind];
    destruct (truthy (JStr b)); cbn [bind]; eexists; reflexivity.
Qed.

Lemma mapM_total {A B : Type} (f : A -> result B) : forall l,
  Forall (fun x => exists y, f x = Ok y) l -> exists ys, mapM f l = Ok ys.
Proof.
  induction l as [|x l IH]; intros H; [exists []; reflexivity|].
  inversion H as [|? ? (y & Hy) Hl]; subst.
  destruct (IH Hl) as (ys & Hys). exists (y :: ys).
  cbn [mapM]. rewrite Hy. cbn [bind]. rewrite Hys. reflexivity.
Qed.

Lemma parser_lines raw : exists lines, mapM pointLine (parseRawDetails raw) = Ok lines.
Proof.
  apply mapM_total. apply Forall_forall. intros e He.
  destruct (parser_strings raw e He) as (Ht & Hl & Hb).
  apply pointLine_strings; assumption.
Qed.

Lemma engineRecords_off JSON_parse raw useAI apiKey aiResp :
  useAI && nonempty apiKey = false ->
  engineRecords JSON_parse raw useAI apiKey aiResp = Ok (parseRawDetails raw).
Proof. intros H. unfold engineRecords. rewrite H. reflexivity. Qed.

(** The merge with a payload that decodes to nothing, or to an object
    without [parameters]. *)
Lemma enhanceWithAI_noop JSON_parse h entries aiData :
  (safeParseJson JSON_parse aiData = JNull \/
   exists fields, safeParseJson JSON_parse aiData = JObj fields /\
                  lookup (lit "parameters") fields = None) ->
  enhanceWithAI JSON_parse h entries aiData = Ok (entries, h).
Proof.
  intros H. unfold enhanceWithAI.
  destruct H as [-> | (fields & -> & Hp)]; [reflexivity|].
  cbn [truthy negb getProp]. rewrite Hp. reflexivity.
Qed.

(** * The text safeParseJson decodes *)

Lemma repeat_loop_lazy k : forall n s c,
  length s <= n ->
  repeat_loop false (rmatch any) k n s c = lazy_run k s c.
Proof.
  induction n as [|n IH]; intros s c Hn.
  - destruct s; [|simpl in Hn; lia]. simpl. destruct (k [] c); reflexivity.
  - destruct s as [|a s'].
    + simpl. destruct (k [] c); reflexivity.
    + cbn [repeat_loop lazy_run]. destruct (k (a :: s') c); [reflexivity|].
      unfold any at 1. cbn [rmatch].
      assert (Hlt : (length s' <? length (a :: s')) = true)
        by (apply Nat.ltb_lt; simpl; lia).
      rewrite Hlt. apply IH. simpl in Hn. lia.
Qed.

Lemma close_here s c :
  rmatch (Seq (chr "}"%char) (Eol true)) s c ret =
  match s with
  | a :: s' => if Ascii.eqb a "}" && lineEnd s' then Some (s', c) else None
  | [] => None
  end.
Proof.
  destruct s as [|a s']; [reflexivity|].
  rewrite rmatch_Seq_eq, rmatch_chr_cons.
  destruct (Ascii.eqb a "}"); [|reflexivity].
  destruct s' as [|b s'']; [reflexivity|].
  cbn. destruct (is_line_terminator b); reflexivity.
Qed.

Lemma lazy_close c : forall s,
  lazy_run (fun s1 c1 => rmatch (Seq (chr "}"%char) (Eol true)) s1 c1 ret) s c =
  match firstClose s with
  | Some j => Some (skipn (S j) s, c)
  | None => None
  end.
Proof.
  induction s as [|a s IH].
  - reflexivity.
  - cbn [lazy_run firstClose]. rewrite close_here.
    destruct (Ascii.eqb a "}" && lineEnd s); [reflexivity|].
    rewrite IH. destruct (firstClose s); reflexivity.
Qed.

Lemma jsonObjRe_here a s :
  rmatch jsonObjRe (a :: s) [] ret =
  if Ascii.eqb a "{" then
    match firstClose s with
    | Some j => Some (skipn (S j) s, [])
    | None => None
    end
  else None.
Proof.
  unfold jsonObjRe. rewrite rmatch_Seq_eq, rmatch_chr_cons.
  destruct (Ascii.eqb a "{"); [|reflexivity].
  rewrite rmatch_Seq_eq. cbn [rmatch]. rewrite repeat_loop_lazy by lia.
  apply (lazy_close [] s).
Qed.

Lemma firstClose_lt : forall s j, firstClose s = Some j -> j < length s.
Proof.
  induction s as [|a s IH]; intros j H; [discriminate H|].
  cbn [firstClose] in H. destruct (Ascii.eqb a "}" && lineEnd s).
  - inversion H. simpl. lia.
  - destruct (firstClose s) as [j'|]; [|discriminate H].
    inversion H. specialize (IH j' eq_refl). simpl. lia.
Qed.

Lemma firstClose_tail a s : firstClose (a :: s) = None -> firstClose s = None.
Proof.
  cbn [firstClose]. destruct (Ascii.eqb a "}" && lineEnd s); [discriminate|].
  destruct (firstClose s); [discriminate | reflexivity].
Qed.

(** The text up to the first closing brace that ends a line ends with
    that brace. *)
Lemma firstClose_brace : forall s j,
  firstClose s = Some j ->
  exists body, firstn (S j) s = body ++ ["}"%char] /\ lineEnd (skipn (S j) s) = true.
Proof.
  induction s as [|a s IH]; intros j H; [discriminate H|].
  cbn [firstClose] in H. destruct (Ascii.eqb a "}" && lineEnd s) eqn:E.
  - inversion H; subst. apply andb_true_iff in E. destruct E as (Ea & El).
    apply Ascii.eqb_eq in Ea. subst a. exists []. split; [reflexivity | exact El].
  - destruct (firstClose s) as [j'|]; [|discriminate H].
    inversion H; subst. destruct (IH j' eq_refl) as (body & Hb & Hl).
    exists (a :: body). split; [|exact Hl].
    change (firstn (S (S j')) (a :: s)) with (a :: firstn (S j') s).
    rewrite Hb. reflexivity.
Qed.

Lemma search_jsonObjRe_no_close : forall s i,
  firstClose s = None -> search jsonObjRe s i = None.
Proof.
  induction s as [|a s IH]; intros i H.
  - reflexivity.
  - cbn [search]. rewrite jsonObjRe_here.
    pose proof (firstClose_tail _ _ H) as Ht. rewrite Ht.
    destruct (Ascii.eqb a "{"); apply IH; exact Ht.
Qed.

Lemma search_jsonObjRe_text s1 : forall pre i,
  ~ In "{"%char pre ->
  search jsonObjRe (pre ++ "{"%char :: s1) i =
  match firstClose s1 with
  | Some j => Some (i + length pre, "{"%char :: firstn (S j) s1, [])
  | None => None
  end.
Proof.
  induction pre as [|a pre IH]; intros i Hno.
  - cbn [app search]. rewrite jsonObjRe_here, Ascii.eqb_refl.
    destruct (firstClose s1) as [j|] eqn:E.
    + pose proof (firstClose_lt _ _ E) as Hj.
      rewrite length_skipn. cbn [length].
      replace (S (length s1) - (length s1 - S j)) with (S (S j)) by lia.
      rewrite Nat.add_0_r. reflexivity.
    + apply search_jsonObjRe_no_close. exact E.
  - cbn [app search]. rewrite jsonObjRe_here.
    assert (Ha : Ascii.eqb a "{" = false).
    { apply Ascii.eqb_neq. intros ->. apply Hno. left. reflexivity. }
    rewrite Ha. rewrite IH by (intros Hin; apply Hno; right; exact Hin).
    cbn [length]. replace (S i + length pre) with (i + S (length pre)) by lia.
    reflexivity.
Qed.

(** * The merge on record contents *)

Lemma enhanceEntry_record ps h r e :
  nth_error h r = Some e ->
  match enhanceEntry (JArr ps) h r with
  | Ok (r', h') =>
      exists e', enhanceRecord ps e = Ok e' /\ nth_error h' r' = Some e' /\
                 exists t, h' = h ++ t
  | Throw => enhanceRecord ps e = Throw
  end.
Proof.
  intros Hr. unfold enhanceEntry, enhanceRecord. rewrite Hr.
  destruct (findParam ps (offset e)) as [[aiParam|]|]; cbn [bind].
  - destruct (truthy aiParam); cbn [negb].
    + destruct (getProp aiParam (lit "values")) as [values|]; cbn [bind]; [|reflexivity].
      destruct (if truthy values
                then match values with
                     | JArr vs => cs <- mapM valueClause vs ;; Ok (join (lit ":") cs)
                     | _ => Throw
                     end
                else Ok (evt e)) as [evt_|]; cbn [bind]; [|reflexivity].
      destruct (getProp aiParam (lit "name")) as [name|]; cbn [bind]; [|reflexivity].
      destruct (getProp aiParam (lit "bits")) as [bits_|]; cbn [bind]; [|reflexivity].
      eexists. split; [reflexivity|]. split.
      * rewrite nth_error_app2 by lia. rewrite Nat.sub_diag. reflexivity.
      * eexists. reflexivity.
    + exists e. split; [reflexivity|]. split; [exact Hr|].
      exists []. rewrite app_nil_r. reflexivity.
  - exists e. split; [reflexivity|]. split; [exact Hr|].
    exists []. rewrite app_nil_r. reflexivity.
  - reflexivity.
Qed.

Lemma recordsAt_grow h t entries es :
  recordsAt h entries es -> recordsAt (h ++ t) entries es.
Proof.
  unfold recordsAt. intros H. eapply Forall2_impl; [|exact H].
  intros r e Hr. apply nth_error_prefix. exact Hr.
Qed.

(** The merge of an array of records is the map of [enhanceRecord] over
    their contents, whatever the store holds besides. *)
Lemma enhanceEntries_records ps : forall entries es h,
  recordsAt h entries es ->
  match enhanceEntries (JArr ps) h entries with
  | Ok (entries', h') =>
      exists es', mapM (enhanceRecord ps) es = Ok es' /\ recordsAt h' entries' es' /\
                  exists t, h' = h ++ t
  | Throw => mapM (enhanceRecord ps) es = Throw
  end.
Proof.
  induction entries as [|r entries IH]; intros es h H.
  - inversion H; subst. cbn. exists []. split; [reflexivity|].
    split; [constructor|]. exists []. rewrite app_nil_r. reflexivity.
  - inversion H as [|r0 e l es0 Hr Hrest]; subst.
    cbn [enhanceEntries mapM].
    pose proof (enhanceEntry_record ps h r e Hr) as H1.
    destruct (enhanceEntry (JArr ps) h r) as [[r' h1]|]; cbn [bind fst snd].
    + destruct H1 as (e' & He' & Hr' & t1 & ->). rewrite He'. cbn [bind].
      specialize (IH es0 (h ++ t1) (recordsAt_grow _ _ _ _ Hrest)).
      destruct (enhanceEntries (JArr ps) (h ++ t1) entries) as [[entries' h2]|];
        cbn [bind fst snd].
      * destruct IH as (es' & Hes' & Hat & t2 & ->). rewrite Hes'. cbn [bind].
        exists (e' :: es'). split; [reflexivity|]. split.
        -- constructor; [apply nth_error_prefix; exact Hr' | exact Hat].
        -- exists (t1 ++ t2). rewrite app_assoc. reflexivity.
      * rewrite IH. reflexivity.
    + rewrite H1. reflexivity.
Qed.

Lemma recordsAt_deref h entries es : recordsAt h entries es -> mapM (deref h) entries = Ok es.
Proof.
  intros H. apply mapM_Forall2. eapply Forall2_impl; [|exact H].
  intros r e Hr. unfold deref. rewrite Hr. reflexivity.
Qed.

Lemma recordsAt_all (h : heap) : recordsAt h (seq 0 (length h)) h.
Proof.
  unfold recordsAt. pose proof (mapM_deref_all h) as H. apply mapM_Forall2 in H.
  eapply Forall2_impl; [|exact H].
  intros r e Hr. unfold deref in Hr. destruct (nth_error h r); [|discriminate Hr].
  inversion Hr. reflexivity.
Qed.

Lemma recordsAt_valid h entries :
  Forall (fun r => r < length h) entries -> exists es, recordsAt h entries es.
Proof.
  induction 1 as [|r entries Hr _ (es & Hes)]; [exists []; constructor|].
  destruct (nth_error h r) as [e|] eqn:E.
  - exists (e :: es). constructor; assumption.
  - apply nth_error_None in E. lia.
Qed.

Lemma orElse_idem a b : orElse a (orElse a b) = orElse a b.
Proof. unfold orElse. destruct (truthy a); reflexivity. Qed.

(** A record the merge returns is one the merge would return
    unchanged. *)
Lemma enhanceRecord_idem ps e e' :
  enhanceRecord ps e = Ok e' -> enhanceRecord ps e' = Ok e'.
Proof.
  unfold enhanceRecord. intros H.
  destruct (findParam ps (offset e)) as [[aiParam|]|] eqn:Ef; cbn [bind] in H;
    [| inversion H; subst; rewrite Ef; reflexivity | discriminate H].
  destruct (truthy aiParam) eqn:Et; cbn [negb] in H;
    [| inversion H; subst; rewrite Ef; cbn [bind]; rewrite Et; reflexivity].
  on_ok (getProp aiParam (lit "values")) as values Ev in H.
  destruct (truthy values) eqn:Etv.
  - destruct values as [| | | | |vs|]; cbn [bind] in H; try discriminate H.
    on_ok (mapM valueClause vs) as cs Ecs in H.
    on_ok (getProp aiParam (lit "name")) as name En in H.
    on_ok (getProp aiParam (lit "bits")) as bits_ Eb in H.
    inversion H; subst e'; clear H.
    cbn [offset merged]. rewrite Ef. cbn [bind]. rewrite Et. cbn [negb].
    rewrite Ev. cbn [bind]. rewrite Etv, Ecs. cbn [bind].
    rewrite En. cbn [bind]. rewrite Eb. cbn [bind].
    unfold merged. cbn. rewrite !orElse_idem. reflexivity.
  - cbn [bind] in H.
    on_ok (getProp aiParam (lit "name")) as name En in H.
    on_ok (getProp aiParam (lit "bits")) as bits_ Eb in H.
    inversion H; subst e'; clear H.
    cbn [offset merged]. rewrite Ef. cbn [bind]. rewrite Et. cbn [negb].
    rewrite Ev. cbn [bind]. rewrite Etv. cbn [bind].
    rewrite En. cbn [bind]. rewrite Eb. cbn [bind].
    unfold merged. cbn. rewrite !orElse_idem. reflexivity.
Qed.

Lemma mapM_idem {A : Type} (f : A -> result A) :
  (forall x y, f x = Ok y -> f y = Ok y) ->
  forall l l', mapM f l = Ok l' -> mapM f l' = Ok l'.
Proof.
  intros Hf. induction l as [|x l IH]; intros l' H; cbn [mapM] in H.
  - inversion H. reflexivity.
  - on_ok (f x) as y Hy in H.
    destruct (mapM f l) as [ys|] eqn:Hys; cbn [bind] in H; [|discriminate H].
    inversion H; subst. cbn [mapM]. rewrite (Hf _ _ Hy). cbn [bind].
    rewrite (IH ys eq_refl). reflexivity.
Qed.

Lemma recordsAt_same h1 h2 entries1 entries2 es :
  recordsAt h1 entries1 es -> recordsAt h2 entries2 es ->
  Forall2 (fun r1 r2 => nth_error h2 r2 = nth_error h1 r1) entries1 entries2.
Proof.
  unfold recordsAt. intros H1. revert entries2.
  induction H1 as [|r1 e entries1 es H _ IH]; intros entries2 H2.
  - inversion H2. constructor.
  - inversion H2 as [|r2 e0 l l0 Hr2 Hrest]; subst.
    constructor; [congruence | apply IH; exact Hrest].
Qed.

(** * Lines joined and split again *)

Lemma lineBreak_LF rest : rmatch lineBreak (LF :: rest) [] ret = Some (rest, []).
Proof.
  unfold lineBreak. rewrite rmatch_Seq_eq, rmatch_ropt, rmatch_chr_cons.
  change (Ascii.eqb LF CR) with false. cbv beta iota.
  rewrite rmatch_chr_cons, Ascii.eqb_refl. reflexivity.
Qed.

Lemma lineBreak_CRLF rest : rmatch lineBreak (CR :: LF :: rest) [] ret = Some (rest, []).
Proof.
  unfold lineBreak. rewrite rmatch_Seq_eq, rmatch_ropt, rmatch_chr_cons.
  rewrite Ascii.eqb_refl. rewrite rmatch_chr_cons, Ascii.eqb_refl. reflexivity.
Qed.

Lemma stops_rev_tail p a l : stops p (rev (a :: l)) -> stops p (rev l).
Proof.
  cbn [rev]. destruct (rev l) as [|x t]; [intros _; exact I|].
  simpl. intros H. exact H.
Qed.

(** No line break inside a line that holds no line feed and does not end
    with a carriage return. *)
Lemma lineBreak_inside a l sep rest :
  sep = [LF] \/ sep = [CR; LF] ->
  ~ In LF (a :: l) -> stops is_space (rev (a :: l)) ->
  rmatch lineBreak (a :: l ++ sep ++ rest) [] ret = None.
Proof.
  intros Hsep Hno Hend.
  assert (Ha : Ascii.eqb a LF = false).
  { apply Ascii.eqb_neq. intros ->. apply Hno. left. reflexivity. }
  unfold lineBreak. rewrite rmatch_Seq_eq, rmatch_ropt, !rmatch_chr_cons. rewrite Ha.
  destruct (Ascii.eqb_spec a CR) as [-> | _]; [|reflexivity].
  destruct l as [|b l].
  - cbn in Hend. discriminate Hend.
  - cbn [app]. rewrite rmatch_chr_cons.
    destruct (Ascii.eqb_spec b LF) as [-> | _]; [|reflexivity].
    exfalso. apply Hno. right. left. reflexivity.
Qed.

(** The split at the first line break of [l ++ sep ++ rest]. *)
Lemma split_go_line sep rest : forall l piece,
  sep = [LF] \/ sep = [CR; LF] ->
  ~ In LF l -> stops is_space (rev l) ->
  split_go lineBreak (l ++ sep ++ rest) 0 piece
  = (rev piece ++ l) :: split_go lineBreak rest 0 [].
Proof.
  induction l as [|a l IH]; intros piece Hsep Hno Hend.
  - rewrite app_nil_r. destruct Hsep as [-> | ->]; cbn [app split_go].
    + rewrite lineBreak_LF.
      replace (length (LF :: rest) - length rest) with 1 by (cbn [length]; lia).
      reflexivity.
    + rewrite lineBreak_CRLF.
      replace (length (CR :: LF :: rest) - length rest) with 2 by (cbn [length]; lia).
      reflexivity.
  - cbn [app split_go]. rewrite (lineBreak_inside a l sep rest Hsep Hno Hend).
    rewrite IH; [| exact Hsep | intros Hin; apply Hno; right; exact Hin
                 | apply (stops_rev_tail _ a); exact Hend].
    cbn [rev]. rewrite <- app_assoc. reflexivity.
Qed.

Lemma join_nonempty sep l ls : l <> [] -> join sep (l :: ls) <> [].
Proof.
  intros Hl. cbn [join]. destruct ls; [exact Hl|].
  destruct l; [contradiction | discriminate].
Qed.

Lemma split_go_lines sep : forall ls l piece,
  sep = [LF] \/ sep = [CR; LF] ->
  Forall cleanLine (l :: ls) ->
  split_go lineBreak (join sep (l :: ls)) 0 piece = (rev piece ++ l) :: ls.
Proof.
  induction ls as [|l2 ls IH]; intros l piece Hsep Hall;
    inversion Hall as [|? ? (Hne & Hl & Hr & Hno) Hrest]; subst.
  - cbn [join]. apply split_go_no_match. intros k. apply lineBreak_needs_LF.
    intros Hin. apply Hno. apply (skipn_incl _ _ _ Hin).
  - change (join sep (l :: l2 :: ls)) with (l ++ sep ++ join sep (l2 :: ls)).
    rewrite (split_go_line sep _ l piece Hsep Hno Hr).
    rewrite (IH l2 [] Hsep Hrest). reflexivity.
Qed.

Lemma join_stops_l p sep l ls : l <> [] -> stops p l -> stops p (join sep (l :: ls)).
Proof.
  intros Hne Hs. cbn [join]. destruct ls; [exact Hs|].
  destruct l; [contradiction | exact Hs].
Qed.

Lemma stops_app_l p (a b : str) : a <> [] -> stops p a -> stops p (a ++ b).
Proof. destruct a; [contradiction | intros _ H; exact H]. Qed.

Lemma join_stops_r p sep : forall ls l,
  Forall (fun x => x <> [] /\ stops p (rev x)) (l :: ls) ->
  stops p (rev (join sep (l :: ls))).
Proof.
  induction ls as [|l2 ls IH]; intros l Hall;
    inversion Hall as [|? ? (Hne & Hr) Hrest]; subst.
  - exact Hr.
  - change (join sep (l :: l2 :: ls)) with (l ++ sep ++ join sep (l2 :: ls)).
    rewrite !rev_app_distr, <- app_assoc. apply stops_app_l; [|apply IH; exact Hrest].
    inversion Hrest as [|? ? (Hne2 & _) _]; subst.
    intros E. apply (join_nonempty sep l2 ls Hne2).
    rewrite <- (rev_involutive (join sep (l2 :: ls))), E. reflexivity.
Qed.

Lemma map_id_on {A : Type} (f : A -> A) (l : list A) :
  Forall (fun x => f x = x) l -> map f l = l.
Proof. induction 1 as [|x l Hx _ IH]; [reflexivity|]. cbn. rewrite Hx, IH. reflexivity. Qed.

Lemma filter_all {A : Type} (f : A -> bool) (l : list A) :
  Forall (fun x => f x = true) l -> filter f l = l.
Proof. induction 1 as [|x l Hx _ IH]; [reflexivity|]. cbn. rewrite Hx, IH. reflexivity. Qed.

(** Clean lines joined by a line break are the lines of the text. *)
Lemma linesOf_join sep ls :
  sep = [LF] \/ sep = [CR; LF] -> Forall cleanLine ls -> linesOf (join sep ls) = ls.
Proof.
  intros Hsep Hall. destruct ls as [|l ls]; [reflexivity|].
  unfold linesOf.
  assert (Hne : l <> []) by (inversion Hall as [|? ? (H & _) _]; exact H).
  rewrite trim_id.
  - rewrite (splitRe_cons _ _ (join_nonempty sep l ls Hne)).
    rewrite split_go_lines by assumption. cbn [rev app].
    rewrite map_id_on.
    + apply filter_all. eapply Forall_impl; [|exact Hall].
      intros x (Hx & _). destruct x; [contradiction | reflexivity].
    + eapply Forall_impl; [|exact Hall].
      intros x (_ & Hl & Hr & _). apply trim_id; assumption.
  - apply join_stops_l; [exact Hne|]. inversion Hall as [|? ? (_ & H & _) _]; exact H.
  - apply join_stops_r. eapply Forall_impl; [|exact Hall].
    intros x (Hx & _ & Hr & _). split; assumption.
Qed.

(** * The typo rewrite, applied twice *)

Lemma greedy_run_some p k : (forall s c, k s c <> None) ->
  forall s c, greedy_run p k s c <> None.
Proof.
  intros Hk. induction s as [|a s IH]; intros c; simpl; [apply Hk|].
  destruct (p a); [|apply Hk].
  destruct (greedy_run p k s c) eqn:E; [discriminate | apply Hk].
Qed.

Lemma typoRe_word s c k :
  rmatch typoRe s c k =
  match s with
  | b :: i :: t :: x :: s' =>
      if Ascii.eqb (upper_char b) "B" then
        if Ascii.eqb (upper_char i) "I" then
          if Ascii.eqb (upper_char t) "T" then
            if Ascii.eqb (upper_char x) "S" then
              rmatch (Group 1 (rplus digit)) s' c k
            else None
          else None
        else None
      else None
  | _ => None
  end.
Proof.
  unfold typoRe. rewrite rmatch_Seq_eq.
  change (word chr_i (lit "bits"))
    with (Seq (chr_i "b") (Seq (chr_i "i") (Seq (chr_i "t") (chr_i "s")))).
  unfold chr_i. cbn [rmatch].
  change (upper_char "b") with "B"%char.
  change (upper_char "i") with "I"%char.
  change (upper_char "t") with "T"%char.
  change (upper_char "s") with "S"%char.
  destruct s as [|b [|i [|t [|x s']]]]; try reflexivity;
    destruct (Ascii.eqb (upper_char b) "B"); try reflexivity;
    destruct (Ascii.eqb (upper_char i) "I"); try reflexivity;
    destruct (Ascii.eqb (upper_char t) "T"); reflexivity.
Qed.

Lemma typoRe_none s : typoAt s = false -> rmatch typoRe s [] ret = None.
Proof.
  intros H. rewrite typoRe_word.
  destruct s as [|b [|i [|t [|x s']]]]; try reflexivity.
  destruct (Ascii.eqb (upper_char b) "B") eqn:Eb; [|reflexivity].
  destruct (Ascii.eqb (upper_char i) "I") eqn:Ei; [|reflexivity].
  destruct (Ascii.eqb (upper_char t) "T") eqn:Et; [|reflexivity].
  destruct (Ascii.eqb (upper_char x) "S") eqn:Ex; [|reflexivity].
  cbn [rmatch]. unfold digit. rewrite rmatch_plus.
  destruct s' as [|d r]; [reflexivity|].
  unfold typoAt in H. rewrite Eb, Ei, Et, Ex in H. cbn [andb] in H.
  rewrite H. reflexivity.
Qed.

Lemma typoRe_some s : typoAt s = true -> rmatch typoRe s [] ret <> None.
Proof.
  intros H. rewrite typoRe_word.
  destruct s as [|b [|i [|t [|x [|d r]]]]]; try discriminate H.
  unfold typoAt in H.
  destruct (Ascii.eqb (upper_char b) "B"); [|discriminate H].
  destruct (Ascii.eqb (upper_char i) "I"); [|discriminate H].
  destruct (Ascii.eqb (upper_char t) "T"); [|discriminate H].
  destruct (Ascii.eqb (upper_char x) "S"); [|discriminate H].
  cbn [andb] in H. cbn [rmatch]. unfold digit. rewrite rmatch_plus, H.
  apply greedy_run_some. intros s c. unfold ret. discriminate.
Qed.

(** The digits the typo pattern captures. *)
Lemma typoRe_captures s rest c :
  rmatch typoRe s [] ret = Some (rest, c) ->
  Forall (fun a => is_digit a = true) (capd c 1).
Proof.
  intros H. apply rmatch_sound in H. destruct H as (s' & c' & H & Hk).
  unfold ret in Hk. inversion Hk; subst s' c'; clear Hk.
  unfold typoRe in H.
  apply Matches_Seq_inv in H. destruct H as (s1 & c1 & Hw & H).
  apply Matches_group_plus in H. destruct H as (m & _ & Hm & _ & ->).
  unfold capd. cbn. exact Hm.
Qed.

Lemma normalize_nil : normalize [] = [].
Proof. reflexivity. Qed.

Lemma normalize_nomatch a s :
  rmatch typoRe (a :: s) [] ret = None -> normalize (a :: s) = a :: normalize s.
Proof. intros H. unfold normalize, replaceAll. apply replace_go_nomatch. exact H. Qed.

Lemma normalize_match s rest c :
  rmatch typoRe s [] ret = Some (rest, c) ->
  normalize s = lit "Bits " ++ capd c 1 ++ normalize rest /\ length rest < length s.
Proof.
  intros H. unfold normalize, replaceAll.
  rewrite (replace_go_match typoRe _ _ _ _ eq_refl H). split.
  - rewrite <- app_assoc. reflexivity.
  - destruct (rmatch_consuming typoRe s rest c eq_refl H) as (n & Hn & _). lia.
Qed.

Lemma typoAt_notB a s : notB a -> typoAt (a :: s) = false.
Proof.
  unfold notB. intros H. destruct s as [|i [|t [|x [|d r]]]]; try reflexivity.
  unfold typoAt. rewrite H. reflexivity.
Qed.

Lemma digit_notB a : is_digit a = true -> notB a.
Proof.
  intros H. unfold notB. unfold is_digit in H. apply in_range_spec in H.
  rewrite upper_char_nat by lia. apply Ascii.eqb_neq. intros ->. cbv in H. lia.
Qed.

(** Up to its first letter b, the rewritten line is the line. *)
Lemma normalize_prefix : forall n s,
  Forall notB (firstn n (normalize s)) -> firstn n (normalize s) = firstn n s.
Proof.
  induction n as [|n IH]; intros s H; [reflexivity|].
  destruct s as [|a s]; [reflexivity|].
  destruct (rmatch typoRe (a :: s) [] ret) as [[rest c]|] eqn:E.
  - destruct (normalize_match _ _ _ E) as (Hn & _). rewrite Hn in H.
    inversion H as [|? ? Hb _]. discriminate Hb.
  - rewrite (normalize_nomatch _ _ E) in *. cbn [firstn] in *.
    inversion H as [|? ? _ Ht]; subst. rewrite (IH s Ht). reflexivity.
Qed.

Lemma typoAt_firstn s : typoAt s = typoAt (firstn 5 s).
Proof. destruct s as [|b [|i [|t [|x [|d r]]]]]; reflexivity. Qed.

Lemma typoAt_tail a t :
  typoAt (a :: t) = true -> Forall notB (firstn 4 t).
Proof.
  destruct t as [|i [|t' [|x [|d r]]]]; try discriminate.
  unfold typoAt. intros H.
  apply andb_true_iff in H. destruct H as (H & Hd).
  apply andb_true_iff in H. destruct H as (H & Hx).
  apply andb_true_iff in H. destruct H as (H & Ht).
  apply andb_true_iff in H. destruct H as (_ & Hi).
  apply Ascii.eqb_eq in Hi, Ht, Hx. cbn [firstn].
  repeat constructor; unfold notB.
  - rewrite Hi. reflexivity.
  - rewrite Ht. reflexivity.
  - rewrite Hx. reflexivity.
  - apply digit_notB. exact Hd.
Qed.

Lemma noTypo_cons a t : typoAt (a :: t) = false -> noTypo t -> noTypo (a :: t).
Proof. intros Ha Ht [|k]; [exact Ha | apply Ht]. Qed.

Lemma noTypo_digits d t :
  Forall (fun a => is_digit a = true) d -> noTypo t -> noTypo (d ++ t).
Proof.
  intros Hd Ht. induction Hd as [|a d Ha _ IH]; [exact Ht|].
  cbn [app]. apply noTypo_cons; [|exact IH]. apply typoAt_notB, digit_notB, Ha.
Qed.

Lemma noTypo_block d t :
  Forall (fun a => is_digit a = true) d -> noTypo t -> noTypo (lit "Bits " ++ d ++ t).
Proof.
  intros Hd Ht. pose proof (noTypo_digits d t Hd Ht) as H.
  change (lit "Bits " ++ d ++ t)
    with ("B"%char :: "i"%char :: "t"%char :: "s"%char :: " "%char :: d ++ t).
  apply noTypo_cons; [reflexivity|].
  apply noTypo_cons; [apply typoAt_notB; reflexivity|].
  apply noTypo_cons; [apply typoAt_notB; reflexivity|].
  apply noTypo_cons; [apply typoAt_notB; reflexivity|].
  apply noTypo_cons; [apply typoAt_notB; reflexivity|].
  exact H.
Qed.

Lemma normalize_noTypo : forall n s, length s <= n -> noTypo (normalize s).
Proof.
  induction n as [|n IH]; intros s Hn.
  - destruct s; [|simpl in Hn; lia]. intros k. destruct k; reflexivity.
  - destruct s as [|a s]; [intros k; destruct k; reflexivity|].
    destruct (rmatch typoRe (a :: s) [] ret) as [[rest c]|] eqn:E.
    + destruct (normalize_match _ _ _ E) as (-> & Hlt).
      apply noTypo_block; [apply (typoRe_captures _ _ _ E)|].
      apply IH. simpl in Hn, Hlt. lia.
    + rewrite (normalize_nomatch _ _ E).
      apply noTypo_cons; [|apply IH; simpl in Hn; lia].
      destruct (typoAt (a :: normalize s)) eqn:Ht; [|reflexivity].
      exfalso. apply (typoRe_some (a :: s)); [|exact E].
      rewrite typoAt_firstn. change (firstn 5 (a :: s)) with (a :: firstn 4 s).
      rewrite <- (normalize_prefix 4 s) by (apply (typoAt_tail a); exact Ht).
      change (a :: firstn 4 (normalize s)) with (firstn 5 (a :: normalize s)).
      rewrite <- typoAt_firstn. exact Ht.
Qed.

Lemma search_nowhere r : forall s i,
  (forall k, rmatch r (skipn k s) [] ret = None) -> search r s i = None.
Proof.
  induction s as [|a s IH]; intros i H.
  - cbn [search]. pose proof (H 0) as H0. cbn [skipn] in H0. rewrite H0. reflexivity.
  - cbn [search]. pose proof (H 0) as H0. cbn [skipn] in H0. rewrite H0.
    apply IH. intros k. apply (H (S k)).
Qed.

(** * The description of a segment *)

Lemma segSep_at_semicolon a s : rmatch segSep (a :: s) [] ret = None -> a <> ";"%char.
Proof.
  intros H ->. unfold segSep in H. cbn [rmatch] in H.
  unfold chr at 1 in H. cbn [rmatch] in H. rewrite Ascii.eqb_refl in H.
  discriminate H.
Qed.

Lemma stops_rev_suffix p (pre s : str) :
  s <> [] -> stops p (rev (pre ++ s)) -> stops p (rev s).
Proof.
  intros Hs H. rewrite rev_app_distr in H.
  destruct (rev s) as [|x t] eqn:E; [exact I | exact H].
Qed.

(** Where the text holds no semicolon, [([^;]+)] takes it all. *)
Lemma desc_here s c :
  ~ In ";"%char s ->
  rmatch (Group 3 (rplus (not_chr ";"%char))) s c ret =
  match s with
  | [] => None
  | _ :: _ => Some ([], (3, s) :: c)
  end.
Proof.
  intros Hno. destruct s as [|a s']; [reflexivity|].
  rewrite <- (app_nil_r (a :: s')) at 1. unfold not_chr.
  apply rmatch_group_plus_max; [discriminate | | exact I | reflexivity].
  apply Forall_forall. intros x Hx. apply negb_true_iff, Ascii.eqb_neq.
  intros ->. apply Hno. exact Hx.
Qed.

(** [\s*([^;]+)] at the end of the segment pattern, on a text without
    a semicolon that does not end with white space: the description is
    the text after its leading white space. *)
Lemma greedy_space_desc c0 rest c : forall s,
  ~ In ";"%char s -> stops is_space (rev s) ->
  greedy_run is_space
    (fun s1 c1 => rmatch (Group 3 (rplus (not_chr ";"%char))) s1 c1 ret) s c0
  = Some (rest, c) ->
  rest = [] /\
  exists sp desc, s = sp ++ desc /\ c = (3, desc) :: c0 /\ desc <> [] /\
                  stops is_space desc.
Proof.
  induction s as [|a s IH]; intros Hno Hend H.
  - cbn in H. discriminate H.
  - cbn [greedy_run] in H.
    assert (Hno' : ~ In ";"%char s) by (intros Hin; apply Hno; right; exact Hin).
    destruct (is_space a) eqn:Ea.
    + destruct (greedy_run is_space
                  (fun s1 c1 => rmatch (Group 3 (rplus (not_chr ";"%char))) s1 c1 ret)
                  s c0) as [x|] eqn:E.
      * inversion H; subst x.
        destruct (IH Hno' (stops_rev_tail _ _ _ Hend) eq_refl)
          as (Hr & sp & desc & -> & Hc & Hd & Hs).
        split; [exact Hr|]. exists (a :: sp), desc. repeat split; auto.
      * exfalso. destruct s as [|b s'].
        -- cbn in Hend. rewrite Ea in Hend. discriminate Hend.
        -- cbn [greedy_run] in E. rewrite (desc_here (b :: s') c0 Hno') in E.
           destruct (is_space b); [|discriminate E].
           destruct (greedy_run is_space
                       (fun s1 c1 =>
                          rmatch (Group 3 (rplus (not_chr ";"%char))) s1 c1 ret)
                       s' c0); discriminate E.
    + rewrite (desc_here (a :: s) c0 Hno) in H. inversion H; subst.
      split; [reflexivity|]. exists [], (a :: s). repeat split; auto.
      discriminate.
Qed.

Lemma not_in_suffix {A : Type} (x : A) (pre s : list A) : ~ In x (pre ++ s) -> ~ In x s.
Proof. intros H Hin. apply H. apply in_or_app. right. exact Hin. Qed.

(** A match of the segment pattern in a text without a semicolon that
    does not end with white space runs to the end of the text, and its
    description is the end of the text. *)
Lemma segRe_desc s rest c :
  ~ In ";"%char s -> stops is_space (rev s) ->
  rmatch segRe s [] ret = Some (rest, c) ->
  rest = [] /\
  exists pre desc, s = pre ++ desc /\ capd c 3 = desc /\ desc <> [] /\
                   stops is_space desc.
Proof.
  intros Hno Hend H. unfold segRe in H.
  rewrite rmatch_Seq_eq in H. apply rmatch_sound in H.
  destruct H as (s1 & c1 & M1 & H). cbv beta in H.
  apply Matches_suffix in M1. destruct M1 as (m1 & ->).
  rewrite rmatch_Seq_eq in H. apply rmatch_sound in H.
  destruct H as (s2 & c2 & M2 & H). cbv beta in H.
  apply Matches_suffix in M2. destruct M2 as (m2 & ->).
  rewrite rmatch_Seq_eq in H. apply rmatch_sound in H.
  destruct H as (s3 & c3 & M3 & H). cbv beta in H.
  apply Matches_suffix in M3. destruct M3 as (m3 & ->).
  rewrite rmatch_Seq_eq in H. apply rmatch_sound in H.
  destruct H as (s4 & c4 & M4 & H). cbv beta in H.
  apply Matches_suffix in M4. destruct M4 as (m4 & ->).
  rewrite rmatch_Seq_eq in H. apply rmatch_sound in H.
  destruct H as (s5 & c5 & M5 & H). cbv beta in H.
  apply Matches_suffix in M5. destruct M5 as (m5 & ->).
  rewrite rmatch_Seq_eq in H. unfold space in H. rewrite rmatch_star_greedy in H.
  rewrite !app_assoc in Hno, Hend.
  assert (Hs5 : s5 <> []).
  { intros ->. cbn in H. discriminate H. }
  destruct (greedy_space_desc c5 rest c s5 (not_in_suffix _ _ _ Hno)
              (stops_rev_suffix _ _ _ Hs5 Hend) H)
    as (Hr & sp & desc & -> & -> & Hd & Hs).
  split; [exact Hr|].
  exists ((((m1 ++ m2) ++ m3) ++ m4) ++ m5 ++ sp), desc.
  split; [rewrite <- !app_assoc; reflexivity|].
  split; [reflexivity|]. split; assumption.
Qed.

Lemma trim_suffix (pre desc : str) :
  desc <> [] -> stops is_space desc -> stops is_space (rev (pre ++ desc)) ->
  trim desc = desc.
Proof.
  intros Hd Hs Hend. apply trim_id; [exact Hs|].
  apply (stops_rev_suffix _ pre); assumption.
Qed.

(** The segments of a rest text. *)
Lemma segmentsOf_In restText seg :
  In seg (segmentsOf restText) ->
  seg <> [] /\ stops is_space seg /\ stops is_space (rev seg) /\ ~ In ";"%char seg.
Proof.
  unfold segmentsOf. intros H. apply filter_In in H. destruct H as (H & Hne).
  apply in_map_iff in H. destruct H as (p & <- & Hp).
  split; [destruct (trim p); [discriminate Hne | discriminate]|].
  split; [apply trim_stops_l|]. split; [apply trim_stops_r|].
  intros Hin. apply trim_incl in Hin.
  pose proof (splitRe_pieces segSep (fun a => a <> ";"%char) restText
                eq_refl segSep_at_semicolon) as Hall.
  rewrite Forall_forall in Hall. specialize (Hall p Hp).
  rewrite Forall_forall in Hall. apply (Hall ";"%char Hin). reflexivity.
Qed.

Lemma segMatch_desc seg start end_ desc :
  ~ In ";"%char seg -> stops is_space (rev seg) ->
  segMatch seg = Some (start, end_, desc) ->
  desc <> [] /\ trim desc = desc /\ exists pre, seg = pre ++ desc.
Proof.
  intros Hno Hend. unfold segMatch. intros H.
  destruct (search segRe seg 0) as [[[j m] c]|] eqn:E; [|discriminate H].
  inversion H; subst; clear H.
  apply search_inv in E. destruct E as (pre0 & s1 & rest & -> & _ & Hm & _ & _).
  assert (Hs1 : s1 <> []).
  { intros ->. destruct (rmatch_consuming segRe [] rest c eq_refl Hm) as (n & Hn & _).
    simpl in Hn. discriminate Hn. }
  destruct (segRe_desc s1 rest c (not_in_suffix _ _ _ Hno)
              (stops_rev_suffix _ _ _ Hs1 Hend) Hm)
    as (_ & pre & desc & -> & -> & Hd & Hs).
  split; [exact Hd|]. split.
  - apply (trim_suffix (pre0 ++ pre)); [exact Hd | exact Hs|].
    rewrite <- app_assoc. exact Hend.
  - exists (pre0 ++ pre). rewrite app_assoc. reflexivity.
Qed.

(** * The records after the merge *)

Lemma enhanceRecord_keeps ps e e' : enhanceRecord ps e = Ok e' -> sameIdentity e e'.
Proof.
  unfold enhanceRecord, sameIdentity. intros H.
  destruct (findParam ps (offset e)) as [[aiParam|]|]; cbn [bind] in H;
    [| inversion H; subst; repeat split | discriminate H].
  destruct (negb (truthy aiParam)); [inversion H; subst; repeat split|].
  on_ok (getProp aiParam (lit "values")) as values Ev in H.
  destruct (if truthy values
            then match values with
                 | JArr vs => cs <- mapM valueClause vs ;; Ok (join (lit ":") cs)
                 | _ => Throw
                 end
            else Ok (evt e)) as [evt_|]; cbn [bind] in H; [|discriminate H].
  on_ok (getProp aiParam (lit "name")) as name En in H.
  on_ok (getProp aiParam (lit "bits")) as bits_ Eb in H.
  inversion H; subst. repeat split.
Qed.

Lemma seq_nil_length {A : Type} (l : list A) : seq 0 (length l) = [] -> l = [].
Proof. destruct l; [reflexivity | discriminate]. Qed.

(** The records the engine hands to the line builder, against those of
    the parser. *)
Lemma engineRecords_identity JSON_parse raw useAI apiKey aiResp es :
  engineRecords JSON_parse raw useAI apiKey aiResp = Ok es ->
  Forall2 sameIdentity (parseRawDetails raw) es.
Proof.
  assert (Hsame : Forall2 sameIdentity (parseRawDetails raw) (parseRawDetails raw))
    by (apply Forall2_same; intros x; repeat split).
  unfold engineRecords. generalize dependent (parseRawDetails raw). intros parsed Hsame.
  destruct (useAI && nonempty apiKey).
  2:{ intros H. inversion H; subst. exact Hsame. }
  intros H.
  on_ok2 (enhanceWithAI JSON_parse parsed (seq 0 (length parsed)) aiResp)
    as entries' h' E in H.
  assert (Hnoop : (seq 0 (length parsed), parsed) = (entries', h') ->
                  Forall2 sameIdentity parsed es).
  { intros Hp. inversion Hp; subst. rewrite mapM_deref_all in H.
    inversion H; subst. exact Hsame. }
  unfold enhanceWithAI in E.
  destruct (negb (truthy (safeParseJson JSON_parse aiResp)));
    [apply Hnoop; inversion E; reflexivity|].
  on_ok (getProp (safeParseJson JSON_parse aiResp) (lit "parameters"))
    as parameters Ep in E.
  destruct (negb (truthy parameters)); [apply Hnoop; inversion E; reflexivity|].
  clear Hnoop.
  assert (Hna : (forall ps, parameters <> JArr ps) -> Forall2 sameIdentity parsed es).
  { intros Hn. destruct (enhanceEntries_not_array _ _ _ _ _ Hn E) as (Hs & ->).
    apply seq_nil_length in Hs. subst parsed. cbn in H. inversion H. constructor. }
  destruct parameters as [| | | | |ps|]; try (apply Hna; discriminate).
  clear Hna.
  pose proof (enhanceEntries_records ps _ _ _ (recordsAt_all parsed)) as R.
  rewrite E in R. destruct R as (es' & Hes' & Hat & _).
  rewrite (recordsAt_deref _ _ _ Hat) in H. inversion H; subst es'.
  apply mapM_Forall2 in Hes'. eapply Forall2_impl; [|exact Hes'].
  intros e e' He. apply (enhanceRecord_keeps _ _ _ He).
Qed.

(** * The lines of the output *)

Lemma join_incl (a : ascii) sep : forall l,
  In a (join sep l) -> In a sep \/ exists x, In x l /\ In a x.
Proof.
  induction l as [|x l IH]; intros H; [destruct H|].
  destruct l as [|y l].
  - right. exists x. split; [left; reflexivity | exact H].
  - change (join sep (x :: y :: l)) with (x ++ sep ++ join sep (y :: l)) in H.
    apply in_app_or in H. destruct H as [H | H].
    + right. exists x. split; [left; reflexivity | exact H].
    + apply in_app_or in H. destruct H as [H | H]; [left; exact H|].
      destruct (IH H) as [Hs | (z & Hz & Ha)]; [left; exact Hs|].
      right. exists z. split; [right; exact Hz | exact Ha].
Qed.

Lemma tokens_space_free line :
  Forall (Forall (fun a => is_space a = false)) (tokensOf line).
Proof.
  unfold tokensOf.
  apply (splitRe_pieces spaces (fun a => is_space a = false) _ eq_refl spaces_at_space).
Qed.

Lemma token_no_LF (t : str) : Forall (fun a => is_space a = false) t -> ~ In LF t.
Proof.
  intros H Hin. rewrite Forall_forall in H. apply H in Hin. discriminate Hin.
Qed.

Lemma restText_no_LF line : ~ In LF (restTextOf line).
Proof.
  unfold restTextOf. intros H. apply join_incl in H.
  destruct H as [H | (t & Ht & Ha)]; [no_LF_literal H|].
  apply skipn_incl in Ht. pose proof (tokens_space_free line) as Hall.
  rewrite Forall_forall in Hall. apply (token_no_LF t (Hall t Ht) Ha).
Qed.

Lemma offsetOf_no_LF line : ~ In LF (offsetOf line).
Proof.
  unfold offsetOf. pose proof (tokens_space_free line) as Hall.
  destruct (tokensOf line) as [|t ts]; [intros []|].
  inversion Hall; subst. apply token_no_LF. assumption.
Qed.

Lemma typeOf_no_LF line ty : ToString (typeOf line) = Ok ty -> ~ In LF ty.
Proof.
  unfold typeOf. destruct (nth_error (tokensOf line) 1) as [t|] eqn:E.
  - destruct (str_eqb t (lit "Integer")); cbn [ToString]; intros H; inversion H; subst.
    + intros Hin. no_LF_literal Hin.
    + apply nth_error_In in E. pose proof (tokens_space_free line) as Hall.
      rewrite Forall_forall in Hall. apply token_no_LF, Hall, E.
  - cbn [ToString]. intros H. inversion H; subst. intros Hin. no_LF_literal Hin.
Qed.

Lemma tag_no_LF (t : str) : Forall tagChar t -> ~ In LF t.
Proof.
  intros H Hin. rewrite Forall_forall in H. apply H in Hin.
  destruct Hin as [Hin | Hin]; discriminate Hin.
Qed.

Lemma digits_no_LF (d : str) : Forall (fun a => is_digit a = true) d -> ~ In LF d.
Proof.
  intros H Hin. rewrite Forall_forall in H. apply H in Hin. discriminate Hin.
Qed.

Lemma bitsRange_no_LF seg start end_ desc :
  segMatch seg = Some (start, end_, desc) -> ~ In LF (bitsRange start end_).
Proof.
  intros Hm. apply segMatch_inv in Hm. destruct Hm as (_ & Hs & _ & He).
  rewrite bitsRange_spec by (intros e0 He0; apply (He e0 He0)).
  destruct end_ as [en|]; [|apply digits_no_LF; exact Hs].
  intros Hin. apply in_app_or in Hin. destruct Hin as [Hin | Hin].
  - apply (digits_no_LF start Hs Hin).
  - apply in_app_or in Hin. destruct Hin as [Hin | Hin]; [no_LF_literal Hin|].
    apply (digits_no_LF en (proj2 (He en eq_refl)) Hin).
Qed.

(** The matches of the scan are matches at places of the text. *)
Lemma execAll_at r c : forall s n,
  In c (execAll r s n) ->
  exists k rest, rmatch r (skipn k s) [] ret = Some (rest, c).
Proof.
  induction s as [|a s IH]; intros n H; cbn [execAll] in H.
  - contradiction.
  - assert (Hs : forall m, In c (execAll r s m) ->
                 exists k rest, rmatch r (skipn k (a :: s)) [] ret = Some (rest, c)).
    { intros m Hm. destruct (IH m Hm) as (k & rest & Hk). exists (S k), rest. exact Hk. }
    destruct n as [|n]; [|apply (Hs _ H)].
    destruct (rmatch r (a :: s) [] ret) as [[rest c0]|] eqn:E; [|apply (Hs _ H)].
    destruct (length (a :: s) - length rest); [contradiction|].
    destruct H as [<- | H]; [|apply (Hs _ H)].
    exists 0, rest. exact E.
Qed.

(** The label a value mapping captures is text of the string. *)
Lemma mapRegex_label_incl s rest c a :
  rmatch mapRegex s [] ret = Some (rest, c) -> In a (capd c 2) -> In a s.
Proof.
  intros H. apply rmatch_sound in H. destruct H as (s' & c' & H & Hk).
  unfold ret in Hk. inversion Hk; subst s' c'; clear Hk.
  unfold mapRegex in H.
  apply Matches_Seq_inv in H. destruct H as (s1 & c1 & Hg1 & H).
  apply Matches_group_plus in Hg1. destruct Hg1 as (value & _ & _ & -> & ->).
  apply Matches_Seq_inv in H. destruct H as (s2 & c2 & Hcolon & H).
  pose proof (Matches_capfree _ _ _ _ _ Hcolon eq_refl) as Hc2. subst c2.
  apply Matches_suffix in Hcolon. destruct Hcolon as (m2 & ->).
  apply Matches_Seq_inv in H. destruct H as (s3 & c3 & Hsp & H).
  pose proof (Matches_capfree _ _ _ _ _ Hsp eq_refl) as Hc3. subst c3.
  apply Matches_suffix in Hsp. destruct Hsp as (m3 & ->).
  apply Matches_Seq_inv in H. destruct H as (s4 & c4 & Hg2 & Hlook).
  apply Matches_group_plus in Hg2. destruct Hg2 as (text & _ & _ & -> & ->).
  apply Matches_capfree in Hlook; [subst c | reflexivity].
  unfold capd. cbn. intros Hin.
  apply in_or_app. right. apply in_or_app. right. apply in_or_app. right.
  apply in_or_app. left. exact Hin.
Qed.

Lemma evtOf_no_LF restText : ~ In LF restText -> ~ In LF (evtOf restText).
Proof.
  intros Hno H. unfold evtOf in H. apply join_incl in H.
  destruct H as [H | (x & Hx & Ha)]; [no_LF_literal H|].
  apply in_map_iff in Hx. destruct Hx as (mp & <- & Hmp).
  unfold mappingsOf in Hmp. apply in_map_iff in Hmp. destruct Hmp as (c & <- & Hc).
  apply execAll_at in Hc. destruct Hc as (k & rest & Hm).
  cbn [fst snd] in Ha. unfold clause in Ha.
  destruct Ha as [Ha | Ha]; [discriminate Ha|].
  apply in_app_or in Ha. destruct Ha as [Ha | Ha].
  - apply trim_incl in Ha. apply (mapRegex_label_incl _ _ _ _ Hm) in Ha.
    apply skipn_incl in Ha. apply (Hno Ha).
  - destruct Ha as [Ha | Ha]; [discriminate Ha|].
    apply in_app_or in Ha. destruct Ha as [Ha | Ha]; [no_LF_literal Ha|].
    apply in_app_or in Ha. destruct Ha as [Ha | Ha]; [|no_LF_literal Ha].
    apply mapRegex_label in Hm. destruct Hm as (value & text & H1 & _ & (_ & Hd) & _).
    unfold capd in Ha. rewrite H1 in Ha. apply (digits_no_LF value Hd Ha).
Qed.

Lemma paramNameOf_incl a restText : In a (paramNameOf restText) -> In a restText.
Proof.
  unfold paramNameOf. destruct (mappingsOf restText); intros H; apply trim_incl in H.
  - exact H.
  - assert (Hin : In (hd [] (splitRe numColon restText)) (splitRe numColon restText)
                  \/ hd [] (splitRe numColon restText) = []).
    { destruct (splitRe numColon restText); [right; reflexivity | left; left; reflexivity]. }
    destruct Hin as [Hin | Hnil]; [apply (splitRe_incl _ _ _ _ Hin H)|].
    rewrite Hnil in H. destruct H.
Qed.

(** A wire line holds no line feed when its fields hold none. *)
Lemma wireLine_no_LF ty id_ tag_ lb hb bs grp hbnd bnd_ hevt evt_ :
  ~ In LF ty -> ~ In LF id_ -> ~ In LF tag_ -> ~ In LF lb -> ~ In LF bs ->
  ~ In LF grp -> ~ In LF bnd_ -> ~ In LF evt_ ->
  ~ In LF (wireLine ty id_ tag_ lb hb bs grp hbnd bnd_ hevt evt_).
Proof.
  intros H1 H2 H3 H4 H5 H6 H7 H8 H. unfold wireLine in H.
  destruct hb, hbnd, hevt;
    repeat (apply in_app_or in H; destruct H as [H | H]);
    try contradiction; try (destruct H as [H | H]; [discriminate H | destruct H]);
    try no_LF_literal H.
Qed.

(** The fields of a record of the parser hold no line feed. *)
Lemma parser_fields_no_LF raw e :
  In e (parseRawDetails raw) ->
  (forall ty, ToString (type e) = Ok ty -> ~ In LF ty) /\
  ~ In LF (id e) /\ ~ In LF (tag e) /\
  (exists lb, label e = JStr lb /\ ~ In LF lb) /\
  (exists b, bits e = JStr b /\ ~ In LF b) /\
  ~ In LF (group e) /\ bnd e = [] /\ ~ In LF (evt e).
Proof.
  intros He.
  destruct (parseRawDetails_In raw e He) as (Hlen & line & Hline & Hin).
  destruct (parseLine_In _ _ _ Hin) as (Ho & Hi & Ht & Hg & Hb & Hbr).
  split; [rewrite Ht; apply typeOf_no_LF|].
  split; [rewrite Hi; apply offsetOf_no_LF|].
  assert (Hgrp : ~ In LF (group e)).
  { rewrite Hg. destruct (linesOf raw) as [|g ls] eqn:E; [simpl in Hlen; lia|].
    assert (Hg' : In g (linesOf raw)) by (rewrite E; left; reflexivity).
    apply linesOf_In in Hg'. apply Hg'. }
  pose proof (restText_no_LF line) as Hrest.
  destruct Hbr as [(seg & k & start & end_ & desc & Hseg & Hm & Htag & Hl & Hbits & Hevt)
                  | (Htag & Hl & Hbits & Hevt)].
  - split.
    { rewrite Htag. apply tag_no_LF. apply Forall_app. split; [apply synthTag_tagChar|].
      apply Forall_app. split; [repeat constructor; right; reflexivity|].
      eapply Forall_impl; [|apply dec_digits]. apply digit_tagChar. }
    split.
    { exists (trim desc). split; [exact Hl|]. intros Hd. apply trim_incl in Hd.
      destruct (segmentsOf_In _ seg Hseg) as (_ & _ & Hend & Hno).
      destruct (segMatch_desc seg start end_ desc Hno Hend Hm) as (_ & _ & pre & E).
      apply Hrest. apply (segmentsOf_incl _ _ _ Hseg). rewrite E.
      apply in_or_app. right. exact Hd. }
    split; [exists (bitsRange start end_); split;
            [exact Hbits | apply (bitsRange_no_LF _ _ _ _ Hm)]|].
    split; [exact Hgrp|]. split; [exact Hb|]. rewrite Hevt. intros [].
  - split; [rewrite Htag; apply tag_no_LF, synthTag_tagChar|].
    split.
    { eexists. split; [exact Hl|]. intros Hd. apply Hrest.
      apply (paramNameOf_incl _ _ Hd). }
    split; [exists []; split; [exact Hbits | intros []]|].
    split; [exact Hgrp|]. split; [exact Hb|].
    rewrite Hevt. apply evtOf_no_LF. exact Hrest.
Qed.

Lemma parser_line_no_LF raw e line :
  In e (parseRawDetails raw) -> pointLine e = Ok line -> ~ In LF line.
Proof.
  intros He Hp. apply pointLine_wire in Hp.
  destruct Hp as (ty & lb & bs & Hty & Hlb & Hbs & ->).
  destruct (parser_fields_no_LF raw e He)
    as (H1 & H2 & H3 & (lb' & Hl & H4) & (b & Hb & H5) & H6 & H7 & H8).
  rewrite Hl in Hlb. cbn [ToString] in Hlb. inversion Hlb; subst lb'.
  apply wireLine_no_LF; auto.
  - rewrite Hb in Hbs. destruct (truthy (JStr b)).
    + cbn [ToString] in Hbs. inversion Hbs; subst. exact H5.
    + subst bs. intros [].
  - rewrite H7. intros [].
Qed.

(** * The tokens of a line *)

Lemma split_go_skip r : forall s n piece,
  n <= length s -> split_go r s n piece = split_go r (skipn n s) 0 piece.
Proof.
  induction s as [|a s IH]; intros n piece Hn.
  - destruct n; [reflexivity | simpl in Hn; lia].
  - destruct n as [|n]; [reflexivity|].
    cbn [split_go skipn]. apply IH. simpl in Hn. lia.
Qed.

Lemma dropWhile_split p : forall s,
  exists m, s = m ++ dropWhile p s /\ Forall (fun a => p a = true) m.
Proof.
  induction s as [|a s (m & Hm & Hp)].
  - exists []. split; [reflexivity | constructor].
  - cbn [dropWhile]. destruct (p a) eqn:E.
    + exists (a :: m). split; [cbn; f_equal; exact Hm | constructor; assumption].
    + exists []. split; [reflexivity | constructor].
Qed.

Lemma skipn_dropWhile p s :
  skipn (length s - length (dropWhile p s)) s = dropWhile p s.
Proof.
  destruct (dropWhile_split p s) as (m & Hm & _).
  rewrite Hm at 1 3. rewrite length_app.
  replace (length m + length (dropWhile p s) - length (dropWhile p s))
    with (length m) by lia.
  rewrite skipn_app, skipn_all, Nat.sub_diag. reflexivity.
Qed.

Lemma spaces_here a s :
  rmatch spaces (a :: s) [] ret =
  if is_space a then Some (dropWhile is_space s, []) else None.
Proof.
  unfold spaces, space. rewrite rmatch_plus. destruct (is_space a); [|reflexivity].
  apply greedy_run_ret.
Qed.

(** A string of white space only does not end with a code unit that
    is none. *)
Lemma all_space_end (s : str) :
  s <> [] -> Forall (fun a => is_space a = true) s -> ~ stops is_space (rev s).
Proof.
  intros Hne Hall Hs. apply Forall_rev in Hall.
  destruct (rev s) as [|x t] eqn:E.
  - apply Hne. rewrite <- (rev_involutive s), E. reflexivity.
  - inversion Hall as [|? ? Hx _]; subst. simpl in Hs. congruence.
Qed.

(** The pieces of a split at white space, for a string that does not
    end with white space, when the current piece is not empty or the
    string does not begin with white space. *)
Lemma split_go_tokens : forall n s piece,
  length s <= n ->
  piece <> [] \/ (exists a s', s = a :: s' /\ is_space a = false) ->
  stops is_space (rev s) ->
  Forall (fun t => t <> []) (split_go spaces s 0 piece).
Proof.
  induction n as [|n IH]; intros s piece Hn Hstart Hend.
  - destruct s; [|simpl in Hn; lia]. cbn. constructor; [|constructor].
    destruct Hstart as [Hp | (a & s' & E & _)]; [|discriminate E].
    intros E. apply Hp. rewrite <- (rev_involutive piece), E. reflexivity.
  - destruct s as [|a s].
    + cbn. constructor; [|constructor].
      destruct Hstart as [Hp | (a & s' & E & _)]; [|discriminate E].
      intros E. apply Hp. rewrite <- (rev_involutive piece), E. reflexivity.
    + cbn [split_go]. rewrite spaces_here. destruct (is_space a) eqn:Ea.
      * assert (Hp : piece <> []).
        { destruct Hstart as [Hp | (b & s' & E & Hb)]; [exact Hp|].
          inversion E; subst. congruence. }
        pose proof (dropWhile_length is_space s) as Hlen.
        replace (length (a :: s) - length (dropWhile is_space s))
          with (S (length s - length (dropWhile is_space s)))
          by (cbn [length]; lia).
        constructor.
        { intros E. apply Hp. rewrite <- (rev_involutive piece), E. reflexivity. }
        rewrite split_go_skip by lia. rewrite skipn_dropWhile.
        destruct (dropWhile_split is_space s) as (m & Hm & Hall).
        pose proof (dropWhile_stops is_space s) as Hstop.
        destruct (dropWhile is_space s) as [|b r] eqn:Ed.
        -- exfalso. rewrite app_nil_r in Hm. subst m.
           apply (all_space_end (a :: s)); [discriminate | | exact Hend].
           constructor; assumption.
        -- apply IH.
           ++ simpl in Hn, Hlen |- *. lia.
           ++ right. exists b, r. split; [reflexivity | exact Hstop].
           ++ apply (stops_rev_suffix _ (a :: m)); [discriminate|].
              cbn [app]. rewrite <- Hm. exact Hend.
      * apply IH.
        -- simpl in Hn. lia.
        -- left. discriminate.
        -- apply (stops_rev_tail _ a). exact Hend.
Qed.

Lemma typoRe_digits s rest c :
  rmatch typoRe s [] ret = Some (rest, c) ->
  capd c 1 <> [] /\ Forall (fun a => is_digit a = true) (capd c 1).
Proof.
  intros H. apply rmatch_sound in H. destruct H as (s' & c' & H & Hk).
  unfold ret in Hk. inversion Hk; subst s' c'; clear Hk.
  unfold typoRe in H.
  apply Matches_Seq_inv in H. destruct H as (s1 & c1 & Hw & H).
  apply Matches_group_plus in H. destruct H as (m & Hne & Hm & _ & ->).
  unfold capd. cbn. split; assumption.
Qed.

Lemma digits_end (d t : str) :
  d <> [] -> Forall (fun a => is_digit a = true) d -> stops is_space (rev (t ++ d)).
Proof.
  intros Hne Hd. rewrite rev_app_distr. apply Forall_rev in Hd.
  destruct (rev d) as [|x r] eqn:E.
  - exfalso. apply Hne. rewrite <- (rev_involutive d), E. reflexivity.
  - inversion Hd; subst. cbn. apply digit_not_space. assumption.
Qed.

(** The typo rewrite keeps a line from ending with white space. *)
Lemma normalize_end : forall n s,
  length s <= n -> s <> [] -> stops is_space (rev s) ->
  normalize s <> [] /\ stops is_space (rev (normalize s)).
Proof.
  induction n as [|n IH]; intros s Hn Hne Hend.
  - destruct s; [contradiction | simpl in Hn; lia].
  - destruct s as [|a s]; [contradiction|].
    destruct (rmatch typoRe (a :: s) [] ret) as [[rest c]|] eqn:E.
    + destruct (normalize_match _ _ _ E) as (-> & Hlt).
      destruct (typoRe_digits _ _ _ E) as (Hd0 & Hd).
      split; [discriminate|].
      destruct rest as [|b rest'].
      * rewrite normalize_nil, app_nil_r. apply digits_end; assumption.
      * destruct (rmatch_consuming typoRe _ _ _ eq_refl E) as (m & _ & Hr).
        assert (Hsuf : stops is_space (rev (b :: rest'))).
        { apply (stops_rev_suffix _ (firstn (S m) (a :: s))); [discriminate|].
          rewrite Hr, firstn_skipn. exact Hend. }
        destruct (IH (b :: rest')) as (Hn0 & Hn1);
          [simpl in Hn, Hlt |- *; lia | discriminate | exact Hsuf|].
        rewrite !app_assoc, rev_app_distr. apply stops_app_l; [|exact Hn1].
        intros E0. apply Hn0. rewrite <- (rev_involutive (normalize _)), E0. reflexivity.
    + rewrite (normalize_nomatch _ _ E). split; [discriminate|].
      destruct s as [|b s'].
      * rewrite normalize_nil. exact Hend.
      * destruct (IH (b :: s')) as (Hn0 & Hn1);
          [simpl in Hn |- *; lia | discriminate | apply (stops_rev_tail _ a); exact Hend|].
        cbn [rev]. apply stops_app_l; [|exact Hn1].
        intros E0. apply Hn0. rewrite <- (rev_involutive (normalize _)), E0. reflexivity.
Qed.

(** The tokens of a line without white space at its ends. *)
Lemma tokensOf_tokens line :
  line <> [] -> stops is_space line -> stops is_space (rev line) ->
  Forall (fun t => t <> [] /\ Forall (fun a => is_space a = false) t) (tokensOf line).
Proof.
  intros Hne Hl Hr.
  assert (H1 : Forall (fun t => t <> []) (tokensOf line)).
  { unfold tokensOf.
    destruct (normalize_end (length line) line (Nat.le_refl _) Hne Hr) as (Hn0 & Hn1).
    destruct line as [|x t]; [contradiction|]. simpl in Hl.
    destruct (normalize_head x t Hl) as (y & t' & E & Hy).
    rewrite E in *. unfold splitRe.
    apply (split_go_tokens (length (y :: t'))); [lia | | exact Hn1].
    right. exists y, t'. split; [reflexivity | exact Hy]. }
  pose proof (tokens_space_free line) as H2.
  rewrite Forall_forall in *. intros t Ht. split; [apply H1 | apply H2]; exact Ht.
Qed.

(** * The records and the lines of the engine *)

Lemma parser_identity raw e :
  In e (parseRawDetails raw) ->
  id e = offset e /\ bnd e = [] /\ Forall tagChar (tag e).
Proof.
  intros He. destruct (parseRawDetails_In raw e He) as (_ & line & _ & Hin).
  destruct (parseLine_In _ _ _ Hin) as (Ho & Hi & _ & _ & Hb & Hbr).
  split; [congruence|]. split; [exact Hb|].
  destruct Hbr as [(seg & k & start & end_ & desc & _ & _ & -> & _) | (-> & _)].
  - apply Forall_app. split; [apply synthTag_tagChar|].
    apply Forall_app. split; [repeat constructor; right; reflexivity|].
    eapply Forall_impl; [|apply dec_digits]. apply digit_tagChar.
  - apply synthTag_tagChar.
Qed.

Lemma Forall2_transfer {A B : Type} (R : A -> B -> Prop) (P : A -> Prop)
    (Q : B -> Prop) (l : list A) (l' : list B) :
  (forall x y, R x y -> P x -> Q y) -> Forall2 R l l' -> Forall P l -> Forall Q l'.
Proof.
  intros H HR. induction HR as [|x y l l' Hxy _ IH]; intros HP; [constructor|].
  inversion HP; subst. constructor; [apply (H x y) | apply IH]; assumption.
Qed.

Lemma wireLine_ends ty id_ tag_ lb hb bs grp hbnd bnd_ hevt evt_ :
  wireLine ty id_ tag_ lb hb bs grp hbnd bnd_ hevt evt_ <> [] /\
  stops is_space (wireLine ty id_ tag_ lb hb bs grp hbnd bnd_ hevt evt_) /\
  stops is_space (rev (wireLine ty id_ tag_ lb hb bs grp hbnd bnd_ hevt evt_)).
Proof.
  split; [unfold wireLine; discriminate|]. split; [reflexivity|].
  unfold wireLine. rewrite !app_assoc, rev_app_distr. reflexivity.
Qed.

Lemma mapM_length {A B : Type} (f : A -> result B) : forall l ys,
  mapM f l = Ok ys -> length ys = length l.
Proof.
  intros l ys H. apply mapM_Forall2 in H.
  induction H as [|x y l ys _ _ IH]; [reflexivity | simpl; rewrite IH; reflexivity].
Qed.

(** The wire lines of the records of the parser are clean lines. *)
Lemma parser_lines_clean raw lines :
  mapM pointLine (parseRawDetails raw) = Ok lines -> Forall cleanLine lines.
Proof.
  intros H. apply mapM_Forall2 in H.
  assert (Hin : Forall (fun e => In e (parseRawDetails raw)) (parseRawDetails raw))
    by (apply Forall_forall; auto).
  revert Hin. apply Forall2_transfer with (R := fun e line => pointLine e = Ok line);
    [|exact H].
  intros e line Hp He. pose proof (parser_line_no_LF raw e line He Hp) as Hno.
  apply pointLine_wire in Hp. destruct Hp as (ty & lb & bs & _ & _ & _ & ->).
  destruct (wireLine_ends ty (id e) (tag e) lb (truthy (bits e)) bs (group e)
              (nonempty (bnd e)) (bnd e) (nonempty (evt e)) (evt e))
    as (H1 & H2 & H3).
  repeat split; assumption.
Qed.

(** * The model on the scenarios of the specification *)

(** Scenario 1: two bit-field records. *)
Example scenario_status_word :
  map (fun e => (offset e, type e, tag e, bits e, group e))
      (parseRawDetails (lit "Status Word" ++ [LF] ++ lineStatus))
  = [ (lit "100", JStr (lit "DI"), lit "READY_1", JStr (lit "0"), lit "Status Word");
      (lit "100", JStr (lit "DI"), lit "MODE_2", JStr (lit "1-2"), lit "Status Word") ].
Proof. vm_compute. reflexivity. Qed.

(** Scenario 3: a single line gives no record. *)
Example scenario_one_line : parseRawDetails (lit "JustOneLine") = [].
Proof. vm_compute. reflexivity. Qed.

(** Scenario 4: a response without braces leaves the records alone,
    whatever [JSON.parse] does. *)
Example scenario_no_json (JSON_parse : str -> option jsval) :
  enhanceWithAI JSON_parse [speedEntry] [0] (lit "I cannot help with that.")
  = Ok ([0], [speedEntry]).
Proof.
  unfold enhanceWithAI, safeParseJson.
  rewrite search_jsonObjRe_no_brace; [reflexivity|].
  vm_compute. intuition discriminate.
Qed.

(** The typo rewrite. *)
Example normalize_bits10 :
  normalize (lit "100 Integer bits10-11: Mode") = lit "100 Integer Bits 10-11: Mode".
Proof. vm_compute. reflexivity. Qed.

(** A comma splits segments only before a keyword and a number. *)
Example segments_comma :
  segmentsOf (lit "Bits 0: Ready, set; Bits 1-2: Mode, Bits 3: Run")
  = [lit "Bits 0: Ready, set"; lit "Bits 1-2: Mode"; lit "Bits 3: Run"].
Proof. vm_compute. reflexivity. Qed.

(** A line of one token has an undefined type, printed as such. *)
Example one_token_line :
  generatePointFile (fun _ => None) (lit "G" ++ [LF] ++ lit "100") false [] []
  = Ok (lit ":SAFRAN_X:PNT: undefined:100::" ++ quoted [] ++ lit ":grp "
        ++ quoted (lit "G") ++ lit ":").
Proof. vm_compute. reflexivity. Qed.

(** [parseInt] reads a prefix, a sign and hexadecimal. *)
Example parseInt_samples :
  parseInt (lit " -12abc") = Fin (-12) /\ parseInt (lit "0x1F") = Fin 31 /\
  parseInt (lit "abc") = NaN /\ parseInt [] = NaN /\
  parseInt (lit "9007199254740993") = Fin 9007199254740992.
Proof. repeat split; vm_compute; reflexivity. Qed.

(** * The properties of the specification *)

(** C1. The output of the line builder is the wire lines of the records,
    in record order, joined by a newline.  Each line is
    [:SAFRAN_X:PNT: ] followed by type, id, tag, the quoted label and the
    grp clause, and ends with [:]; the [ [Bits <bits>]] suffix is inside
    the quotes exactly when [bits] is truthy, the [:bnd] clause exactly
    when [bnd] is not empty, the [:evt] clause exactly when [evt] is not
    empty.  For a record whose type, label and bits are strings, as the
    parser makes them, the suffix is there exactly when [bits] is not
    empty. *)
Theorem C1_wire_format (entries : list entry) (out : str) :
  (buildOutput entries = Ok out <->
   exists lines, Forall2 wireLineOf entries lines /\ out = join [LF] lines) /\
  (forall e ty lb b,
     In e entries ->
     type e = JStr ty -> label e = JStr lb -> bits e = JStr b ->
     pointLine e =
     Ok (wireLine ty (id e) (tag e) lb (nonempty b) b (group e)
           (nonempty (bnd e)) (bnd e) (nonempty (evt e)) (evt e))).
Proof.
  split.
  - unfold buildOutput. split.
    + intros H.
      on_ok (mapM pointLine entries) as lines Hl in H.
      inversion H; subst; clear H. exists lines. split; [|reflexivity].
      apply mapM_Forall2 in Hl.
      induction Hl; constructor; [apply pointLine_wire|]; assumption.
    + intros (lines & Hall & ->).
      assert (Hl : mapM pointLine entries = Ok lines).
      { apply mapM_Forall2.
        induction Hall; constructor; [apply pointLine_wire|]; assumption. }
      rewrite Hl. reflexivity.
  - intros e ty lb b _ Hty Hlb Hb. apply pointLine_wire.
    exists ty, lb, b. rewrite Hty, Hlb, Hb. cbn [ToString truthy].
    split; [reflexivity|]. split; [reflexivity|]. split; [|reflexivity].
    destruct b; reflexivity.
Qed.

Lemma C1_wire_format_witness :
  buildOutput [speedEntry; otherEntry] =
  Ok (lit ":SAFRAN_X:PNT: Word:200:SPEED:" ++ quoted (lit "Speed") ++ lit ":grp "
      ++ quoted (lit "Config") ++ lit ":evt " ++ evt speedEntry ++ lit ":" ++ [LF]
      ++ lit ":SAFRAN_X:PNT: Word:abc:OTHER:" ++ quoted (lit "Other") ++ lit ":grp "
      ++ quoted (lit "Config") ++ lit ":").
Proof.
  apply (proj2 (proj1 (C1_wire_format [speedEntry; otherEntry] _))).
  eexists [_; _]. split.
  - constructor; [|constructor; [|constructor]].
    + exists (lit "Word"), (lit "Speed"), []. repeat split.
    + exists (lit "Word"), (lit "Other"), []. repeat split.
  - vm_compute. reflexivity.
Defined.





(** C4. When the payload holds no text the pattern of [safeParseJson]
    matches, or [JSON.parse] refuses the matched text, or it decodes to
    an object without a [parameters] field, the merge returns the list of
    records it was given, leaves the store as it is, and does not
    raise. *)
Theorem C4_fail_open (JSON_parse : str -> option jsval)
    (h : heap) (entries : list nat) (aiData : str) :
  (search jsonObjRe aiData 0 = None \/
   exists i text c,
     search jsonObjRe aiData 0 = Some (i, text, c) /\
     (JSON_parse text = None \/
      exists fields,
        JSON_parse text = Some (JObj fields) /\
        lookup (lit "parameters") fields = None)) ->
  enhanceWithAI JSON_parse h entries aiData = Ok (entries, h).
Proof.
  intros H. unfold enhanceWithAI, safeParseJson.
  destruct H as [-> | (i & text & c & -> & [-> | (fields & -> & Hp)])].
  - reflexivity.
  - reflexivity.
  - cbn [truthy negb getProp]. rewrite Hp. reflexivity.
Qed.

Lemma C4_fail_open_witness :
  search jsonObjRe (lit "Sorry: " ++ payloadNoParameters) 0
    = Some (7, payloadNoParameters, []) /\
  decodes payloadNoParameters jsonNoParameters payloadNoParameters
    = Some jsonNoParameters /\
  enhanceWithAI (decodes payloadNoParameters jsonNoParameters)
    [speedEntry; otherEntry] [0; 1] (lit "Sorry: " ++ payloadNoParameters)
  = Ok ([0; 1], [speedEntry; otherEntry]).
Proof.
  assert (Hs : search jsonObjRe (lit "Sorry: " ++ payloadNoParameters) 0
               = Some (7, payloadNoParameters, [])) by (vm_compute; reflexivity).
  assert (Hd : decodes payloadNoParameters jsonNoParameters payloadNoParameters
               = Some jsonNoParameters) by (vm_compute; reflexivity).
  split; [exact Hs|]. split; [exact Hd|].
  apply C4_fail_open. right.
  exists 7, payloadNoParameters, []. split; [exact Hs|].
  right. exists [(lit "group", JStr (lit "Config"))].
  split; [exact Hd | vm_compute; reflexivity].
Defined.



(** C6, as the code has it.  For a record that an enrichment entry
    matches, the merge returns a new object and leaves the given one as
    it was; the new record has the offset, type, id, tag, group and bnd
    of the old one; its label is the entry's [name] when that is truthy
    (there, and not the empty string, null, false or zero) and the old
    label otherwise, its bits likewise the entry's [bits]; its evt is
    rebuilt from the entry's [values] when that is truthy and is the old
    evt otherwise. *)
Theorem C6_merged_record (JSON_parse : str -> option jsval)
    (h : heap) (entries : list nat) (aiData : str)
    (entries' : list nat) (h' : heap) (ps : list jsval) :
  enhanceWithAI JSON_parse h entries aiData = Ok (entries', h') ->
  getProp (safeParseJson JSON_parse aiData) (lit "parameters") = Ok (JArr ps) ->
  (forall r e, nth_error h r = Some e -> nth_error h' r = Some e) /\
  Forall2 (fun r r' =>
    forall e aiParam,
      nth_error h r = Some e ->
      findParam ps (offset e) = Ok (Some aiParam) ->
      length h <= r' /\
      exists e' name bits_ values,
        nth_error h' r' = Some e' /\
        getProp aiParam (lit "name") = Ok name /\
        getProp aiParam (lit "bits") = Ok bits_ /\
        getProp aiParam (lit "values") = Ok values /\
        offset e' = offset e /\ type e' = type e /\ id e' = id e /\
        tag e' = tag e /\ group e' = group e /\ bnd e' = bnd e /\
        label e' = (if truthy name then name else label e) /\
        bits e' = (if truthy bits_ then bits_ else bits e) /\
        evtMerged values (evt e) (evt e')) entries entries'.
Proof.
  unfold enhanceWithAI. intros H Hp. rewrite Hp in H.
  assert (Hai : truthy (safeParseJson JSON_parse aiData) = true).
  { destruct (safeParseJson JSON_parse aiData); simpl in Hp; try discriminate Hp;
      try (inversion Hp; fail). reflexivity. }
  rewrite Hai in H. cbn [negb bind truthy] in H.
  destruct (enhanceEntries_grows _ _ _ _ _ H) as [t ->].
  split; [intros r e He; apply nth_error_prefix; exact He|].
  rewrite <- (app_nil_r h) in H at 1.
  apply enhanceEntries_spec in H.
  induction H as [|r r' rest rest' Hr _ IH]; constructor; [|exact IH].
  intros e aiParam He Hf. specialize (Hr e He). rewrite Hf in Hr.
  destruct Hr as (Hfresh & name & bits_ & values & evt_ & Hn & Hb & Hv & Hevt & Hnew).
  split; [exact Hfresh|].
  exists (merged e name bits_ evt_), name, bits_, values.
  repeat split; assumption.
Qed.

Lemma C6_merged_record_witness :
  enhanceWithAI (decodes payloadBits jsonBits)
    [speedEntry; otherEntry] [0; 1] payloadBits
  = Ok ([2; 1],
        [speedEntry; otherEntry;
         merged speedEntry JUndefined (JStr (lit "0-3")) (evt speedEntry)]) /\
  getProp (safeParseJson (decodes payloadBits jsonBits) payloadBits)
    (lit "parameters") = Ok (JArr [entryBits]) /\
  (forall r e, nth_error [speedEntry; otherEntry] r = Some e ->
     nth_error
       [speedEntry; otherEntry;
        merged speedEntry JUndefined (JStr (lit "0-3")) (evt speedEntry)] r = Some e) /\
  Forall2 (fun r r' =>
    forall e aiParam,
      nth_error [speedEntry; otherEntry] r = Some e ->
      findParam [entryBits] (offset e) = Ok (Some aiParam) ->
      length [speedEntry; otherEntry] <= r' /\
      exists e' name bits_ values,
        nth_error
          [speedEntry; otherEntry;
           merged speedEntry JUndefined (JStr (lit "0-3")) (evt speedEntry)] r'
          = Some e' /\
        getProp aiParam (lit "name") = Ok name /\
        getProp aiParam (lit "bits") = Ok bits_ /\
        getProp aiParam (lit "values") = Ok values /\
        offset e' = offset e /\ type e' = type e /\ id e' = id e /\
        tag e' = tag e /\ group e' = group e /\ bnd e' = bnd e /\
        label e' = (if truthy name then name else label e) /\
        bits e' = (if truthy bits_ then bits_ else bits e) /\
        evtMerged values (evt e) (evt e')) [0; 1] [2; 1].
Proof.
  assert (H : enhanceWithAI (decodes payloadBits jsonBits)
                [speedEntry; otherEntry] [0; 1] payloadBits
              = Ok ([2; 1],
                    [speedEntry; otherEntry;
                     merged speedEntry JUndefined (JStr (lit "0-3")) (evt speedEntry)]))
    by (vm_compute; reflexivity).
  assert (Hp : getProp (safeParseJson (decodes payloadBits jsonBits) payloadBits)
                 (lit "parameters") = Ok (JArr [entryBits]))
    by (vm_compute; reflexivity).
  split; [exact H|]. split; [exact Hp|].
  exact (C6_merged_record _ _ _ _ _ _ _ H Hp).
Defined.

(** C6 as stated fails: the entry that matches the record has a [name],
    the empty string, and the label of the merged record is still the
    old label. *)
Lemma C6_counterexample :
  exists e',
    enhanceWithAI (decodes payloadEmptyName jsonEmptyName)
      [speedEntry] [0] payloadEmptyName = Ok ([1], [speedEntry; e']) /\
    findParam [entryEmptyName] (offset speedEntry) = Ok (Some entryEmptyName) /\
    getProp entryEmptyName (lit "name") = Ok (JStr []) /\
    label e' = JStr (lit "Speed") /\
    label e' <> JStr [].
Proof.
  exists (merged speedEntry (JStr []) JUndefined (evt speedEntry)).
  repeat split; try (vm_compute; reflexivity).
  vm_compute. discriminate.
Qed.





(** C9, as the code has it.  The label of a value-mapped record is the
    whole of [restText], trimmed, when no value mapping is found; when
    one is found, it is what stands before the first number-colon (a run
    of digits and a colon) of [restText], trimmed, whether or not that
    number-colon begins a mapping. *)
Theorem C9_param_name (groupName line : str) :
  isBitField line = false ->
  exists e,
    parseLine groupName line = [e] /\
    (mappingsOf (restTextOf line) = [] ->
     label e = JStr (trim (restTextOf line))) /\
    (mappingsOf (restTextOf line) <> [] ->
     exists i m c,
       search numColon (restTextOf line) 0 = Some (i, m, c) /\
       label e = JStr (trim (firstn i (restTextOf line)))).
Proof.
  intros Hv. rewrite (parseLine_value groupName _ Hv).
  eexists. split; [reflexivity|]. cbn [label]. unfold paramNameOf. split.
  - intros ->. reflexivity.
  - intros Hne.
    destruct (search numColon (restTextOf line) 0) as [[[i m] c]|] eqn:E;
      [|exfalso; exact (mappingsOf_numColon _ Hne E)].
    exists i, m, c. split; [reflexivity|].
    destruct (mappingsOf (restTextOf line)) as [|mp mps]; [contradiction|].
    rewrite (splitRe_hd numColon _ _ _ _ eq_refl E). reflexivity.
Qed.

Lemma C9_param_name_witness :
  isBitField (lit "300 Word A 1: b: 2: c") = false /\
  exists e,
    parseLine (lit "G") (lit "300 Word A 1: b: 2: c") = [e] /\
    (mappingsOf (restTextOf (lit "300 Word A 1: b: 2: c")) = [] ->
     label e = JStr (trim (restTextOf (lit "300 Word A 1: b: 2: c")))) /\
    (mappingsOf (restTextOf (lit "300 Word A 1: b: 2: c")) <> [] ->
     exists i m c,
       search numColon (restTextOf (lit "300 Word A 1: b: 2: c")) 0
         = Some (i, m, c) /\
       label e = JStr (trim (firstn i (restTextOf (lit "300 Word A 1: b: 2: c"))))).
Proof.
  assert (Hv : isBitField (lit "300 Word A 1: b: 2: c") = false)
    by (vm_compute; reflexivity).
  split; [exact Hv|].
  exact (C9_param_name (lit "G") (lit "300 Word A 1: b: 2: c") Hv).
Defined.

(** C9 as stated fails: in [A 1: b: 2: c] the only value mapping is
    [2: c], at index 8, and what stands before it is [A 1: b:]; the
    label is [A], what stands before the number-colon [1:], which begins
    no mapping. *)
Lemma C9_counterexample :
  restTextOf (lit "300 Word A 1: b: 2: c") = lit "A 1: b: 2: c" /\
  mappingsOf (lit "A 1: b: 2: c") = [(lit "2", lit "c")] /\
  (exists c, search mapRegex (lit "A 1: b: 2: c") 0 = Some (8, lit "2: c", c)) /\
  trim (firstn 8 (lit "A 1: b: 2: c")) = lit "A 1: b:" /\
  map label (parseLine (lit "G") (lit "300 Word A 1: b: 2: c")) = [JStr (lit "A")].
Proof.
  repeat split; try (vm_compute; reflexivity).
  eexists. vm_compute. reflexivity.
Qed.

(** C10, as the code has it.  A record of the parser is a bit-field
    member, with bits that are not empty and an empty evt, or has empty
    bits: of bits and evt at most one is not empty.  (The merge sets the
    two fields independently and does not keep this.) *)
Theorem C10_parser_bits_evt_exclusive (raw : str) (e : entry) :
  In e (parseRawDetails raw) ->
  (exists b, bits e = JStr b /\ b <> [] /\ evt e = []) \/ bits e = JStr [].
Proof.
  rewrite parseRawDetails_lines.
  generalize (hd [] (linesOf raw)) as g. intros g Hin.
  apply in_flat_map in Hin. destruct Hin as (line & _ & Hin).
  destruct (isBitField line) eqn:Hb.
  - left. unfold parseLine in Hin. unfold isBitField in Hb. rewrite Hb in Hin.
    apply bitEntries_In in Hin.
    destruct Hin as (seg & k & [[start end_] desc] & _ & Hm & ->).
    exists (bitsRange start end_). split; [reflexivity|]. split; [|reflexivity].
    apply segMatch_inv in Hm. destruct Hm as (Hs & _ & _ & He).
    rewrite bitsRange_spec by (intros e0 He0; apply (He e0 He0)).
    destruct end_ as [en|]; [|exact Hs].
    destruct start; [contradiction | discriminate].
  - right. rewrite (parseLine_value g _ Hb) in Hin.
    destruct Hin as [<- | []]. reflexivity.
Qed.

Lemma C10_parser_bits_evt_exclusive_witness :
  In speedEntry (parseRawDetails rawConfig) /\
  ((exists b, bits speedEntry = JStr b /\ b <> [] /\ evt speedEntry = []) \/
   bits speedEntry = JStr []).
Proof.
  assert (Hin : In speedEntry (parseRawDetails rawConfig)).
  { rewrite parse_rawConfig. left. reflexivity. }
  split; [exact Hin|].
  exact (C10_parser_bits_evt_exclusive rawConfig speedEntry Hin).
Defined.

(** C10 as stated fails after a merge: the value-mapped record of
    scenario 2 keeps its evt and receives the bits of the entry that
    matches it. *)
Lemma C10_counterexample :
  exists e,
    engineRecords (decodes payloadBits jsonBits) rawConfig true (lit "key") payloadBits
      = Ok [e] /\
    bits e = JStr (lit "0-3") /\
    evt e = quoted (lit "Slow") ++ lit "==0,0:" ++ quoted (lit "Fast") ++ lit "==1,0".
Proof.
  exists (merged speedEntry JUndefined (JStr (lit "0-3")) (evt speedEntry)).
  repeat split; vm_compute; reflexivity.
Qed.

(** * Further properties of the code *)

(** ** The lines of the input *)

(** X1. An input without a line feed has no detail line, whatever else
    it holds (carriage returns alone do not separate lines): the parser
    returns no record. *)
Theorem X1_no_line_feed_no_records (raw : str) :
  ~ In LF raw -> length (linesOf raw) <= 1 /\ parseRawDetails raw = [].
Proof.
  intros H. pose proof (linesOf_single raw H) as Hl. split; [exact Hl|].
  unfold parseRawDetails.
  assert (E : (length (linesOf raw) <? 2) = true) by (apply Nat.ltb_lt; lia).
  rewrite E. reflexivity.
Qed.

Lemma X1_no_line_feed_no_records_witness :
  ~ In LF (lit "Status" ++ [CR] ++ lit "100 Integer Ready") /\
  length (linesOf (lit "Status" ++ [CR] ++ lit "100 Integer Ready")) <= 1 /\
  parseRawDetails (lit "Status" ++ [CR] ++ lit "100 Integer Ready") = [].
Proof.
  assert (H : ~ In LF (lit "Status" ++ [CR] ++ lit "100 Integer Ready")).
  { cbv. intros H.
    repeat (destruct H as [H | H]; [discriminate H|]). exact H. }
  split; [exact H|].
  exact (X1_no_line_feed_no_records _ H).
Defined.

(** X2. The lines the parser works on are not empty, have no white
    space at either end and hold no line feed: blank lines and the
    white space around a line are dropped, and trimming a line again
    changes nothing. *)
Theorem X2_lines_clean (raw : str) :
  Forall (fun l => cleanLine l /\ trim l = l) (linesOf raw).
Proof.
  apply Forall_forall. intros l Hl.
  pose proof (linesOf_In raw l Hl) as H. split; [exact H|].
  destruct H as (_ & H2 & H3 & _). apply trim_id; assumption.
Qed.



(** ** The typo rewrite and the tokens *)

(** X4. The typo rewrite changes nothing in a line where the letters
    b, i, t (in either case) do not follow one another: such a line is
    split into tokens as it stands. *)
Theorem X4_rewrite_needs_keyword (line : str) :
  hasBit line = false ->
  normalize line = line /\ tokensOf line = splitRe spaces line.
Proof.
  intros H.
  assert (E : normalize line = line).
  { unfold normalize, replaceAll. apply replace_go_none.
    intros k. apply rmatch_typoRe_none. apply hasBit_skipn. exact H. }
  split; [exact E|]. unfold tokensOf. rewrite E. reflexivity.
Qed.

Lemma X4_rewrite_needs_keyword_witness :
  hasBit lineSpeed = false /\
  normalize lineSpeed = lineSpeed /\ tokensOf lineSpeed = splitRe spaces lineSpeed.
Proof.
  assert (H : hasBit lineSpeed = false) by (vm_compute; reflexivity).
  split; [exact H|].
  exact (X4_rewrite_needs_keyword lineSpeed H).
Defined.

(** X5. After the typo rewrite the typo pattern matches nowhere in the
    line (between [Bits] and the number there is a blank), and a second
    rewrite changes nothing. *)
Theorem X5_rewrite_idempotent (line : str) :
  (forall k, typoAt (skipn k (normalize line)) = false) /\
  test typoRe (normalize line) = false /\
  normalize (normalize line) = normalize line.
Proof.
  pose proof (normalize_noTypo (length line) line (Nat.le_refl _)) as H.
  assert (Hm : forall k, rmatch typoRe (skipn k (normalize line)) [] ret = None)
    by (intros k; apply typoRe_none, H).
  split; [exact H|]. split.
  - unfold test. rewrite (search_nowhere typoRe _ 0 Hm). reflexivity.
  - unfold normalize at 1. unfold replaceAll. apply replace_go_none. exact Hm.
Qed.

(** X6. Every token of a detail line, cut after the typo rewrite, is
    not empty and holds no white space: a run of white space separates
    two tokens and leaves no empty token. *)
Theorem X6_detail_tokens (raw : str) :
  Forall (fun line =>
            Forall (fun t => t <> [] /\ Forall (fun a => is_space a = false) t)
                   (tokensOf line))
         (detailLinesOf raw).
Proof.
  apply Forall_forall. intros line Hline.
  apply detailLinesOf_In, linesOf_In in Hline.
  destruct Hline as (H1 & H2 & H3 & _). apply tokensOf_tokens; assumption.
Qed.

(** ** The records of the parser *)

(** X7. Every record of the parser has its offset as id, the first line
    of the input (which is not empty) as group and an empty bnd; its
    type is undefined or a string other than Integer; its label is a
    string without white space at its ends, and its bits a string. *)
Theorem X7_record_fields (raw : str) :
  Forall (fun e =>
    id e = offset e /\ group e = hd [] (linesOf raw) /\ group e <> [] /\
    bnd e = [] /\
    (type e = JUndefined \/ exists t, type e = JStr t /\ t <> lit "Integer") /\
    (exists l, label e = JStr l /\ trim l = l) /\
    exists b, bits e = JStr b)
  (parseRawDetails raw).
Proof.
  apply Forall_forall. intros e He.
  destruct (parseRawDetails_In raw e He) as (Hlen & line & Hline & Hin).
  destruct (parseLine_In _ _ _ Hin) as (Ho & Hi & Ht & Hg & Hb & Hbr).
  split; [congruence|]. split; [exact Hg|]. split.
  { rewrite Hg. destruct (linesOf raw) as [|g ls] eqn:E; [simpl in Hlen; lia|].
    assert (Hg' : In g (linesOf raw)) by (rewrite E; left; reflexivity).
    apply linesOf_In in Hg'. apply Hg'. }
  split; [exact Hb|]. split; [rewrite Ht; apply typeOf_shape|].
  destruct Hbr as [(seg & k & start & end_ & desc & _ & _ & _ & Hl & Hbits & _)
                  | (_ & Hl & Hbits & _)].
  - split; [exists (trim desc); split; [exact Hl | apply trim_idem]|].
    exists (bitsRange start end_). exact Hbits.
  - split; [eexists; split; [exact Hl | apply paramNameOf_trimmed]|].
    exists []. exact Hbits.
Qed.

(** X8. The offset of a record is the first token of its line: it is
    not empty and holds no white space. *)
Theorem X8_offset_token (raw : str) :
  Forall (fun e => offset e <> [] /\ Forall (fun a => is_space a = false) (offset e))
         (parseRawDetails raw).
Proof.
  apply Forall_forall. intros e He.
  destruct (parseRawDetails_In raw e He) as (_ & line & Hline & Hin).
  destruct (parseLine_In _ _ _ Hin) as (-> & _).
  apply detailLinesOf_In, linesOf_In in Hline.
  destruct Hline as (H1 & H2 & _). apply offsetOf_token; assumption.
Qed.

(** X9. The tag of a record holds only code units of [[A-Z0-9_]]: the
    index suffix of a bit-field record is an underscore and decimal
    digits. *)
Theorem X9_tag_alphabet (raw : str) :
  Forall (fun e => Forall tagChar (tag e)) (parseRawDetails raw).
Proof.
  apply Forall_forall. intros e He.
  destruct (parseRawDetails_In raw e He) as (_ & line & _ & Hin).
  destruct (parseLine_In _ _ _ Hin) as (_ & _ & _ & _ & _ & Hbr).
  destruct Hbr as [(seg & k & start & end_ & desc & _ & _ & -> & _) | (-> & _)].
  - apply Forall_app. split; [apply synthTag_tagChar|].
    apply Forall_app. split; [repeat constructor; right; reflexivity|].
    eapply Forall_impl; [|apply dec_digits]. apply digit_tagChar.
  - apply synthTag_tagChar.
Qed.

(** X10. The bits of a record are empty, a run of digits, or two runs of
    digits with a hyphen between them. *)
Theorem X10_bits_text (raw : str) :
  Forall (fun e => exists b, bits e = JStr b /\ bitsText b) (parseRawDetails raw).
Proof.
  apply Forall_forall. intros e He.
  destruct (parseRawDetails_In raw e He) as (_ & line & _ & Hin).
  destruct (parseLine_In _ _ _ Hin) as (_ & _ & _ & _ & _ & Hbr).
  destruct Hbr as [(seg & k & start & end_ & desc & _ & Hm & _ & _ & -> & _)
                  | (_ & _ & -> & _)].
  - exists (bitsRange start end_). split; [reflexivity|].
    apply segMatch_inv in Hm. destruct Hm as (Hs & Hsd & _ & He').
    rewrite bitsRange_spec by (intros e0 He0; apply (He' e0 He0)).
    destruct end_ as [en|].
    + right. right. exists start, en. destruct (He' en eq_refl) as (Hn & Hd).
      repeat split; assumption.
    + right. left. split; assumption.
  - exists []. split; [reflexivity | left; reflexivity].
Qed.

(** X11. Every value mapping found in a rest text has a run of digits as
    value, and a label without a colon and without white space at its
    ends. *)
Theorem X11_mappings_shape (restText : str) :
  Forall (fun mp => digits (fst mp) /\ ~ In ":"%char (snd mp) /\
                    trim (snd mp) = snd mp)
         (mappingsOf restText).
Proof.
  apply Forall_forall. intros mp H. unfold mappingsOf in H.
  apply in_map_iff in H. destruct H as (c & <- & Hc).
  apply execAll_In in Hc. destruct Hc as (s1 & rest & Hm).
  apply mapRegex_label in Hm. destruct Hm as (value & text & H1 & H2 & Hd & Hn).
  unfold capd. rewrite H1, H2. cbn [fst snd].
  split; [exact Hd|]. split; [|apply trim_idem].
  intros Hin. apply Hn. apply (trim_incl _ _ Hin).
Qed.

(** X12. A line that goes to the bit-field branch and has no colon after
    its second token matches the segment pattern nowhere: the line
    yields no record. *)
Theorem X12_bit_line_without_colon (groupName line : str) :
  isBitField line = true -> ~ In ":"%char (restTextOf line) ->
  Forall (fun seg => segMatch seg = None) (segmentsOf (restTextOf line)) /\
  parseLine groupName line = [].
Proof.
  intros Hb Hno.
  assert (Hall : Forall (fun seg => segMatch seg = None) (segmentsOf (restTextOf line))).
  { apply Forall_forall. intros seg Hseg.
    destruct (segMatch seg) eqn:E; [|reflexivity].
    exfalso. apply Hno. apply (segmentsOf_incl _ _ _ Hseg).
    apply segMatch_colon. rewrite E. discriminate. }
  split; [exact Hall|].
  unfold parseLine. unfold isBitField in Hb. rewrite Hb.
  apply bitEntries_none. exact Hall.
Qed.

Lemma X12_bit_line_without_colon_witness :
  isBitField (lit "100 Integer Bits 5 Ready") = true /\
  ~ In ":"%char (restTextOf (lit "100 Integer Bits 5 Ready")) /\
  Forall (fun seg => segMatch seg = None)
         (segmentsOf (restTextOf (lit "100 Integer Bits 5 Ready"))) /\
  parseLine (lit "Status Word") (lit "100 Integer Bits 5 Ready") = [].
Proof.
  assert (Hb : isBitField (lit "100 Integer Bits 5 Ready") = true)
    by (vm_compute; reflexivity).
  assert (Hr : restTextOf (lit "100 Integer Bits 5 Ready") = lit "Bits 5 Ready")
    by (vm_compute; reflexivity).
  assert (Hno : ~ In ":"%char (restTextOf (lit "100 Integer Bits 5 Ready"))).
  { rewrite Hr. cbv. intros H.
    repeat (destruct H as [H | H]; [discriminate H|]). exact H. }
  split; [exact Hb|]. split; [exact Hno|].
  exact (X12_bit_line_without_colon (lit "Status Word") _ Hb Hno).
Defined.

(** X13. The segments of a rest text are not empty, have no white
    space at their ends and hold no semicolon. *)
Theorem X13_segments_shape (restText : str) :
  Forall (fun seg => seg <> [] /\ trim seg = seg /\ ~ In ";"%char seg)
         (segmentsOf restText).
Proof.
  apply Forall_forall. intros seg Hseg.
  destruct (segmentsOf_In restText seg Hseg) as (H1 & H2 & H3 & H4).
  split; [exact H1|]. split; [apply trim_id; assumption | exact H4].
Qed.

(** X14. The label of a bit-field record is the text of one of the
    segments of its line from some point to the end of the segment: the
    description is never cut short, and the label is not empty and
    holds no semicolon. *)
Theorem X14_bit_field_labels (groupName line : str) :
  isBitField line = true ->
  Forall (fun e =>
    exists seg pre desc,
      In seg (segmentsOf (restTextOf line)) /\ seg = pre ++ desc /\
      desc <> [] /\ ~ In ";"%char desc /\ label e = JStr desc)
  (parseLine groupName line).
Proof.
  intros Hb. apply Forall_forall. intros e He.
  unfold parseLine in He. unfold isBitField in Hb. rewrite Hb in He.
  apply bitEntries_In in He.
  destruct He as (seg & k & [[start end_] desc] & Hseg & Hm & ->).
  destruct (segmentsOf_In _ seg Hseg) as (_ & _ & Hend & Hno).
  destruct (segMatch_desc seg start end_ desc Hno Hend Hm) as (Hd & Ht & pre & E).
  exists seg, pre, desc. split; [exact Hseg|]. split; [exact E|].
  split; [exact Hd|]. split.
  - intros Hin. apply Hno. rewrite E. apply in_or_app. right. exact Hin.
  - cbn. rewrite Ht. reflexivity.
Qed.

Lemma X14_bit_field_labels_witness :
  isBitField lineStatus = true /\
  Forall (fun e =>
    exists seg pre desc,
      In seg (segmentsOf (restTextOf lineStatus)) /\ seg = pre ++ desc /\
      desc <> [] /\ ~ In ";"%char desc /\ label e = JStr desc)
  (parseLine (lit "Status Word") lineStatus).
Proof.
  assert (Hb : isBitField lineStatus = true) by (vm_compute; reflexivity).
  split; [exact Hb|].
  exact (X14_bit_field_labels (lit "Status Word") lineStatus Hb).
Defined.

(** ** The engine *)

(** X15. Without enrichment (the switch off, or no key) generation
    never reaches its catch branch: whatever the input, the output is
    the wire lines of the records of the parser, one for each record,
    joined by a newline, and neither the response nor [JSON.parse] has
    a part in it. *)
Theorem X15_generation_without_enrichment (JSON_parse : str -> option jsval)
    (raw apiKey aiResp : str) :
  exists lines,
    Forall2 wireLineOf (parseRawDetails raw) lines /\
    generatePointFile JSON_parse raw false apiKey aiResp = Ok (join [LF] lines) /\
    generatePointFile JSON_parse raw true [] aiResp = Ok (join [LF] lines).
Proof.
  destruct (parser_lines raw) as (lines & Hl). exists lines. split.
  - apply mapM_Forall2 in Hl. eapply Forall2_impl; [|exact Hl].
    intros e line He. apply pointLine_wire. exact He.
  - unfold generatePointFile.
    rewrite !engineRecords_off by reflexivity.
    cbn [bind]. unfold buildOutput. rewrite Hl. split; reflexivity.
Qed.

(** X16. Without enrichment the output has one line for each record:
    no wire line of a record of the parser holds a line feed or has
    white space at its ends, and splitting the output into lines, the
    way the parser splits its input, gives back the wire lines. *)
Theorem X16_one_line_per_record (JSON_parse : str -> option jsval)
    (raw apiKey aiResp : str) :
  exists lines,
    generatePointFile JSON_parse raw false apiKey aiResp = Ok (join [LF] lines) /\
    length lines = length (parseRawDetails raw) /\
    Forall cleanLine lines /\
    linesOf (join [LF] lines) = lines.
Proof.
  destruct (parser_lines raw) as (lines & Hl). exists lines.
  pose proof (parser_lines_clean raw lines Hl) as Hc.
  split.
  { unfold generatePointFile. rewrite engineRecords_off by reflexivity.
    cbn [bind]. unfold buildOutput. rewrite Hl. reflexivity. }
  split; [apply (mapM_length _ _ _ Hl)|]. split; [exact Hc|].
  apply linesOf_join; [left; reflexivity | exact Hc].
Qed.

(** X17. A response that decodes to nothing, or to an object without
    [parameters], does not stand in the way of generation: the records
    are those of the parser and the output is the output without
    enrichment. *)
Theorem X17_generation_survives_response (JSON_parse : str -> option jsval)
    (raw apiKey aiResp : str) :
  (safeParseJson JSON_parse aiResp = JNull \/
   exists fields, safeParseJson JSON_parse aiResp = JObj fields /\
                  lookup (lit "parameters") fields = None) ->
  engineRecords JSON_parse raw true apiKey aiResp = Ok (parseRawDetails raw) /\
  generatePointFile JSON_parse raw true apiKey aiResp
  = generatePointFile JSON_parse raw false apiKey aiResp.
Proof.
  intros H.
  assert (E : engineRecords JSON_parse raw true apiKey aiResp = Ok (parseRawDetails raw)).
  { unfold engineRecords. cbn [andb]. destruct (nonempty apiKey); [|reflexivity].
    rewrite (enhanceWithAI_noop _ _ _ _ H). cbn [bind fst snd].
    apply mapM_deref_all. }
  split; [exact E|]. unfold generatePointFile. rewrite E.
  rewrite engineRecords_off by reflexivity. reflexivity.
Qed.

Lemma X17_generation_survives_response_witness :
  (safeParseJson (fun _ => None) (lit "I cannot help with that.") = JNull \/
   exists fields,
     safeParseJson (fun _ => None) (lit "I cannot help with that.") = JObj fields /\
     lookup (lit "parameters") fields = None) /\
  engineRecords (fun _ => None) rawConfig true (lit "key")
    (lit "I cannot help with that.") = Ok (parseRawDetails rawConfig) /\
  generatePointFile (fun _ => None) rawConfig true (lit "key")
    (lit "I cannot help with that.")
  = generatePointFile (fun _ => None) rawConfig false (lit "key")
      (lit "I cannot help with that.").
Proof.
  assert (H : safeParseJson (fun _ => None) (lit "I cannot help with that.") = JNull)
    by (vm_compute; reflexivity).
  split; [left; exact H|].
  exact (X17_generation_survives_response (fun _ => None) rawConfig (lit "key")
           (lit "I cannot help with that.") (or_introl H)).
Defined.

(** ** The text safeParseJson decodes *)

(** X18. The text [safeParseJson] hands to [JSON.parse] runs from the
    first opening brace of the response to the first closing brace
    after it that ends a line or the response; with no such closing
    brace the result is null.  A response on several lines is cut at
    the first line that ends with a closing brace. *)
Theorem X18_decoded_text (JSON_parse : str -> option jsval) (pre tail : str) :
  ~ In "{"%char pre ->
  search jsonObjRe (pre ++ "{"%char :: tail) 0 =
  match firstClose tail with
  | Some j => Some (length pre, "{"%char :: firstn (S j) tail, [])
  | None => None
  end /\
  safeParseJson JSON_parse (pre ++ "{"%char :: tail) =
  match firstClose tail with
  | Some j =>
      match JSON_parse ("{"%char :: firstn (S j) tail) with
      | Some v => v
      | None => JNull
      end
  | None => JNull
  end.
Proof.
  intros H. pose proof (search_jsonObjRe_text tail pre 0 H) as E.
  cbn [Nat.add] in E. split; [exact E|].
  unfold safeParseJson. rewrite E. destruct (firstClose tail); reflexivity.
Qed.

Lemma X18_decoded_text_witness :
  ~ In "{"%char (lit "Result: ") /\
  search jsonObjRe (lit "Result: " ++ "{"%char :: nestedTail) 0
  = Some (8, lit "{" ++ quoted (lit "a") ++ lit ":{" ++ quoted (lit "b") ++ lit ":1}", []) /\
  safeParseJson (decodes ("{"%char :: nestedTail) (JObj []))
    (lit "Result: " ++ "{"%char :: nestedTail) = JNull.
Proof.
  assert (H : ~ In "{"%char (lit "Result: ")).
  { cbv. intros H. repeat (destruct H as [H | H]; [discriminate H|]). exact H. }
  split; [exact H|].
  exact (X18_decoded_text (decodes ("{"%char :: nestedTail) (JObj []))
           (lit "Result: ") nestedTail H).
Defined.

(** ** The merge *)

(** X19. With [parameters] an array, the records after the merge are
    the map of the merge callback over the contents of the records, in
    order: the merge returns when the callback returns for every
    record, and raises when it raises for one.  So it is for the engine
    and the records of the parser. *)
Theorem X19_merge_is_a_map (JSON_parse : str -> option jsval)
    (raw apiKey aiResp : str) (fields : list (str * jsval)) (ps : list jsval)
    (h : heap) (entries : list nat) (es : list entry) :
  safeParseJson JSON_parse aiResp = JObj fields ->
  lookup (lit "parameters") fields = Some (JArr ps) ->
  recordsAt h entries es -> nonempty apiKey = true ->
  (p <- enhanceWithAI JSON_parse h entries aiResp ;; mapM (deref (snd p)) (fst p))
  = mapM (enhanceRecord ps) es /\
  engineRecords JSON_parse raw true apiKey aiResp
  = mapM (enhanceRecord ps) (parseRawDetails raw).
Proof.
  intros Hs Hl Hat0 Hk.
  assert (G : forall h0 entries0 es0, recordsAt h0 entries0 es0 ->
            (p <- enhanceWithAI JSON_parse h0 entries0 aiResp ;;
             mapM (deref (snd p)) (fst p))
            = mapM (enhanceRecord ps) es0).
  { intros h0 entries0 es0 Hat. unfold enhanceWithAI. rewrite Hs.
    cbn [truthy negb getProp]. rewrite Hl. cbn [bind truthy negb].
    pose proof (enhanceEntries_records ps entries0 es0 h0 Hat) as H.
    destruct (enhanceEntries (JArr ps) h0 entries0) as [[entries' h']|];
      cbn [bind fst snd].
    - destruct H as (es' & Hes' & Hat' & _). rewrite Hes'.
      apply recordsAt_deref. exact Hat'.
    - symmetry. exact H. }
  split; [apply G; exact Hat0|].
  unfold engineRecords. rewrite Hk. cbn [andb].
  apply G. apply recordsAt_all.
Qed.

Lemma X19_merge_is_a_map_witness :
  safeParseJson (decodes payloadBits jsonBits) payloadBits
    = JObj [(lit "parameters", JArr [entryBits])] /\
  lookup (lit "parameters") [(lit "parameters", JArr [entryBits])]
    = Some (JArr [entryBits]) /\
  recordsAt [speedEntry; otherEntry] [1; 0] [otherEntry; speedEntry] /\
  nonempty (lit "key") = true /\
  (p <- enhanceWithAI (decodes payloadBits jsonBits) [speedEntry; otherEntry]
          [1; 0] payloadBits ;;
   mapM (deref (snd p)) (fst p))
  = mapM (enhanceRecord [entryBits]) [otherEntry; speedEntry] /\
  engineRecords (decodes payloadBits jsonBits) rawConfig true (lit "key") payloadBits
  = mapM (enhanceRecord [entryBits]) (parseRawDetails rawConfig).
Proof.
  assert (Hs : safeParseJson (decodes payloadBits jsonBits) payloadBits
               = JObj [(lit "parameters", JArr [entryBits])])
    by (vm_compute; reflexivity).
  assert (Hl : lookup (lit "parameters") [(lit "parameters", JArr [entryBits])]
               = Some (JArr [entryBits]))
    by (vm_compute; reflexivity).
  assert (Hat : recordsAt [speedEntry; otherEntry] [1; 0] [otherEntry; speedEntry])
    by (repeat constructor).
  assert (Hk : nonempty (lit "key") = true) by reflexivity.
  split; [exact Hs|]. split; [exact Hl|]. split; [exact Hat|]. split; [exact Hk|].
  exact (X19_merge_is_a_map (decodes payloadBits jsonBits) rawConfig (lit "key")
           payloadBits _ [entryBits] [speedEntry; otherEntry] [1; 0]
           [otherEntry; speedEntry] Hs Hl Hat Hk).
Defined.

(** X20. Merging the same response a second time changes no record:
    the second merge returns, and each record it returns has the
    contents of the record the first merge returned. *)
Theorem X20_merge_idempotent (JSON_parse : str -> option jsval)
    (h : heap) (entries : list nat) (aiData : str)
    (entries1 : list nat) (h1 : heap) :
  Forall (fun r => r < length h) entries ->
  enhanceWithAI JSON_parse h entries aiData = Ok (entries1, h1) ->
  exists entries2 h2,
    enhanceWithAI JSON_parse h1 entries1 aiData = Ok (entries2, h2) /\
    Forall2 (fun r1 r2 => nth_error h2 r2 = nth_error h1 r1) entries1 entries2.
Proof.
  intros Hv H. unfold enhanceWithAI in *.
  destruct (negb (truthy (safeParseJson JSON_parse aiData))).
  { inversion H; subst. exists entries1, h1. split; [reflexivity|].
    apply Forall2_same. reflexivity. }
  on_ok (getProp (safeParseJson JSON_parse aiData) (lit "parameters")) as parameters Ep in H.
  cbn [bind]. destruct (negb (truthy parameters)).
  { inversion H; subst. exists entries1, h1. split; [reflexivity|].
    apply Forall2_same. reflexivity. }
  assert (Hna : (forall ps, parameters <> JArr ps) ->
                exists entries2 h2,
                  enhanceEntries parameters h1 entries1 = Ok (entries2, h2) /\
                  Forall2 (fun r1 r2 => nth_error h2 r2 = nth_error h1 r1)
                          entries1 entries2).
  { intros Hn. destruct (enhanceEntries_not_array _ _ _ _ _ Hn H) as (_ & ->).
    exists [], h1. split; [reflexivity | constructor]. }
  destruct parameters as [| | | | |ps|]; try (apply Hna; discriminate).
  clear Hna. destruct (recordsAt_valid h entries Hv) as (es & Hat).
  pose proof (enhanceEntries_records ps entries es h Hat) as R.
  rewrite H in R. destruct R as (es1 & Hes1 & Hat1 & _).
  pose proof (mapM_idem (enhanceRecord ps) (enhanceRecord_idem ps) _ _ Hes1) as Hid.
  pose proof (enhanceEntries_records ps entries1 es1 h1 Hat1) as R.
  destruct (enhanceEntries (JArr ps) h1 entries1) as [[entries2 h2]|].
  - destruct R as (es2 & Hes2 & Hat2 & _).
    rewrite Hid in Hes2. inversion Hes2; subst es2.
    exists entries2, h2. split; [reflexivity|].
    apply (recordsAt_same _ _ _ _ _ Hat1 Hat2).
  - rewrite Hid in R. discriminate R.
Qed.

Lemma X20_merge_idempotent_witness :
  Forall (fun r => r < length [speedEntry; otherEntry]) [0; 1] /\
  enhanceWithAI (decodes payloadBits jsonBits)
    [speedEntry; otherEntry] [0; 1] payloadBits
  = Ok ([2; 1],
        [speedEntry; otherEntry;
         merged speedEntry JUndefined (JStr (lit "0-3")) (evt speedEntry)]) /\
  exists entries2 h2,
    enhanceWithAI (decodes payloadBits jsonBits)
      [speedEntry; otherEntry;
       merged speedEntry JUndefined (JStr (lit "0-3")) (evt speedEntry)]
      [2; 1] payloadBits = Ok (entries2, h2) /\
    Forall2 (fun r1 r2 =>
               nth_error h2 r2 =
               nth_error
                 [speedEntry; otherEntry;
                  merged speedEntry JUndefined (JStr (lit "0-3")) (evt speedEntry)] r1)
            [2; 1] entries2.
Proof.
  assert (Hv : Forall (fun r => r < length [speedEntry; otherEntry]) [0; 1])
    by (repeat constructor).
  assert (H : enhanceWithAI (decodes payloadBits jsonBits)
                [speedEntry; otherEntry] [0; 1] payloadBits
              = Ok ([2; 1],
                    [speedEntry; otherEntry;
                     merged speedEntry JUndefined (JStr (lit "0-3")) (evt speedEntry)]))
    by (vm_compute; reflexivity).
  split; [exact Hv|]. split; [exact H|].
  exact (X20_merge_idempotent _ _ _ _ _ _ Hv H).
Defined.

(** X21. When the decoded response has a [parameters] that is truthy
    and no array, the merge raises as soon as there is a record to
    look up, and generation with enrichment ends in its catch
    branch. *)
Theorem X21_parameters_not_an_array (JSON_parse : str -> option jsval)
    (h : heap) (entries : list nat) (raw apiKey aiData : str)
    (fields : list (str * jsval)) (v : jsval) :
  safeParseJson JSON_parse aiData = JObj fields ->
  lookup (lit "parameters") fields = Some v ->
  truthy v = true -> (forall ps, v <> JArr ps) ->
  entries <> [] -> parseRawDetails raw <> [] -> nonempty apiKey = true ->
  enhanceWithAI JSON_parse h entries aiData = Throw /\
  generatePointFile JSON_parse raw true apiKey aiData = Throw.
Proof.
  intros Hs Hl Ht Hna Hne Hpe Hk.
  assert (G : forall h0 entries0, entries0 <> [] ->
            enhanceWithAI JSON_parse h0 entries0 aiData = Throw).
  { intros h0 entries0 Hne0. unfold enhanceWithAI. rewrite Hs.
    cbn [truthy negb getProp]. rewrite Hl. cbn [bind]. rewrite Ht. cbn [negb].
    destruct entries0 as [|r rest]; [contradiction|].
    cbn [enhanceEntries]. unfold enhanceEntry.
    destruct (nth_error h0 r); [|reflexivity].
    destruct v; try reflexivity. exfalso. apply (Hna xs). reflexivity. }
  split; [apply G; exact Hne|].
  unfold generatePointFile, engineRecords. rewrite Hk. cbn [andb].
  rewrite G; [reflexivity|].
  destruct (parseRawDetails raw); [contradiction | discriminate].
Qed.

Lemma X21_parameters_not_an_array_witness :
  safeParseJson (decodes payloadTextParameters jsonTextParameters)
    payloadTextParameters = JObj [(lit "parameters", JStr (lit "none"))] /\
  lookup (lit "parameters") [(lit "parameters", JStr (lit "none"))]
    = Some (JStr (lit "none")) /\
  truthy (JStr (lit "none")) = true /\
  (forall ps, JStr (lit "none") <> JArr ps) /\
  [0] <> [] /\ parseRawDetails rawConfig <> [] /\ nonempty (lit "key") = true /\
  enhanceWithAI (decodes payloadTextParameters jsonTextParameters)
    [speedEntry] [0] payloadTextParameters = Throw /\
  generatePointFile (decodes payloadTextParameters jsonTextParameters)
    rawConfig true (lit "key") payloadTextParameters = Throw.
Proof.
  assert (Hs : safeParseJson (decodes payloadTextParameters jsonTextParameters)
                 payloadTextParameters = JObj [(lit "parameters", JStr (lit "none"))])
    by (vm_compute; reflexivity).
  assert (Hl : lookup (lit "parameters") [(lit "parameters", JStr (lit "none"))]
               = Some (JStr (lit "none")))
    by (vm_compute; reflexivity).
  assert (Ht : truthy (JStr (lit "none")) = true) by reflexivity.
  assert (Hn : forall ps, JStr (lit "none") <> JArr ps) by (intros ps; discriminate).
  assert (Hne : [0] <> []) by discriminate.
  assert (Hpe : parseRawDetails rawConfig <> [])
    by (rewrite parse_rawConfig; discriminate).
  assert (Hk : nonempty (lit "key") = true) by reflexivity.
  split; [exact Hs|]. split; [exact Hl|]. split; [exact Ht|]. split; [exact Hn|].
  split; [exact Hne|]. split; [exact Hpe|]. split; [exact Hk|].
  exact (X21_parameters_not_an_array
           (decodes payloadTextParameters jsonTextParameters)
           [speedEntry] [0] rawConfig (lit "key") payloadTextParameters
           _ _ Hs Hl Ht Hn Hne Hpe Hk).
Defined.

(** X22. Whatever the response, the records the engine hands to the
    line builder are as many as the records of the parser, in the same
    order, each with the offset, type, id, tag, group and bnd of the
    parser's record: so each has its offset as id, a tag of
    [[A-Z0-9_]] and an empty bnd. *)
Theorem X22_enrichment_keeps_identity (JSON_parse : str -> option jsval)
    (raw : str) (useAI : bool) (apiKey aiResp : str) (es : list entry) :
  engineRecords JSON_parse raw useAI apiKey aiResp = Ok es ->
  Forall2 sameIdentity (parseRawDetails raw) es /\
  Forall (fun e => id e = offset e /\ bnd e = [] /\ Forall tagChar (tag e)) es.
Proof.
  intros H. pose proof (engineRecords_identity _ _ _ _ _ _ H) as HI.
  split; [exact HI|].
  assert (Hin : Forall (fun e => In e (parseRawDetails raw)) (parseRawDetails raw))
    by (apply Forall_forall; auto).
  revert Hin. apply Forall2_transfer with (R := sameIdentity); [|exact HI].
  intros e e' (Ho & _ & Hi & Ht & _ & Hb) He.
  destruct (parser_identity raw e He) as (H1 & H2 & H3).
  split; [congruence|]. split; [congruence|]. rewrite Ht. exact H3.
Qed.

Lemma X22_enrichment_keeps_identity_witness :
  engineRecords (decodes payloadBits jsonBits) rawConfig true (lit "key") payloadBits
  = Ok [merged speedEntry JUndefined (JStr (lit "0-3")) (evt speedEntry)] /\
  Forall2 sameIdentity (parseRawDetails rawConfig)
    [merged speedEntry JUndefined (JStr (lit "0-3")) (evt speedEntry)] /\
  Forall (fun e => id e = offset e /\ bnd e = [] /\ Forall tagChar (tag e))
    [merged speedEntry JUndefined (JStr (lit "0-3")) (evt speedEntry)].
Proof.
  assert (H : engineRecords (decodes payloadBits jsonBits) rawConfig true (lit "key")
                payloadBits
              = Ok [merged speedEntry JUndefined (JStr (lit "0-3")) (evt speedEntry)])
    by (vm_compute; reflexivity).
  split; [exact H|].
  exact (X22_enrichment_keeps_identity _ _ _ _ _ _ H).
Defined.
